(** * Threshold selection and risk routing

    A shallow embedding of [examples/accuracy_threshold_script.py]: the
    metrics evaluator ([metrics_at_threshold]), the threshold sweep
    ([threshold_sweep]), the selector ([pick_threshold]), the band
    constructor ([make_t1_t2]) and the router ([route_with_t1_t2]).

    Modelling choices.
    - A finite Python [float] is the rational number it denotes, a value of
      [Q]; comparisons of floats are comparisons of rationals.  NaN and the
      infinities are outside the model.
    - Every floating-point operation returns the rounding of its exact
      result.  The program takes the rounding [rnd] as a parameter; the
      general theorems assume the laws [Rounding rnd], which hold for
      IEEE 754 binary64 ([rnd64]: round to nearest, ties to even, with
      subnormals; overflow is outside the model) and for exact arithmetic
      ([rnd_exact]).  Concrete runs are evaluated with [rnd64], which is
      compared with the kernel's hardware floats in [Hardware].
    - Python [int] is [Z]; a numpy array is a list; a raised exception is the
      [Raise] case of [result].  An array is assumed to fit in memory: the
      size check of [np.arange] is modelled, a failed allocation is not.
    - A [DataFrame] is its column index and its list of rows. *)

From Stdlib Require Import ZArith QArith Qround Qabs Qpower Qreduction Qminmax.
From Stdlib Require Import List Bool String Sorted Lia Lqa Morphisms.
From Stdlib Require DecimalString.
From Stdlib Require Floats Uint63.
Import ListNotations.
Open Scope Q_scope.

(** * Part I: the model *)

(** ** Exceptions *)

Inductive PyError : Type :=
| ValueError (msg : string)
| KeyError (key : string)
| IndexError (msg : string)
| ZeroDivisionError (msg : string).

(** The class name of an exception, as [type(e).__name__]. *)
Definition exn_name (e : PyError) : string :=
  match e with
  | ValueError _ => "ValueError"
  | KeyError _ => "KeyError"
  | IndexError _ => "IndexError"
  | ZeroDivisionError _ => "ZeroDivisionError"
  end.

Inductive result (A : Type) : Type :=
| Ok (a : A)
| Raise (e : PyError).

Arguments Ok {A} a.
Arguments Raise {A} e.

Definition bind {A B : Type} (c : result A) (k : A -> result B) : result B :=
  match c with
  | Ok a => k a
  | Raise e => Raise e
  end.

Notation "x <- c ;; k" := (bind c (fun x => k))
  (at level 61, c at next level, right associativity).

Fixpoint mapM {A B : Type} (f : A -> result B) (l : list A) : result (list B) :=
  match l with
  | [] => Ok []
  | x :: l' => y <- f x ;; ys <- mapM f l' ;; Ok (y :: ys)
  end.

(** ** Floating point *)

(** Round to the nearest integer, ties to even ([np.rint], and the last step
    of every binary64 operation). *)
Definition round_even (x : Q) : Z :=
  let f := Qfloor x in
  match Qcompare (x - inject_Z f) (1#2) with
  | Lt => f
  | Gt => (f + 1)%Z
  | Eq => if Z.even f then f else (f + 1)%Z
  end.

Definition pow2 (e : Z) : Q := 2 ^ e.

(** [Qlog2 q] is the integer [l] with [2^l <= q < 2^(l+1)], for [0 < q]. *)
Definition Qlog2 (q : Q) : Z :=
  let l := (Z.log2 (Qnum q) - Z.log2 (Zpos (Qden q)))%Z in
  if Qle_bool (pow2 l) q then l else (l - 1)%Z.

(** binary64: 53 bits of precision, least exponent of the last place -1074. *)
Definition emin : Z := (-1074)%Z.
Definition fexp (q : Q) : Z := Z.max emin (Qlog2 (Qabs q) - 52).

(** The binary64 number nearest to [q], ties to even. *)
Definition rnd64 (q : Q) : Q :=
  if Qeq_bool q 0 then 0
  else Qred (inject_Z (round_even (q / pow2 (fexp q))) * pow2 (fexp q)).

(** Exact arithmetic: no rounding. *)
Definition rnd_exact (q : Q) : Q := q.

(** A decimal literal of the source, e.g. [0.05]: the nearest binary64. *)
Definition lit (q : Q) : Q := rnd64 q.

(** The laws of a rounding: monotone, it fixes its own results, 0 and 1, and
    the double of a result is again a result (no overflow). *)
Class Rounding (rnd : Q -> Q) : Prop := {
  rnd_mono : forall x y, x <= y -> rnd x <= rnd y;
  rnd_idem : forall x, rnd (rnd x) == rnd x;
  rnd_0 : rnd 0 == 0;
  rnd_1 : rnd 1 == 1;
  rnd_double : forall x, rnd (2 * rnd x) == 2 * rnd x
}.

Definition Qlt_bool (x y : Q) : bool := negb (Qle_bool y x).

Section Arithmetic.

Variable rnd : Q -> Q.

(** [x] is a float: rounding leaves it unchanged. *)
Definition is_float (x : Q) : Prop := rnd x == x.

(** [x] is the result of an operation. *)
Definition is_result (x : Q) : Prop := exists y, x == rnd y.

Definition fadd (x y : Q) : Q := rnd (x + y).
Definition fsub (x y : Q) : Q := rnd (x - y).
Definition fmul (x y : Q) : Q := rnd (x * y).
Definition fdiv (x y : Q) : Q := rnd (x / y).

(** [a / b] on Python ints: the correctly rounded quotient. *)
Definition int_truediv (a b : Z) : Q := rnd (inject_Z a / inject_Z b).

End Arithmetic.

(** ** numpy arrays *)

(** [y_score >= t] *)
Definition np_ge (a : list Q) (t : Q) : list bool :=
  map (fun s => Qle_bool t s) a.

(** [y_score < t] *)
Definition np_lt (a : list Q) (t : Q) : list bool :=
  map (fun s => Qlt_bool s t) a.

(** [mask.astype(int)] *)
Definition astype_int (a : list bool) : list Z :=
  map (fun b : bool => if b then 1%Z else 0%Z) a.

(** [a == c] *)
Definition np_eq (a : list Z) (c : Z) : list bool :=
  map (fun x => Z.eqb x c) a.

(** The shape of a one-dimensional array of length [n] as numpy prints it:
    [(n,)]. *)
Definition shape_1d (n : nat) : string :=
  ("(" ++ DecimalString.NilEmpty.string_of_uint (Nat.to_uint n) ++ ",)")%string.

(** numpy's error for two one-dimensional operands of lengths [n] and [m]
    that do not broadcast; the message ends in a space. *)
Definition broadcast_error (n m : nat) : PyError :=
  ValueError ("operands could not be broadcast together with shapes "
              ++ shape_1d n ++ " " ++ shape_1d m ++ " ")%string.

(** [a & b] on one-dimensional arrays, with numpy's broadcasting of an array
    of length one. *)
Definition np_and (a b : list bool) : result (list bool) :=
  if Nat.eqb (List.length a) (List.length b) then
    Ok (map (fun p : bool * bool => fst p && snd p) (combine a b))
  else
    match a, b with
    | [x], _ => Ok (map (fun y => x && y) b)
    | _, [y] => Ok (map (fun x => x && y) a)
    | _, _ => Raise (broadcast_error (List.length a) (List.length b))
    end.

(** [mask.sum()] *)
Definition np_sum (a : list bool) : Z :=
  fold_right (fun (b : bool) acc => ((if b then 1 else 0) + acc)%Z) 0%Z a.

(** [np.rint] *)
Definition np_rint (x : Q) : Q := inject_Z (round_even x).

(** The range of numpy's index type [npy_intp] on a 64-bit platform. *)
Definition NPY_MIN_INTP : Z := Eval cbv in (- 2 ^ 63)%Z.
Definition NPY_MAX_INTP : Z := Eval cbv in (2 ^ 63 - 1)%Z.

(** [(double)NPY_MAX_INTP]: the conversion rounds [2^63 - 1] up to [2^63]. *)
Definition NPY_MAX_INTP_double : Z := Eval cbv in (2 ^ 63)%Z.

(** The message of the [ValueError] into which [np.arange] turns the
    [OverflowError] of its length computation. *)
Definition size_error : PyError := ValueError "Maximum allowed size exceeded".

(** numpy's [_arange_safe_ceil_to_intp]: the ceiling of the float length as
    an [npy_intp].  The check is made on doubles,
    [(double)NPY_MIN_INTP <= ivalue && ivalue <= (double)NPY_MAX_INTP].  The
    one value that passes it and does not fit, [2^63], is converted as
    x86-64 converts it, to [NPY_MIN_INTP]. *)
Definition arange_safe_ceil_to_intp (value : Q) : result Z :=
  let ivalue := Qceiling value in
  if (NPY_MIN_INTP <=? ivalue)%Z && (ivalue <=? NPY_MAX_INTP_double)%Z then
    Ok (if (ivalue =? NPY_MAX_INTP_double)%Z then NPY_MIN_INTP else ivalue)
  else Raise size_error.

Section Arrays.

Variable rnd : Q -> Q.

(** [np.round(a, decimals)] for [decimals > 0]: multiply by the power of ten,
    round to the nearest integer, divide. *)
Definition np_round (a : list Q) (decimals : nat) : list Q :=
  let f := inject_Z (10 ^ Z.of_nat decimals) in
  map (fun x => fdiv rnd (np_rint (fmul rnd x f)) f) a.

(** [np.arange(start, stop, step)] on floats: the length is
    [ceil((stop - start) / step)], checked by [arange_safe_ceil_to_intp];
    a length [<= 0] gives the empty array; the first two entries are
    [start] and [start + step], entry [i >= 2] is [start + i * delta] with
    [delta = (start + step) - start]. *)
Definition arange (start stop step : Q) : result (list Q) :=
  if Qeq_bool step 0 then Raise (ZeroDivisionError "float division by zero")
  else
    len <- arange_safe_ceil_to_intp (fdiv rnd (fsub rnd stop start) step) ;;
    let next := fadd rnd start step in
    let delta := fsub rnd next start in
    Ok (map (fun i : nat =>
               match i with
               | O => start
               | S O => next
               | _ => fadd rnd start (fmul rnd (inject_Z (Z.of_nat i)) delta)
               end)
            (seq 0 (Z.to_nat len))).

End Arrays.

(** ** The metrics table *)

(** One row of the sweep: the dictionary [metrics_at_threshold] returns. *)
Module Row.
Record metrics : Type := mk {
  t : Q;
  tp : Z; fp : Z; tn : Z; fn : Z;
  precision : Q;
  recall : Q;
  fpr : Q;
  fnr : Q;
  f1 : Q
}.
End Row.

(** The columns of the table, each with its value in a row. *)
Definition column_values : list (string * (Row.metrics -> Q)) :=
  [ ("t", Row.t);
    ("tp", fun r => inject_Z (Row.tp r));
    ("fp", fun r => inject_Z (Row.fp r));
    ("tn", fun r => inject_Z (Row.tn r));
    ("fn", fun r => inject_Z (Row.fn r));
    ("precision", Row.precision);
    ("recall", Row.recall);
    ("fpr", Row.fpr);
    ("fnr", Row.fnr);
    ("f1", Row.f1) ]%string.

Definition metric_columns : list string := map fst column_values.

Record DataFrame : Type := mkDataFrame {
  columns : list string;
  rows : list Row.metrics
}.

(** [pd.DataFrame(rows)] on a list of dictionaries: the columns are the keys
    of the rows; no row, no column. *)
Definition pd_DataFrame (rs : list Row.metrics) : DataFrame :=
  {| columns := match rs with [] => [] | _ :: _ => metric_columns end;
     rows := rs |}.

Fixpoint assoc {A : Type} (k : string) (l : list (string * A)) : option A :=
  match l with
  | [] => None
  | (k', v) :: l' => if String.eqb k k' then Some v else assoc k l'
  end.

(** [df[c]]: the accessor of column [c], [KeyError] when the frame has no
    such column. *)
Definition getitem (df : DataFrame) (c : string) : result (Row.metrics -> Q) :=
  if existsb (String.eqb c) (columns df) then
    match assoc c column_values with
    | Some f => Ok f
    | None => Raise (KeyError c)
    end
  else Raise (KeyError c).

(** [df[mask]] *)
Definition filter_rows (mask : Row.metrics -> bool) (df : DataFrame) : DataFrame :=
  {| columns := columns df; rows := filter mask (rows df) |}.

(** [df.empty]: some axis has length zero. *)
Definition empty (df : DataFrame) : bool :=
  match rows df, columns df with
  | [], _ | _, [] => true
  | _, _ => false
  end.

(** Rows compared by the sort keys in turn. *)
Fixpoint lex_le (keys : list (Row.metrics -> Q)) (a b : Row.metrics) : bool :=
  match keys with
  | [] => true
  | k :: keys' =>
      match Qcompare (k a) (k b) with
      | Lt => true
      | Gt => false
      | Eq => lex_le keys' a b
      end
  end.

Fixpoint insert_row (le : Row.metrics -> Row.metrics -> bool) (x : Row.metrics)
  (l : list Row.metrics) : list Row.metrics :=
  match l with
  | [] => [x]
  | y :: l' => if le x y then x :: l else y :: insert_row le x l'
  end.

(** A stable sort: rows that compare equal keep their order. *)
Definition stable_sort (le : Row.metrics -> Row.metrics -> bool)
  (l : list Row.metrics) : list Row.metrics :=
  fold_right (insert_row le) [] l.

(** [df.sort_values(by)], ascending. *)
Definition sort_values (by_ : list string) (df : DataFrame) : result DataFrame :=
  keys <- mapM (getitem df) by_ ;;
  Ok {| columns := columns df; rows := stable_sort (lex_le keys) (rows df) |}.

(** [df.iloc[i]] *)
Definition iloc (df : DataFrame) (i : nat) : result Row.metrics :=
  match nth_error (rows df) i with
  | Some r => Ok r
  | None => Raise (IndexError "single positional indexer is out-of-bounds")
  end.

(** ** The program *)

Section Engine.

Variable rnd : Q -> Q.

(** [y_pred = (y_score >= t).astype(int)] *)
Definition y_pred_of (y_score : list Q) (t : Q) : list Z :=
  astype_int (np_ge y_score t).

(** [int(((y_pred == p) & (y_true == l)).sum())] *)
Definition count_pairs (y_pred y_true : list Z) (p l : Z) : result Z :=
  m <- np_and (np_eq y_pred p) (np_eq y_true l) ;;
  Ok (np_sum m).

Definition metrics_at_threshold (y_true : list Z) (y_score : list Q) (t : Q)
  : result Row.metrics :=
  let y_pred := y_pred_of y_score t in
  tp <- count_pairs y_pred y_true 1 1 ;;
  fp <- count_pairs y_pred y_true 1 0 ;;
  tn <- count_pairs y_pred y_true 0 0 ;;
  fn <- count_pairs y_pred y_true 0 1 ;;
  let precision := if (tp + fp =? 0)%Z then 0 else int_truediv rnd tp (tp + fp) in
  let recall := if (tp + fn =? 0)%Z then 0 else int_truediv rnd tp (tp + fn) in
  let fnr := if (tp + fn =? 0)%Z then 0 else int_truediv rnd fn (tp + fn) in
  let fpr := if (fp + tn =? 0)%Z then 0 else int_truediv rnd fp (fp + tn) in
  let f1 :=
    if Qeq_bool (fadd rnd precision recall) 0 then 0
    else fdiv rnd (fmul rnd (fmul rnd 2 precision) recall)
                  (fadd rnd precision recall) in
  Ok {| Row.t := t;
        Row.tp := tp; Row.fp := fp; Row.tn := tn; Row.fn := fn;
        Row.precision := precision;
        Row.recall := recall;
        Row.fpr := fpr;
        Row.fnr := fnr;
        Row.f1 := f1 |}.

(** [thresholds = np.round(np.arange(step, 1.0, step), 2)] *)
Definition thresholds_of (step : Q) : result (list Q) :=
  grid <- arange rnd step 1 step ;;
  Ok (np_round rnd grid 2).

Definition threshold_sweep (y_true : list Z) (y_score : list Q) (step : Q)
  : result DataFrame :=
  thresholds <- thresholds_of step ;;
  rows <- mapM (metrics_at_threshold y_true y_score) thresholds ;;
  Ok (pd_DataFrame rows).

Definition pick_threshold (sweep_df : DataFrame) (precision_floor : option Q)
  : result Q :=
  df <- match precision_floor with
        | Some floor =>
            precision <- getitem sweep_df "precision" ;;
            let df := filter_rows (fun r => Qle_bool floor (precision r)) sweep_df in
            if empty df then Ok sweep_df else Ok df
        | None => Ok sweep_df
        end ;;
  sorted <- sort_values ["fnr"; "t"]%string df ;;
  best <- iloc sorted 0 ;;
  Ok (Row.t best).

(** Python's [max(a, b)] and [min(a, b)]: the first argument wins a tie. *)
Definition py_max (a b : Q) : Q := if Qlt_bool a b then b else a.
Definition py_min (a b : Q) : Q := if Qlt_bool b a then b else a.

Definition make_t1_t2 (t band : Q) : Q * Q :=
  let t1 := py_max 0 (fsub rnd t band) in
  let t2 := py_min 1 (fadd rnd t band) in
  (t1, t2).

Definition low_risk : string := "low_risk".
Definition review : string := "review".
Definition high_risk : string := "high_risk".

(** [route[mask] = v] *)
Definition setitem_mask {A : Type} (route : list (option A)) (mask : list bool)
  (v : A) : list (option A) :=
  map (fun p : option A * bool => if snd p then Some v else fst p)
      (combine route mask).

(** [a & b] on two masks of the same array. *)
Definition mask_and (a b : list bool) : list bool :=
  map (fun p : bool * bool => fst p && snd p) (combine a b).

(** The array starts as [np.empty(len(y_score), dtype=object)]: every entry
    [None]. *)
Definition route_with_t1_t2 (y_score : list Q) (t1 t2 : Q)
  : list (option string) :=
  let route := repeat None (List.length y_score) in
  let route := setitem_mask route (np_lt y_score t1) low_risk in
  let route := setitem_mask route
                 (mask_and (np_ge y_score t1) (np_lt y_score t2)) review in
  let route := setitem_mask route (np_ge y_score t2) high_risk in
  route.

Definition action_from_route (route : string) : string :=
  if String.eqb route "low_risk" then "auto_approve"
  else if String.eqb route "high_risk" then "intervene_or_block"
  else "manual_review".

End Engine.

(** ** Decision packets and the end-to-end runner *)

Definition ID_COL : string := "Customer_ID".

(** The frame of cases, as far as [build_decision_packet] reads it: its
    column index and the values of the identifier column. *)
Record CaseFrame : Type := mkCaseFrame {
  case_columns : list string;
  case_ids : list string
}.

(** [df_cases[ID_COL].values] *)
Definition getitem_ids (df_cases : CaseFrame) : result (list string) :=
  if existsb (String.eqb ID_COL) (case_columns df_cases) then Ok (case_ids df_cases)
  else Raise (KeyError ID_COL).

(** One row of the decision packet. *)
Module Packet.
Record row : Type := mk {
  Customer_ID : string;
  score : Q;
  t1 : Q;
  t2 : Q;
  route : option string;
  action : string;
  model_name : string;
  threshold_version : string
}.
End Packet.

(** [action_from_route(r)] on an entry of the route array; an entry left
    [None] compares unequal to both strings. *)
Definition action_of_entry (r : option string) : string :=
  match r with
  | Some s => action_from_route s
  | None => "manual_review"
  end.

(** [pd.DataFrame({...})] on the four arrays of the packet and its four
    scalars: the arrays must have one length, the scalars are repeated. *)
Definition pd_DataFrame_packet (ids : list string) (scores : list Q) (t1 t2 : Q)
  (route : list (option string)) (actions : list string)
  (model_name threshold_version : string) : result (list Packet.row) :=
  let n := List.length ids in
  if Nat.eqb (List.length scores) n && Nat.eqb (List.length route) n
     && Nat.eqb (List.length actions) n
  then
    Ok (map (fun c : string * (Q * (option string * string)) =>
               {| Packet.Customer_ID := fst c;
                  Packet.score := fst (snd c);
                  Packet.t1 := t1;
                  Packet.t2 := t2;
                  Packet.route := fst (snd (snd c));
                  Packet.action := snd (snd (snd c));
                  Packet.model_name := model_name;
                  Packet.threshold_version := threshold_version |})
            (combine ids (combine scores (combine route actions))))
  else Raise (ValueError "All arrays must be of the same length").

Definition build_decision_packet (df_cases : CaseFrame) (y_score : list Q)
  (t1 t2 : Q) (model_name threshold_version : string) : result (list Packet.row) :=
  let route := route_with_t1_t2 y_score t1 t2 in
  let actions := map action_of_entry route in
  ids <- getitem_ids df_cases ;;
  pd_DataFrame_packet ids y_score t1 t2 route actions model_name threshold_version.

(** The threshold steps of [main] for one model, from the test labels and
    scores: the sweep at step 0.05, the selection under the precision floor
    0.30, the band of width 0.05 and the metrics at the chosen threshold
    (the entry [main] stores in [results]). *)
Definition main_operating_point (rnd : Q -> Q) (y_test : list Z) (y_score : list Q)
  : result (Q * Q * Q * Row.metrics) :=
  sweep <- threshold_sweep rnd y_test y_score (lit (5 # 100)) ;;
  t <- pick_threshold sweep (Some (lit (30 # 100))) ;;
  let (t1, t2) := make_t1_t2 rnd t (lit (5 # 100)) in
  chosen <- metrics_at_threshold rnd y_test y_score t ;;
  Ok (t, t1, t2, chosen).

(** ** Specification vocabulary *)

(** The labelled cases of a dataset that pass a test on (score, label). *)
Definition count_cases (f : Q -> Z -> bool) (y_score : list Q) (y_true : list Z) : Z :=
  Z.of_nat
    (List.length (filter (fun c : Q * Z => f (fst c) (snd c)) (combine y_score y_true))).

(** The number of labels equal to 1. *)
Definition positives (y_true : list Z) : Z :=
  Z.of_nat (List.length (filter (fun l => Z.eqb l 1) y_true)).

(** Labels are booleans cast to int. *)
Definition binary_labels (y_true : list Z) : Prop :=
  Forall (fun l => l = 0%Z \/ l = 1%Z) y_true.

(** The four cells of the confusion matrix at threshold [t], counted on the
    dataset: a case is predicted positive when [t <= score]. *)
Definition tp_of (y_score : list Q) (y_true : list Z) (t : Q) : Z :=
  count_cases (fun s y => Qle_bool t s && (y =? 1)%Z) y_score y_true.
Definition fp_of (y_score : list Q) (y_true : list Z) (t : Q) : Z :=
  count_cases (fun s y => Qle_bool t s && (y =? 0)%Z) y_score y_true.
Definition tn_of (y_score : list Q) (y_true : list Z) (t : Q) : Z :=
  count_cases (fun s y => negb (Qle_bool t s) && (y =? 0)%Z) y_score y_true.
Definition fn_of (y_score : list Q) (y_true : list Z) (t : Q) : Z :=
  count_cases (fun s y => negb (Qle_bool t s) && (y =? 1)%Z) y_score y_true.

(** The ratios of a row, as the source computes them from the counts. *)
Definition ratios_ok (rnd : Q -> Q) (m : Row.metrics) : Prop :=
  let tp := Row.tp m in let fp := Row.fp m in
  let tn := Row.tn m in let fn := Row.fn m in
  Row.precision m = (if (tp + fp =? 0)%Z then 0 else int_truediv rnd tp (tp + fp)) /\
  Row.recall m = (if (tp + fn =? 0)%Z then 0 else int_truediv rnd tp (tp + fn)) /\
  Row.fnr m = (if (tp + fn =? 0)%Z then 0 else int_truediv rnd fn (tp + fn)) /\
  Row.fpr m = (if (fp + tn =? 0)%Z then 0 else int_truediv rnd fp (fp + tn)) /\
  Row.f1 m =
    (if Qeq_bool (fadd rnd (Row.precision m) (Row.recall m)) 0 then 0
     else fdiv rnd (fmul rnd (fmul rnd 2 (Row.precision m)) (Row.recall m))
                   (fadd rnd (Row.precision m) (Row.recall m))).

(** A sweep table: a frame with the columns the selector reads. *)
Definition sweep_table (df : DataFrame) : Prop :=
  forall c, In c ["precision"; "fnr"; "t"]%string -> In c (columns df).

(** The rows the selector chooses from: those that meet the precision floor,
    or every row when there is no floor or no row meets it. *)
Definition candidates (df : DataFrame) (precision_floor : option Q) : list Row.metrics :=
  match precision_floor with
  | Some floor =>
      match filter (fun r => Qle_bool floor (Row.precision r)) (rows df) with
      | [] => rows df
      | c => c
      end
  | None => rows df
  end.

(** The constraint was relaxed: a floor was given and no row meets it. *)
Definition relaxed (df : DataFrame) (precision_floor : option Q) : bool :=
  match precision_floor with
  | Some floor => negb (existsb (fun r => Qle_bool floor (Row.precision r)) (rows df))
  | None => false
  end.

Definition out_of_bounds : PyError :=
  IndexError "single positional indexer is out-of-bounds".

(** The order of [sort_values(["fnr", "t"])]. *)
Definition fnr_t_le : Row.metrics -> Row.metrics -> bool := lex_le [Row.fnr; Row.t].

(** The entry of the route array for one score: the three masked
    assignments in turn. *)
Definition route_entry (s t1 t2 : Q) : option string :=
  let r := None in
  let r := if Qlt_bool s t1 then Some low_risk else r in
  let r := if Qle_bool t1 s && Qlt_bool s t2 then Some review else r in
  let r := if Qle_bool t2 s then Some high_risk else r in
  r.

(** ** Data of the examples *)

(** A synthetic row of a sweep table: threshold, precision and fnr as given. *)
Definition synthetic_row (t precision fnr : Q) : Row.metrics :=
  {| Row.t := t; Row.tp := 0; Row.fp := 0; Row.tn := 0; Row.fn := 0;
     Row.precision := precision; Row.recall := 1 - fnr; Row.fpr := 0;
     Row.fnr := fnr; Row.f1 := 0 |}.

(** Two rows sharing the least fnr, at t = 0.3 and t = 0.6 (the larger
    threshold listed first), and a third row with a larger fnr. *)
Definition tie_sweep : DataFrame :=
  pd_DataFrame [ synthetic_row (lit (6#10)) (lit (6#10)) (lit (1#10));
                 synthetic_row (lit (3#10)) (lit (5#10)) (lit (1#10));
                 synthetic_row (lit (9#10)) (lit (7#10)) (lit (4#10)) ].

(** Two rows, both with precision at least 0.30 and below 0.95. *)
Definition floor_sweep : DataFrame :=
  pd_DataFrame [ synthetic_row (lit (3#10)) (lit (5#10)) (lit (1#10));
                 synthetic_row (lit (6#10)) (lit (6#10)) (lit (2#10)) ].

(** The labelled dataset of the end-to-end scenario. *)
Definition scenario_labels : list Z := [1; 0; 1; 0; 1]%Z.
Definition scenario_scores : list Q := map lit [9#10; 2#10; 6#10; 4#10; 8#10].

(** ** The grid of a step of whole hundredths *)

Definition Q_eq_dec (x y : Q) : {x = y} + {x <> y}.
Proof. decide equality; [apply Pos.eq_dec | apply Z.eq_dec]. Defined.

(** The floats nearest to [j * k / 100] for [j = 1, 2, ...] while
    [j * k < 100]. *)
Definition hundredths_grid (k : Z) : list Q :=
  map (fun j : nat => lit (Z.of_nat j * k # 100)) (seq 1 (Z.to_nat (99 / k))).

Fixpoint increasing_b (l : list Q) : bool :=
  match l with
  | x :: (y :: _) as l' => Qlt_bool x y && increasing_b l'
  | _ => true
  end.

(** The check of the grid of one step, by evaluation in binary64. *)
Definition grid_check (k : Z) : bool :=
  match thresholds_of rnd64 (lit (k # 100)) with
  | Ok grid =>
      (if list_eq_dec Q_eq_dec grid (hundredths_grid k) then true else false)
      && forallb (fun x => Qlt_bool 0 x && Qlt_bool x 1) grid
      && increasing_b grid
  | Raise _ => false
  end.

(** The rational a finite binary64 of the kernel denotes. *)
Definition SF2Q (f : SpecFloat.spec_float) : option Q :=
  match f with
  | SpecFloat.S754_zero _ => Some 0
  | SpecFloat.S754_finite s m e =>
      Some (Qred ((if s then -1 else 1) * inject_Z (Zpos m) * pow2 e))
  | _ => None
  end.

(** Closed facts about concrete rationals, by evaluation. *)
Ltac by_compute :=
  vm_compute; first [ reflexivity | discriminate | intro; discriminate ].

(** ** More specification vocabulary *)

(** The severity of a route: low_risk, review, high_risk in this order. *)
Definition risk_rank (r : string) : nat :=
  if String.eqb r low_risk then 0 else if String.eqb r review then 1 else 2.

(** The number of labels equal to 0. *)
Definition negatives (y_true : list Z) : Z :=
  Z.of_nat (List.length (filter (fun l => Z.eqb l 0) y_true)).

(** The band of the runner around a threshold is proper and inside
    [0, 1]: [0 <= t1 < t < t2 <= 1]. *)
Definition proper_band (rnd : Q -> Q) (band t : Q) : bool :=
  let (t1, t2) := make_t1_t2 rnd t band in
  Qle_bool 0 t1 && Qlt_bool t1 t && Qlt_bool t t2 && Qle_bool t2 1.

(** * Part II: binary64 rounding obeys the laws of a rounding *)

(** ** Powers of two and the binary logarithm *)

Lemma pow2_pos e : 0 < pow2 e.
Proof. apply Qpower_0_lt. reflexivity. Qed.

Lemma pow2_add a b : pow2 (a + b) == pow2 a * pow2 b.
Proof. apply Qpower_plus. discriminate. Qed.

Lemma pow2_succ a : pow2 (a + 1) == 2 * pow2 a.
Proof. rewrite pow2_add. change (pow2 1) with 2. ring. Qed.

Lemma pow2_le a b : (a <= b)%Z -> pow2 a <= pow2 b.
Proof. intros. apply Qpower_le_compat_l; [assumption | discriminate]. Qed.

Lemma pow2_lt a b : (a < b)%Z -> pow2 a < pow2 b.
Proof. intros. apply Qpower_lt_compat_l; [assumption | reflexivity]. Qed.

Lemma pow2_lt_inv a b : pow2 a < pow2 b -> (a < b)%Z.
Proof. intros. apply (Qpower_lt_compat_l_inv 2); [assumption | reflexivity]. Qed.

Lemma pow2_Z n : (0 <= n)%Z -> pow2 n == inject_Z (2 ^ n).
Proof. intros. unfold pow2. rewrite Zpower_Qpower by assumption. reflexivity. Qed.

Lemma pow2_sub a b : pow2 (a - b) == pow2 a / pow2 b.
Proof. unfold pow2. apply Qpower_minus. discriminate. Qed.

Lemma Qlog2_spec q : 0 < q -> pow2 (Qlog2 q) <= q /\ q < pow2 (Qlog2 q + 1).
Proof.
  intros Hq. destruct q as [n d].
  assert (Hn : (0 < n)%Z) by (unfold Qlt in Hq; simpl in Hq; lia).
  unfold Qlog2. cbn [Qnum Qden].
  set (la := Z.log2 n). set (ld := Z.log2 (Z.pos d)).
  destruct (Z.log2_spec n Hn) as [Hn1 Hn2].
  destruct (Z.log2_spec (Z.pos d) (eq_refl)) as [Hd1 Hd2].
  fold la in Hn1, Hn2. fold ld in Hd1, Hd2.
  assert (Hla : (0 <= la)%Z) by apply Z.log2_nonneg.
  assert (Hld : (0 <= ld)%Z) by apply Z.log2_nonneg.
  assert (Q1 : pow2 la <= inject_Z n)
    by (rewrite pow2_Z by lia; rewrite <- Zle_Qle; exact Hn1).
  assert (Q2 : inject_Z n < pow2 (la + 1))
    by (rewrite pow2_Z by lia; rewrite <- Zlt_Qlt; exact Hn2).
  assert (Q3 : pow2 ld <= inject_Z (Z.pos d))
    by (rewrite pow2_Z by lia; rewrite <- Zle_Qle; exact Hd1).
  assert (Q4 : inject_Z (Z.pos d) < pow2 (ld + 1))
    by (rewrite pow2_Z by lia; rewrite <- Zlt_Qlt; exact Hd2).
  set (N := inject_Z n) in *. set (D := inject_Z (Z.pos d)) in *.
  assert (Eq : (n # d) * D == N).
  { unfold N, D. rewrite (Qmake_Qdiv n d). field. discriminate. }
  assert (Dp : 0 < D) by reflexivity.
  set (X := n # d) in *.
  assert (Lo : pow2 (la - ld - 1) < X).
  { assert (E : pow2 (la - ld - 1) * pow2 (ld + 1) == pow2 la)
      by (rewrite <- pow2_add; replace (la - ld - 1 + (ld + 1))%Z with la by lia; reflexivity).
    assert (P := pow2_pos (la - ld - 1)).
    apply (Qmult_lt_r _ _ D Dp). rewrite Eq.
    apply Qlt_le_trans with (pow2 (la - ld - 1) * pow2 (ld + 1)); [|rewrite E; exact Q1].
    apply Qmult_lt_l; assumption. }
  assert (Hi : X < pow2 (la - ld + 1)).
  { assert (E : pow2 (la - ld + 1) * pow2 ld == pow2 (la + 1))
      by (rewrite <- pow2_add; replace (la - ld + 1 + ld)%Z with (la + 1)%Z by lia; reflexivity).
    assert (P := pow2_pos (la - ld + 1)).
    apply (Qmult_lt_r _ _ D Dp). rewrite Eq.
    apply Qlt_le_trans with (pow2 (la - ld + 1) * pow2 ld); [rewrite E; exact Q2|].
    apply Qmult_le_l; assumption. }
  destruct (Qle_bool (pow2 (la - ld)) X) eqn:B.
  - apply Qle_bool_iff in B. split; assumption.
  - assert (~ pow2 (la - ld) <= X) by (rewrite <- Qle_bool_iff; congruence).
    replace (la - ld - 1 + 1)%Z with (la - ld)%Z by lia.
    split; [apply Qlt_le_weak; exact Lo | apply Qnot_le_lt; assumption].
Qed.

Lemma Qlog2_unique q l : pow2 l <= q -> q < pow2 (l + 1) -> Qlog2 q = l.
Proof.
  intros H1 H2.
  assert (Hq : 0 < q) by (eapply Qlt_le_trans; [apply (pow2_pos l) | exact H1]).
  destruct (Qlog2_spec q Hq) as [S1 S2].
  assert (l < Qlog2 q + 1)%Z by (apply pow2_lt_inv; eapply Qle_lt_trans; eassumption).
  assert (Qlog2 q < l + 1)%Z by (apply pow2_lt_inv; eapply Qle_lt_trans; eassumption).
  lia.
Qed.

Lemma Qlog2_le x y : 0 < x -> x <= y -> (Qlog2 x <= Qlog2 y)%Z.
Proof.
  intros Hx Hxy.
  assert (Hy : 0 < y) by (eapply Qlt_le_trans; eassumption).
  destruct (Qlog2_spec x Hx) as [X1 _]. destruct (Qlog2_spec y Hy) as [_ Y2].
  assert (Qlog2 x < Qlog2 y + 1)%Z; [|lia].
  apply pow2_lt_inv. eapply Qle_lt_trans; [exact X1|]. eapply Qle_lt_trans; eassumption.
Qed.


#[export] Instance round_even_comp : Proper (Qeq ==> eq) round_even.
Proof.
  intros x y H. unfold round_even. rewrite (Qfloor_comp x y H).
  assert (E : Qcompare (x - inject_Z (Qfloor y)) (1#2) = Qcompare (y - inject_Z (Qfloor y)) (1#2))
    by (apply Qcompare_comp; [rewrite H|]; reflexivity).
  rewrite E. reflexivity.
Qed.

Lemma Qfloor_bounds x : inject_Z (Qfloor x) <= x /\ x < inject_Z (Qfloor x) + 1.
Proof.
  split; [apply Qfloor_le|].
  pose proof (Qlt_floor x) as H. rewrite inject_Z_plus in H. exact H.
Qed.

Lemma Qfloor_unique x z : inject_Z z <= x -> x < inject_Z z + 1 -> Qfloor x = z.
Proof.
  intros H1 H2. destruct (Qfloor_bounds x) as [F1 F2].
  assert (inject_Z z < inject_Z (Qfloor x + 1))
    by (rewrite inject_Z_plus; change (inject_Z 1) with 1; lra).
  assert (inject_Z (Qfloor x) < inject_Z (z + 1))
    by (rewrite inject_Z_plus; change (inject_Z 1) with 1; lra).
  rewrite <- Zlt_Qlt in *. lia.
Qed.

(* The three cases of rounding to the nearest integer, ties to even. *)
Lemma round_even_cases x :
  let f := Qfloor x in
  (x - inject_Z f < 1#2 /\ round_even x = f) \/
  (1#2 < x - inject_Z f /\ round_even x = (f + 1)%Z) \/
  (x - inject_Z f == 1#2 /\ round_even x = if Z.even f then f else (f + 1)%Z).
Proof.
  intros f. unfold round_even. fold f.
  destruct (Qcompare_spec (x - inject_Z f) (1#2)) as [E|L|G]; auto.
Qed.

Lemma round_even_Z z : round_even (inject_Z z) = z.
Proof.
  destruct (round_even_cases (inject_Z z)) as [[_ E]|[[H _]|[H _]]];
    rewrite Qfloor_Z in *; [exact E | lra | lra].
Qed.

Lemma round_even_floor x : (Qfloor x <= round_even x <= Qfloor x + 1)%Z.
Proof.
  destruct (round_even_cases x) as [[_ E]|[[_ E]|[_ E]]]; rewrite E;
    try destruct (Z.even _); lia.
Qed.

Lemma round_even_mono x y : x <= y -> (round_even x <= round_even y)%Z.
Proof.
  intros Hxy. pose proof (Qfloor_resp_le _ _ Hxy) as Hf.
  destruct (Z.eq_dec (Qfloor x) (Qfloor y)) as [E|NE].
  - destruct (round_even_cases x) as [[Hx Ex]|[[Hx Ex]|[Hx Ex]]];
    destruct (round_even_cases y) as [[Hy Ey]|[[Hy Ey]|[Hy Ey]]];
      rewrite Ex, Ey; rewrite <- E in *; try destruct (Z.even _); try lia; lra.
  - pose proof (round_even_floor x). pose proof (round_even_floor y). lia.
Qed.

Lemma round_even_ge x z : inject_Z z <= x -> (z <= round_even x)%Z.
Proof. intros H. rewrite <- (round_even_Z z). apply round_even_mono, H. Qed.

Lemma round_even_le x z : x <= inject_Z z -> (round_even x <= z)%Z.
Proof. intros H. rewrite <- (round_even_Z z). apply round_even_mono, H. Qed.

Lemma round_even_opp x : round_even (- x) = (- round_even x)%Z.
Proof.
  destruct (Qfloor_bounds x) as [F1 F2].
  destruct (Qeq_dec x (inject_Z (Qfloor x))) as [E|NE].
  - transitivity (round_even (inject_Z (- Qfloor x))).
    { apply round_even_comp. rewrite inject_Z_opp, <- E. reflexivity. }
    rewrite round_even_Z. f_equal. symmetry.
    transitivity (round_even (inject_Z (Qfloor x)));
      [apply round_even_comp; exact E | apply round_even_Z].
  - assert (Fo : Qfloor (- x) = (- Qfloor x - 1)%Z).
    { apply Qfloor_unique; unfold Zminus; rewrite inject_Z_plus, inject_Z_opp; simpl inject_Z.
      - change (inject_Z (-1)) with (-1). lra.
      - change (inject_Z (-1)) with (-1).
        assert (inject_Z (Qfloor x) < x).
        { apply Qle_lt_or_eq in F1. destruct F1 as [?|F1]; [assumption|].
          exfalso. apply NE. symmetry. exact F1. }
        lra. }
    assert (I : inject_Z (- Qfloor x - 1) == - inject_Z (Qfloor x) - 1).
    { unfold Zminus. rewrite inject_Z_plus, inject_Z_opp. reflexivity. }
    destruct (round_even_cases x) as [[Hx Ex]|[[Hx Ex]|[Hx Ex]]];
    destruct (round_even_cases (- x)) as [[Hy Ey]|[[Hy Ey]|[Hy Ey]]];
      rewrite Ex, Ey; rewrite Fo in *; rewrite I in Hy; try lra; try lia.
    replace (- Qfloor x - 1)%Z with (Z.pred (- Qfloor x)) by lia.
    rewrite Z.even_pred, Z.odd_opp, <- Z.negb_even.
    destruct (Z.even (Qfloor x)); simpl; lia.
Qed.


Lemma Qlog2_comp x y : 0 < x -> x == y -> Qlog2 x = Qlog2 y.
Proof.
  intros Hx E. destruct (Qlog2_spec x Hx) as [S1 S2].
  symmetry. apply Qlog2_unique; rewrite <- E; assumption.
Qed.

Lemma Qabs_pos_nz x : ~ x == 0 -> 0 < Qabs x.
Proof.
  intros H. pose proof (Qabs_nonneg x) as N.
  apply Qle_lt_or_eq in N. destruct N as [L|E]; [exact L|].
  exfalso. apply H. revert E. apply Qabs_case; intros; lra.
Qed.

Lemma fexp_ge_emin x : (emin <= fexp x)%Z.
Proof. unfold fexp. lia. Qed.

Lemma fexp_comp x y : ~ x == 0 -> x == y -> fexp x = fexp y.
Proof.
  intros Hx E. unfold fexp. f_equal. f_equal.
  apply Qlog2_comp; [apply Qabs_pos_nz, Hx | rewrite E; reflexivity].
Qed.

Lemma fexp_opp x : fexp (- x) = fexp x.
Proof.
  destruct x as [n d]. unfold fexp, Qabs, Qopp. cbn [Qnum Qden].
  rewrite Z.abs_opp. reflexivity.
Qed.

Lemma fexp_upper x : ~ x == 0 -> Qabs x < pow2 (fexp x + 53).
Proof.
  intros Hx. destruct (Qlog2_spec _ (Qabs_pos_nz x Hx)) as [_ S].
  eapply Qlt_le_trans; [exact S|]. apply pow2_le. unfold fexp. lia.
Qed.

Lemma fexp_lower x : ~ x == 0 -> (emin < fexp x)%Z -> pow2 (fexp x + 52) <= Qabs x.
Proof.
  intros Hx He. destruct (Qlog2_spec _ (Qabs_pos_nz x Hx)) as [S _].
  eapply Qle_trans; [|exact S]. apply pow2_le. unfold fexp in *. lia.
Qed.

Lemma fexp_le x y : ~ x == 0 -> Qabs x <= Qabs y -> (fexp x <= fexp y)%Z.
Proof.
  intros Hx H. unfold fexp.
  pose proof (Qlog2_le _ _ (Qabs_pos_nz x Hx) H). lia.
Qed.

Lemma rnd64_nz x :
  ~ x == 0 -> rnd64 x == inject_Z (round_even (x / pow2 (fexp x))) * pow2 (fexp x).
Proof.
  intros Hx. unfold rnd64.
  destruct (Qeq_bool x 0) eqn:B; [apply Qeq_bool_iff in B; contradiction|].
  apply Qred_correct.
Qed.

Lemma rnd64_zero x : x == 0 -> rnd64 x == 0.
Proof.
  intros Hx. unfold rnd64. apply Qeq_bool_iff in Hx. rewrite Hx. reflexivity.
Qed.

#[export] Instance rnd64_comp : Proper (Qeq ==> Qeq) rnd64.
Proof.
  intros x y E. destruct (Qeq_dec x 0) as [Z|NZ].
  - rewrite (rnd64_zero x Z), (rnd64_zero y) by (rewrite <- E; exact Z). reflexivity.
  - assert (NZ' : ~ y == 0) by (rewrite <- E; exact NZ).
    rewrite (rnd64_nz x NZ), (rnd64_nz y NZ'), (fexp_comp x y NZ E).
    assert (R : round_even (x / pow2 (fexp y)) = round_even (y / pow2 (fexp y)))
      by (apply round_even_comp; rewrite E; reflexivity).
    rewrite R. reflexivity.
Qed.

Lemma rnd64_opp x : rnd64 (- x) == - rnd64 x.
Proof.
  destruct (Qeq_dec x 0) as [Z|NZ].
  - rewrite (rnd64_zero x Z), (rnd64_zero (- x)) by (rewrite Z; reflexivity). reflexivity.
  - assert (NZ' : ~ - x == 0) by (intros H; apply NZ; lra).
    rewrite (rnd64_nz x NZ), (rnd64_nz _ NZ'), fexp_opp.
    assert (R : round_even (- x / pow2 (fexp x)) = (- round_even (x / pow2 (fexp x)))%Z).
    { rewrite <- round_even_opp. apply round_even_comp.
      unfold Qdiv. ring. }
    rewrite R, inject_Z_opp. ring.
Qed.

(* Scaled mantissa of a positive number. *)
Lemma scaled_bounds x :
  0 < x ->
  x / pow2 (fexp x) < inject_Z (2 ^ 53) /\
  ((emin < fexp x)%Z -> inject_Z (2 ^ 52) <= x / pow2 (fexp x)).
Proof.
  intros Hx. assert (NZ : ~ x == 0) by lra.
  pose proof (pow2_pos (fexp x)) as P.
  assert (A : Qabs x == x) by (apply Qabs_pos; lra).
  split.
  - apply Qlt_shift_div_r; [exact P|].
    pose proof (fexp_upper x NZ) as U. rewrite A in U.
    rewrite Z.add_comm, pow2_add, (pow2_Z 53) in U by lia. exact U.
  - intros He. apply Qle_shift_div_l; [exact P|].
    pose proof (fexp_lower x NZ He) as L. rewrite A in L.
    rewrite Z.add_comm, pow2_add, (pow2_Z 52) in L by lia. exact L.
Qed.

Lemma rnd64_pos_bounds x :
  0 < x ->
  0 <= rnd64 x /\ rnd64 x <= pow2 (fexp x + 53) /\
  ((emin < fexp x)%Z -> pow2 (fexp x + 52) <= rnd64 x).
Proof.
  intros Hx. assert (NZ : ~ x == 0) by lra.
  pose proof (pow2_pos (fexp x)) as P.
  destruct (scaled_bounds x Hx) as [U L].
  rewrite (rnd64_nz x NZ).
  set (m := round_even (x / pow2 (fexp x))).
  assert (M0 : (0 <= m)%Z).
  { apply round_even_ge. apply Qle_shift_div_l; [exact P|].
    change (inject_Z 0) with 0. lra. }
  assert (M1 : (m <= 2 ^ 53)%Z) by (apply round_even_le; lra).
  rewrite Zle_Qle in M0, M1. change (inject_Z 0) with 0 in M0.
  split; [|split].
  - apply Qmult_le_0_compat; lra.
  - rewrite Z.add_comm, pow2_add, (pow2_Z 53) by lia.
    apply Qmult_le_compat_r; lra.
  - intros He. specialize (L He).
    assert (M2 : (2 ^ 52 <= m)%Z) by (apply round_even_ge; exact L).
    rewrite Zle_Qle in M2.
    rewrite Z.add_comm, pow2_add, (pow2_Z 52) by lia.
    apply Qmult_le_compat_r; lra.
Qed.

Lemma rnd64_mono_pos x y : 0 < x -> x <= y -> rnd64 x <= rnd64 y.
Proof.
  intros Hx Hxy. assert (Hy : 0 < y) by lra.
  assert (NZx : ~ x == 0) by lra. assert (NZy : ~ y == 0) by lra.
  assert (Ax : Qabs x == x) by (apply Qabs_pos; lra).
  assert (Ay : Qabs y == y) by (apply Qabs_pos; lra).
  assert (Le : (fexp x <= fexp y)%Z) by (apply fexp_le; [exact NZx | rewrite Ax, Ay; exact Hxy]).
  destruct (Z.eq_dec (fexp x) (fexp y)) as [E|NE].
  - rewrite (rnd64_nz x NZx), (rnd64_nz y NZy), E.
    pose proof (pow2_pos (fexp y)) as P.
    apply Qmult_le_compat_r; [|lra].
    rewrite <- Zle_Qle. apply round_even_mono.
    apply Qmult_le_compat_r; [exact Hxy|]. apply Qlt_le_weak, Qinv_lt_0_compat, P.
  - destruct (rnd64_pos_bounds x Hx) as (_ & U & _).
    destruct (rnd64_pos_bounds y Hy) as (_ & _ & L).
    pose proof (fexp_ge_emin x).
    eapply Qle_trans; [exact U|]. eapply Qle_trans; [|apply L; lia].
    apply pow2_le. lia.
Qed.

Lemma rnd64_mono x y : x <= y -> rnd64 x <= rnd64 y.
Proof.
  intros Hxy.
  destruct (Qlt_le_dec 0 x) as [Px|Nx].
  - apply rnd64_mono_pos; assumption.
  - destruct (Qlt_le_dec 0 y) as [Py|Ny].
    + (* x <= 0 < y *)
      destruct (rnd64_pos_bounds y Py) as (Y0 & _).
      eapply Qle_trans; [|exact Y0].
      destruct (Qeq_dec x 0) as [Z|NZ]; [rewrite (rnd64_zero x Z); lra|].
      assert (Px : 0 < - x) by lra.
      destruct (rnd64_pos_bounds _ Px) as (X0 & _). rewrite rnd64_opp in X0. lra.
    + (* x <= y <= 0 *)
      destruct (Qeq_dec y 0) as [Zy|NZy].
      * rewrite (rnd64_zero y Zy).
        destruct (Qeq_dec x 0) as [Z|NZ]; [rewrite (rnd64_zero x Z); lra|].
        assert (Px : 0 < - x) by lra.
        destruct (rnd64_pos_bounds _ Px) as (X0 & _). rewrite rnd64_opp in X0. lra.
      * assert (Py : 0 < - y) by lra.
        assert (H : rnd64 (- y) <= rnd64 (- x)) by (apply rnd64_mono_pos; lra).
        rewrite !rnd64_opp in H. lra.
Qed.

Lemma rnd64_fix_pos m e :
  (0 < m < 2 ^ 53)%Z -> (emin <= e)%Z ->
  rnd64 (inject_Z m * pow2 e) == inject_Z m * pow2 e.
Proof.
  intros Hm He. set (x := inject_Z m * pow2 e).
  pose proof (pow2_pos e) as Pe.
  assert (M0 : 0 < inject_Z m) by (change 0 with (inject_Z 0); rewrite <- Zlt_Qlt; lia).
  assert (M1 : inject_Z m < inject_Z (2 ^ 53)) by (rewrite <- Zlt_Qlt; lia).
  assert (Hx : 0 < x) by (apply Qmult_lt_0_compat; assumption).
  assert (NZ : ~ x == 0) by lra.
  assert (Ax : Qabs x == x) by (apply Qabs_pos; lra).
  assert (Fe : (fexp x <= e)%Z).
  { destruct (Qlog2_spec _ (Qabs_pos_nz x NZ)) as [S0 _].
    assert (S : pow2 (Qlog2 (Qabs x)) <= x)
      by (eapply Qle_trans; [exact S0 | rewrite Ax; apply Qle_refl]).
    assert (U : x < pow2 (53 + e)).
    { rewrite pow2_add, (pow2_Z 53) by lia. unfold x. apply Qmult_lt_compat_r; assumption. }
    assert (Qlog2 (Qabs x) < 53 + e)%Z by (apply pow2_lt_inv; lra).
    unfold fexp. lia. }
  rewrite (rnd64_nz x NZ).
  set (f := fexp x) in *.
  assert (S : x / pow2 f == inject_Z (m * 2 ^ (e - f))).
  { rewrite inject_Z_mult, <- pow2_Z by lia. rewrite pow2_sub. unfold x, Qdiv. ring. }
  rewrite (round_even_comp _ _ S), round_even_Z.
  rewrite inject_Z_mult, <- pow2_Z by lia. rewrite pow2_sub. unfold x.
  field. pose proof (pow2_pos f). lra.
Qed.

Lemma rnd64_fix m e :
  (Z.abs m <= 2 ^ 53)%Z -> (emin <= e)%Z ->
  rnd64 (inject_Z m * pow2 e) == inject_Z m * pow2 e.
Proof.
  assert (P : forall m e, (0 < m <= 2 ^ 53)%Z -> (emin <= e)%Z ->
               rnd64 (inject_Z m * pow2 e) == inject_Z m * pow2 e).
  { clear. intros m e Hm He. destruct (Z.eq_dec m (2 ^ 53)) as [->|NE].
    - assert (E : inject_Z (2 ^ 53) * pow2 e == inject_Z (2 ^ 52) * pow2 (e + 1))
        by (rewrite pow2_succ; change (inject_Z (2 ^ 53)) with (2 * inject_Z (2 ^ 52)); ring).
      rewrite E. apply rnd64_fix_pos; lia.
    - apply rnd64_fix_pos; lia. }
  intros Hm He. destruct (Z.lt_trichotomy m 0) as [N|[->|Pm]].
  - assert (E : inject_Z m * pow2 e == - (inject_Z (- m) * pow2 e))
      by (rewrite inject_Z_opp; ring).
    rewrite E, rnd64_opp, P by lia. reflexivity.
  - assert (E : inject_Z 0 * pow2 e == 0) by (change (inject_Z 0) with 0; ring).
    rewrite E. reflexivity.
  - apply P; lia.
Qed.

Lemma rnd64_repr x :
  exists m e, (Z.abs m <= 2 ^ 53)%Z /\ (emin <= e)%Z /\ rnd64 x == inject_Z m * pow2 e.
Proof.
  destruct (Qeq_dec x 0) as [Z|NZ].
  - exists 0%Z, emin. rewrite (rnd64_zero x Z).
    split; [simpl; lia | split; [lia | change (inject_Z 0) with 0; ring]].
  - exists (round_even (x / pow2 (fexp x))), (fexp x).
    split; [|split; [apply fexp_ge_emin | apply rnd64_nz, NZ]].
    pose proof (fexp_upper x NZ) as U. pose proof (pow2_pos (fexp x)) as P.
    rewrite Z.add_comm, pow2_add, (pow2_Z 53) in U by lia.
    assert (A : - (inject_Z (2 ^ 53) * pow2 (fexp x)) < x /\ x < inject_Z (2 ^ 53) * pow2 (fexp x)).
    { revert U. apply Qabs_case; intros; split; lra. }
    destruct A as [A1 A2].
    assert (B1 : inject_Z (- 2 ^ 53) <= x / pow2 (fexp x)).
    { apply Qle_shift_div_l; [exact P|]. rewrite inject_Z_opp. lra. }
    assert (B2 : x / pow2 (fexp x) <= inject_Z (2 ^ 53)).
    { apply Qle_shift_div_r; [exact P|]. lra. }
    apply round_even_ge in B1. apply round_even_le in B2. lia.
Qed.

Lemma rnd64_idem x : rnd64 (rnd64 x) == rnd64 x.
Proof.
  destruct (rnd64_repr x) as (m & e & Hm & He & E).
  rewrite E. apply rnd64_fix; assumption.
Qed.

Lemma rnd64_double x : rnd64 (2 * rnd64 x) == 2 * rnd64 x.
Proof.
  destruct (rnd64_repr x) as (m & e & Hm & He & E).
  assert (E2 : 2 * rnd64 x == inject_Z m * pow2 (e + 1)) by (rewrite E, pow2_succ; ring).
  rewrite E2. apply rnd64_fix; [assumption | lia].
Qed.

Lemma rnd64_Z z : (Z.abs z <= 2 ^ 53)%Z -> rnd64 (inject_Z z) == inject_Z z.
Proof.
  intros H. assert (E : inject_Z z == inject_Z z * pow2 0) by (change (pow2 0) with 1; ring).
  rewrite E at 1. rewrite rnd64_fix by (unfold emin; lia). symmetry; exact E.
Qed.

(** ** The two roundings *)

#[export] Instance rnd64_Rounding : Rounding rnd64.
Proof.
  constructor.
  - exact rnd64_mono.
  - exact rnd64_idem.
  - apply rnd64_zero. reflexivity.
  - apply (rnd64_Z 1). simpl. lia.
  - exact rnd64_double.
Qed.

#[export] Instance rnd_exact_Rounding : Rounding rnd_exact.
Proof.
  constructor; unfold rnd_exact; intros; solve [assumption | reflexivity].
Qed.

(** ** [rnd64] against the kernel's binary64

    The operations of the kernel's primitive floats, which run on the
    hardware, and their parsing of decimal literals give the same numbers
    as [rnd64] of the exact results. *)

Module Hardware.
Import Floats.
#[local] Set Warnings "-inexact-float".

Definition of_Z (z : Z) : float := of_uint63 (Uint63.of_Z z).

(** The float [f] denotes the rational [q]. *)
Definition same (f : float) (q : Q) : bool :=
  match SF2Q (Prim2SF f) with
  | Some q' => Qeq_bool q' q
  | None => false
  end.

(** The float of [i] hundredths, as the quotient of two small integers. *)
Definition hundredth (i : Z) : float := (of_Z i / of_Z 100)%float.

Definition zrange (n : nat) : list Z := map Z.of_nat (seq 0 n).

(** The four operations of the hardware on the floats of [i] and [j]
    hundredths, and the quotient of the integers [i] and [j], against
    [rnd64] of the exact results. *)
Definition agree (i j : Z) : bool :=
  same (hundredth i) (lit (i # 100))
  && same (hundredth i + hundredth j)%float (rnd64 (lit (i # 100) + lit (j # 100)))
  && same (hundredth i - hundredth j)%float (rnd64 (lit (i # 100) - lit (j # 100)))
  && same (hundredth i * hundredth j)%float (rnd64 (lit (i # 100) * lit (j # 100)))
  && ((j =? 0)%Z || same (of_Z i / of_Z j)%float (rnd64 (i # Z.to_pos j))).

Example hardware_agrees :
  forallb (fun i => forallb (agree i) (zrange 21)) (zrange 101) = true.
Proof. vm_compute. reflexivity. Qed.

Example div_1_3 : SF2Q (Prim2SF (1 / 3)) = Some (rnd64 (1 # 3)).
Proof. vm_compute. reflexivity. Qed.

Example div_2_3 : SF2Q (Prim2SF (2 / 3)) = Some (rnd64 (2 # 3)).
Proof. vm_compute. reflexivity. Qed.

Example sub_1_third : SF2Q (Prim2SF (1 - 1 / 3)) = Some (rnd64 (1 - rnd64 (1 # 3))).
Proof. vm_compute. reflexivity. Qed.

Example literal_0_05 : SF2Q (Prim2SF 0.05) = Some (lit (5 # 100)).
Proof. vm_compute. reflexivity. Qed.

Example literal_0_004 : SF2Q (Prim2SF 0.004) = Some (lit (4 # 1000)).
Proof. vm_compute. reflexivity. Qed.

Example literal_1e_30 : SF2Q (Prim2SF 1e-30) = Some (lit (1 # 10 ^ 30)).
Proof. vm_compute. reflexivity. Qed.

Example sub_absorbed :
  SF2Q (Prim2SF (0.5 - 1e-30)) = Some (rnd64 (lit (5 # 10) - lit (1 # 10 ^ 30))).
Proof. vm_compute. reflexivity. Qed.

Example mul_0_004_100 :
  SF2Q (Prim2SF (0.004 * 100)) = Some (rnd64 (lit (4 # 1000) * 100)).
Proof. vm_compute. reflexivity. Qed.

Example add_0_1_0_2 :
  SF2Q (Prim2SF (0.1 + 0.2)) = Some (rnd64 (lit (1 # 10) + lit (2 # 10))).
Proof. vm_compute. reflexivity. Qed.

Example subnormal_literal : SF2Q (Prim2SF 1e-320) = Some (lit (1 # 10 ^ 320)).
Proof. vm_compute. reflexivity. Qed.

End Hardware.

(** * Part III: the claims *)

(** ** Lists and results *)

Lemma mapM_Ok_Forall2 {A B : Type} (f : A -> result B) l ys :
  mapM f l = Ok ys -> Forall2 (fun x y => f x = Ok y) l ys.
Proof.
  revert ys. induction l as [|x l IH]; intros ys H; simpl in H.
  - injection H as <-. constructor.
  - destruct (f x) as [y|] eqn:Fx; [|discriminate]. simpl in H.
    destruct (mapM f l) as [ys'|]; [|discriminate]. simpl in H.
    injection H as <-. constructor; [exact Fx | apply IH; reflexivity].
Qed.

Lemma mapM_total {A B : Type} (f : A -> result B) l :
  (forall x, In x l -> exists y, f x = Ok y) -> exists ys, mapM f l = Ok ys.
Proof.
  induction l as [|x l IH]; intros H; simpl.
  - eexists; reflexivity.
  - destruct (H x (or_introl eq_refl)) as [y ->].
    destruct IH as [ys ->]; [intros; apply H; right; assumption|].
    eexists; reflexivity.
Qed.

Lemma Forall2_In_r {A B : Type} (P : A -> B -> Prop) l l' y :
  Forall2 P l l' -> In y l' -> exists x, In x l /\ P x y.
Proof.
  induction 1 as [|a b l l' Pab _ IH]; intros I; [contradiction|].
  destruct I as [<-|I].
  - exists a. split; [left; reflexivity | exact Pab].
  - destruct (IH I) as (x & Hx & Px). exists x. split; [right; exact Hx | exact Px].
Qed.

Lemma Forall2_nth_r {A B : Type} (P : A -> B -> Prop) l l' i y :
  Forall2 P l l' -> nth_error l' i = Some y -> exists x, nth_error l i = Some x /\ P x y.
Proof.
  intros F. revert i.
  induction F as [|a b l l' Pab _ IH]; intros [|i] H; simpl in *; try discriminate.
  - injection H as <-. exists a. split; [reflexivity | exact Pab].
  - apply IH, H.
Qed.

Section Generic.

Variable rnd : Q -> Q.
Context {RND : Rounding rnd}.

(** ** Consequences of the laws of a rounding *)

Lemma rnd_comp x y : x == y -> rnd x == rnd y.
Proof.
  intros E. apply Qle_antisym; apply rnd_mono; rewrite E; apply Qle_refl.
Qed.

#[export] Instance rnd_Proper : Proper (Qeq ==> Qeq) rnd.
Proof. intros x y E. apply rnd_comp, E. Qed.

Lemma rnd_unit_interval x : 0 <= x <= 1 -> 0 <= rnd x <= 1.
Proof.
  intros [H0 H1]. split.
  - rewrite <- rnd_0. apply rnd_mono, H0.
  - rewrite <- rnd_1. apply rnd_mono, H1.
Qed.

Lemma rnd_nonneg x : 0 <= x -> 0 <= rnd x.
Proof. intros H. rewrite <- rnd_0. apply rnd_mono, H. Qed.

Lemma is_result_is_float x : is_result rnd x -> is_float rnd x.
Proof.
  intros [y E]. unfold is_float. rewrite (rnd_comp x (rnd y) E), rnd_idem.
  symmetry. exact E.
Qed.

Lemma ratio_unit_interval a b :
  (0 <= a)%Z -> (a <= b)%Z -> (0 < b)%Z -> 0 <= inject_Z a / inject_Z b <= 1.
Proof.
  intros Ha Hab Hb.
  assert (Qb : 0 < inject_Z b) by (change 0 with (inject_Z 0); rewrite <- Zlt_Qlt; exact Hb).
  assert (Qa : 0 <= inject_Z a) by (change 0 with (inject_Z 0); rewrite <- Zle_Qle; exact Ha).
  assert (Qab : inject_Z a <= inject_Z b) by (rewrite <- Zle_Qle; exact Hab).
  split.
  - apply Qle_shift_div_l; [exact Qb | lra].
  - apply Qle_shift_div_r; [exact Qb | lra].
Qed.

Lemma int_truediv_unit_interval a b :
  (0 <= a)%Z -> (a <= b)%Z -> (0 < b)%Z -> 0 <= int_truediv rnd a b <= 1.
Proof. intros. apply rnd_unit_interval, ratio_unit_interval; assumption. Qed.

Lemma int_truediv_mono a a' b :
  (a <= a')%Z -> (0 < b)%Z -> int_truediv rnd a b <= int_truediv rnd a' b.
Proof.
  intros Ha Hb. unfold int_truediv. apply rnd_mono.
  assert (Qb : 0 < inject_Z b) by (change 0 with (inject_Z 0); rewrite <- Zlt_Qlt; exact Hb).
  apply Qmult_le_compat_r; [rewrite <- Zle_Qle; exact Ha|].
  apply Qlt_le_weak, Qinv_lt_0_compat, Qb.
Qed.

Lemma fmul_2_result x : is_result rnd x -> fmul rnd 2 x == 2 * x.
Proof.
  intros [y E]. unfold fmul.
  rewrite (rnd_comp (2 * x) (2 * rnd y)) by (rewrite E; reflexivity).
  rewrite rnd_double, E. reflexivity.
Qed.

Lemma f1_unit_interval p r :
  is_result rnd p -> 0 <= p <= 1 -> 0 <= r <= 1 ->
  ~ fadd rnd p r == 0 ->
  0 <= fdiv rnd (fmul rnd (fmul rnd 2 p) r) (fadd rnd p r) <= 1.
Proof.
  intros Rp Hp Hr NZ. unfold fdiv.
  assert (D0 : 0 <= fadd rnd p r) by (apply rnd_nonneg; lra).
  assert (D : 0 < fadd rnd p r).
  { apply Qle_lt_or_eq in D0. destruct D0 as [L|E]; [exact L|].
    exfalso. apply NZ. symmetry. exact E. }
  assert (E2 : fmul rnd 2 p * r == 2 * p * r) by (rewrite (fmul_2_result p Rp); reflexivity).
  assert (N0 : 0 <= fmul rnd (fmul rnd 2 p) r).
  { unfold fmul at 1. apply rnd_nonneg. rewrite E2. nra. }
  assert (ND : fmul rnd (fmul rnd 2 p) r <= fadd rnd p r).
  { unfold fmul at 1. unfold fadd. apply rnd_mono. rewrite E2. nra. }
  apply rnd_unit_interval. split.
  - apply Qle_shift_div_l; [exact D | lra].
  - apply Qle_shift_div_r; [exact D | lra].
Qed.

(** ** The metrics evaluator *)

Lemma np_sum_nonneg a : (0 <= np_sum a)%Z.
Proof. unfold np_sum. induction a as [|[] a IH]; cbn [fold_right]; lia. Qed.

Lemma np_and_same_length a b :
  List.length a = List.length b ->
  np_and a b = Ok (map (fun p : bool * bool => fst p && snd p) (combine a b)).
Proof. intros E. unfold np_and. rewrite E, Nat.eqb_refl. reflexivity. Qed.

Lemma count_pairs_nonneg y_pred y_true p l n :
  count_pairs y_pred y_true p l = Ok n -> (0 <= n)%Z.
Proof.
  unfold count_pairs. destruct (np_and _ _); simpl; [|discriminate].
  intros E. injection E as <-. apply np_sum_nonneg.
Qed.

Lemma y_pred_of_length y_score t : List.length (y_pred_of y_score t) = List.length y_score.
Proof. unfold y_pred_of, astype_int, np_ge. rewrite !length_map. reflexivity. Qed.

Lemma count_pairs_cases y_score y_true t p l :
  List.length y_true = List.length y_score ->
  count_pairs (y_pred_of y_score t) y_true p l =
  Ok (count_cases (fun s y => ((if Qle_bool t s then 1 else 0) =? p)%Z && (y =? l)%Z)
        y_score y_true).
Proof.
  intros E. unfold count_pairs.
  rewrite np_and_same_length
    by (unfold np_eq; rewrite !length_map, y_pred_of_length; symmetry; exact E).
  simpl. f_equal. unfold count_cases, y_pred_of, astype_int, np_ge, np_eq.
  clear E. revert y_true.
  induction y_score as [|s y_score IH]; intros [|y y_true]; try reflexivity.
  cbn [map combine np_sum fold_right filter fst snd].
  specialize (IH y_true). unfold np_sum in IH. rewrite IH.
  destruct (_ && _); cbn [List.length]; lia.
Qed.

Lemma count_cases_le f g y_score y_true :
  (forall s y, f s y = true -> g s y = true) ->
  (count_cases f y_score y_true <= count_cases g y_score y_true)%Z.
Proof.
  intros H. unfold count_cases. apply inj_le.
  induction (combine y_score y_true) as [|c l IH]; simpl; [lia|].
  destruct (f (fst c) (snd c)) eqn:F.
  - rewrite (H _ _ F). simpl. lia.
  - destruct (g (fst c) (snd c)); simpl; lia.
Qed.

Lemma count_cases_split f g h y_score y_true :
  (forall s y, h s y = f s y || g s y) ->
  (forall s y, f s y && g s y = false) ->
  (count_cases f y_score y_true + count_cases g y_score y_true
   = count_cases h y_score y_true)%Z.
Proof.
  intros Hh Hd. unfold count_cases. rewrite <- Nat2Z.inj_add. f_equal.
  induction (combine y_score y_true) as [|c l IH]; simpl; [reflexivity|].
  rewrite Hh. specialize (Hd (fst c) (snd c)).
  destruct (f (fst c) (snd c)), (g (fst c) (snd c)); simpl in *; try discriminate; lia.
Qed.

Lemma count_cases_label y_score y_true :
  List.length y_true = List.length y_score ->
  count_cases (fun _ y => (y =? 1)%Z) y_score y_true = positives y_true.
Proof.
  intros E. unfold count_cases, positives. apply f_equal. revert y_true E.
  induction y_score as [|s y_score IH]; intros [|y y_true] E; try discriminate; [reflexivity|].
  simpl in *. injection E as E. specialize (IH _ E).
  destruct (y =? 1)%Z; simpl; rewrite IH; reflexivity.
Qed.

Lemma count_cases_all y_score y_true :
  List.length y_true = List.length y_score ->
  count_cases (fun _ _ => true) y_score y_true = Z.of_nat (List.length y_true).
Proof.
  intros E. unfold count_cases. apply f_equal. revert y_true E.
  induction y_score as [|s y_score IH]; intros [|y y_true] E; try discriminate; [reflexivity|].
  simpl in *. injection E as E. rewrite (IH _ E). reflexivity.
Qed.

Lemma count_cases_ext_in f g y_score y_true :
  (forall s y, In y y_true -> f s y = g s y) ->
  count_cases f y_score y_true = count_cases g y_score y_true.
Proof.
  intros H. unfold count_cases. f_equal. f_equal.
  apply filter_ext_in. intros [s y] I. apply H. simpl.
  eapply in_combine_r. exact I.
Qed.

Lemma metrics_at_threshold_inv y_true y_score t m :
  metrics_at_threshold rnd y_true y_score t = Ok m ->
  Row.t m = t /\
  (0 <= Row.tp m)%Z /\ (0 <= Row.fp m)%Z /\ (0 <= Row.tn m)%Z /\ (0 <= Row.fn m)%Z /\
  ratios_ok rnd m.
Proof.
  unfold metrics_at_threshold.
  destruct (count_pairs _ y_true 1 1) as [tp|] eqn:Etp; [|discriminate].
  destruct (count_pairs _ y_true 1 0) as [fp|] eqn:Efp; [|discriminate].
  destruct (count_pairs _ y_true 0 0) as [tn|] eqn:Etn; [|discriminate].
  destruct (count_pairs _ y_true 0 1) as [fn|] eqn:Efn; [|discriminate].
  cbn [bind]. intros E. injection E as <-.
  apply count_pairs_nonneg in Etp, Efp, Etn, Efn.
  unfold ratios_ok.
  cbn [Row.t Row.tp Row.fp Row.tn Row.fn Row.precision Row.recall Row.fnr Row.fpr Row.f1].
  repeat split; assumption.
Qed.

Lemma metrics_at_threshold_counts y_true y_score t :
  List.length y_true = List.length y_score ->
  exists m, metrics_at_threshold rnd y_true y_score t = Ok m /\
    Row.tp m = tp_of y_score y_true t /\ Row.fp m = fp_of y_score y_true t /\
    Row.tn m = tn_of y_score y_true t /\ Row.fn m = fn_of y_score y_true t.
Proof.
  intros E. unfold metrics_at_threshold.
  rewrite !(count_pairs_cases _ _ _ _ _ E). cbn [bind].
  eexists. split; [reflexivity|].
  cbn [Row.tp Row.fp Row.tn Row.fn].
  unfold tp_of, fp_of, tn_of, fn_of.
  repeat split; apply count_cases_ext_in; intros s y _;
    destruct (Qle_bool t s); reflexivity.
Qed.

Lemma tp_fn_positives y_score y_true t :
  List.length y_true = List.length y_score ->
  (tp_of y_score y_true t + fn_of y_score y_true t = positives y_true)%Z.
Proof.
  intros E. rewrite <- (count_cases_label y_score y_true E).
  apply count_cases_split; intros s y; destruct (Qle_bool t s), (y =? 1)%Z; reflexivity.
Qed.

Lemma y_pred_of_nth y_score t i s :
  nth_error y_score i = Some s ->
  nth_error (y_pred_of y_score t) i = Some (if Qle_bool t s then 1%Z else 0%Z).
Proof.
  intros H. unfold y_pred_of, astype_int, np_ge.
  rewrite !nth_error_map, H. reflexivity.
Qed.

(** C6.  On labels and scores of equal length, with labels in {0, 1}, the
    evaluator returns a row; a case is predicted positive exactly when
    [score >= t] (a case at the threshold is positive), the four counts are
    the numbers of cases in the four cells, and they add up to the number of
    cases. *)
Theorem metrics_at_threshold_partition y_true y_score t :
  List.length y_true = List.length y_score ->
  binary_labels y_true ->
  exists m,
    metrics_at_threshold rnd y_true y_score t = Ok m /\
    (forall i s, nth_error y_score i = Some s ->
       (t <= s -> nth_error (y_pred_of y_score t) i = Some 1%Z) /\
       (s < t -> nth_error (y_pred_of y_score t) i = Some 0%Z)) /\
    Row.tp m = tp_of y_score y_true t /\
    Row.fp m = fp_of y_score y_true t /\
    Row.tn m = tn_of y_score y_true t /\
    Row.fn m = fn_of y_score y_true t /\
    (Row.tp m + Row.fp m + Row.tn m + Row.fn m = Z.of_nat (List.length y_true))%Z.
Proof.
  intros E B.
  destruct (metrics_at_threshold_counts y_true y_score t E) as (m & Hm & Htp & Hfp & Htn & Hfn).
  exists m. split; [exact Hm|]. split.
  { intros i s Hs. rewrite (y_pred_of_nth _ t _ _ Hs). split; intros H.
    - apply Qle_bool_iff in H. rewrite H. reflexivity.
    - destruct (Qle_bool t s) eqn:Q; [|reflexivity].
      apply Qle_bool_iff in Q. exfalso. apply (Qlt_not_le _ _ H Q). }
  repeat (split; [assumption|]).
  rewrite Htp, Hfp, Htn, Hfn.
  rewrite <- (count_cases_all y_score y_true E).
  rewrite (count_cases_ext_in (fun _ _ => true) (fun _ y => (y =? 1)%Z || (y =? 0)%Z)).
  2:{ intros s y I. unfold binary_labels in B. rewrite Forall_forall in B.
      destruct (B y I) as [-> | ->]; reflexivity. }
  rewrite <- (count_cases_split (fun _ y => (y =? 1)%Z) (fun _ y => (y =? 0)%Z)
                (fun _ y => (y =? 1)%Z || (y =? 0)%Z) y_score y_true).
  2:{ reflexivity. }
  2:{ intros s y. destruct (Z.eqb_spec y 1) as [->|]; reflexivity. }
  rewrite <- (count_cases_split (fun s y => Qle_bool t s && (y =? 1)%Z)
                (fun s y => negb (Qle_bool t s) && (y =? 1)%Z)
                (fun _ y => (y =? 1)%Z) y_score y_true).
  2:{ intros s y. destruct (Qle_bool t s), (y =? 1)%Z; reflexivity. }
  2:{ intros s y. destruct (Qle_bool t s), (y =? 1)%Z; reflexivity. }
  rewrite <- (count_cases_split (fun s y => Qle_bool t s && (y =? 0)%Z)
                (fun s y => negb (Qle_bool t s) && (y =? 0)%Z)
                (fun _ y => (y =? 0)%Z) y_score y_true).
  2:{ intros s y. destruct (Qle_bool t s), (y =? 0)%Z; reflexivity. }
  2:{ intros s y. destruct (Qle_bool t s), (y =? 0)%Z; reflexivity. }
  unfold tp_of, fp_of, tn_of, fn_of. lia.
Qed.

Lemma guarded_ratio_bounds a b :
  (0 <= a)%Z -> (a <= b)%Z ->
  0 <= (if (b =? 0)%Z then 0 else int_truediv rnd a b) <= 1 /\
  is_result rnd (if (b =? 0)%Z then 0 else int_truediv rnd a b).
Proof.
  intros Ha Hab. destruct (Z.eqb_spec b 0) as [E|NE].
  - split; [lra|]. exists 0. symmetry. apply rnd_0.
  - split; [apply int_truediv_unit_interval; lia|].
    eexists. unfold int_truediv. reflexivity.
Qed.

(** C5, as the code has it.  Every ratio of a row lies in [0, 1]; a ratio
    whose denominator is zero is 0; and when [tp + fn > 0] the recall is the
    rounded [tp / (tp + fn)] and [fnr] is the rounded [fn / (tp + fn)], that
    is the rounding of one minus the exact quotient [tp / (tp + fn)] (not of
    one minus the rounded recall). *)
Theorem metrics_at_threshold_ratios y_true y_score t m :
  metrics_at_threshold rnd y_true y_score t = Ok m ->
  (0 <= Row.precision m <= 1) /\
  (0 <= Row.recall m <= 1) /\
  (0 <= Row.fpr m <= 1) /\
  (0 <= Row.fnr m <= 1) /\
  (0 <= Row.f1 m <= 1) /\
  ((Row.tp m + Row.fp m = 0)%Z -> Row.precision m = 0) /\
  ((Row.tp m + Row.fn m = 0)%Z -> Row.recall m = 0 /\ Row.fnr m = 0) /\
  ((Row.fp m + Row.tn m = 0)%Z -> Row.fpr m = 0) /\
  (fadd rnd (Row.precision m) (Row.recall m) == 0 -> Row.f1 m = 0) /\
  ((0 < Row.tp m + Row.fn m)%Z ->
     Row.recall m = rnd (inject_Z (Row.tp m) / inject_Z (Row.tp m + Row.fn m)) /\
     Row.fnr m = rnd (inject_Z (Row.fn m) / inject_Z (Row.tp m + Row.fn m)) /\
     Row.fnr m == rnd (1 - inject_Z (Row.tp m) / inject_Z (Row.tp m + Row.fn m))).
Proof.
  intros H. destruct (metrics_at_threshold_inv _ _ _ _ H) as (_ & Htp & Hfp & Htn & Hfn & Hr).
  destruct Hr as (Ep & Er & En & Ef & E1).
  destruct (guarded_ratio_bounds (Row.tp m) (Row.tp m + Row.fp m)) as [Bp Rp]; try lia.
  destruct (guarded_ratio_bounds (Row.tp m) (Row.tp m + Row.fn m)) as [Br _]; try lia.
  destruct (guarded_ratio_bounds (Row.fn m) (Row.tp m + Row.fn m)) as [Bn _]; try lia.
  destruct (guarded_ratio_bounds (Row.fp m) (Row.fp m + Row.tn m)) as [Bf _]; try lia.
  rewrite <- Ep in Bp, Rp. rewrite <- Er in Br. rewrite <- En in Bn. rewrite <- Ef in Bf.
  repeat (split; [assumption|]).
  split.
  { rewrite E1. destruct (Qeq_bool _ 0) eqn:Q; [lra|].
    apply f1_unit_interval; try assumption.
    intros Z. apply Qeq_bool_iff in Z. congruence. }
  split. { intros Z. rewrite Ep. apply Z.eqb_eq in Z. rewrite Z. reflexivity. }
  split. { intros Z. rewrite Er, En. apply Z.eqb_eq in Z. rewrite Z. split; reflexivity. }
  split. { intros Z. rewrite Ef. apply Z.eqb_eq in Z. rewrite Z. reflexivity. }
  split. { intros Z. rewrite E1. apply Qeq_bool_iff in Z. rewrite Z. reflexivity. }
  intros P. assert (NZ : (Row.tp m + Row.fn m =? 0)%Z = false) by (apply Z.eqb_neq; lia).
  rewrite Er, En, NZ. split; [reflexivity|]. split; [reflexivity|].
  unfold int_truediv. apply rnd_comp.
  rewrite inject_Z_plus. field.
  rewrite <- inject_Z_plus. change 0 with (inject_Z 0). rewrite inject_Z_injective. lia.
Qed.

(** ** The threshold sweep *)

Lemma thresholds_of_inv step ths :
  thresholds_of rnd step = Ok ths ->
  exists grid, arange rnd step 1 step = Ok grid /\ ths = np_round rnd grid 2.
Proof.
  unfold thresholds_of. destruct (arange rnd step 1 step) as [grid|]; [|discriminate].
  cbn [bind]. intros E. injection E as <-. exists grid. split; reflexivity.
Qed.

Lemma threshold_sweep_rows y_true y_score step df :
  threshold_sweep rnd y_true y_score step = Ok df ->
  exists ths, thresholds_of rnd step = Ok ths /\
    Forall2 (fun t r => metrics_at_threshold rnd y_true y_score t = Ok r) ths (rows df) /\
    columns df = match rows df with [] => [] | _ :: _ => metric_columns end.
Proof.
  unfold threshold_sweep. destruct (thresholds_of rnd step) as [ths|]; [|discriminate].
  cbn [bind]. destruct (mapM _ ths) as [rs|] eqn:M; [|discriminate].
  cbn [bind]. intros E. injection E as <-.
  exists ths. split; [reflexivity|]. split; [|reflexivity].
  apply mapM_Ok_Forall2, M.
Qed.

(** Once the grid is built, the sweep of a dataset of equal lengths returns
    a table. *)
Lemma threshold_sweep_total y_true y_score step ths :
  List.length y_true = List.length y_score ->
  thresholds_of rnd step = Ok ths ->
  exists df, threshold_sweep rnd y_true y_score step = Ok df.
Proof.
  intros E T. unfold threshold_sweep. rewrite T. cbn [bind].
  destruct (mapM_total (metrics_at_threshold rnd y_true y_score) ths) as [rs ->].
  - intros t _. destruct (metrics_at_threshold_counts y_true y_score t E) as (m & Hm & _).
    exists m. exact Hm.
  - eexists. reflexivity.
Qed.

(** The t column of the table is the grid. *)
Lemma threshold_sweep_thresholds y_true y_score step df ths :
  threshold_sweep rnd y_true y_score step = Ok df ->
  thresholds_of rnd step = Ok ths ->
  map Row.t (rows df) = ths.
Proof.
  intros Hdf Ht.
  destruct (threshold_sweep_rows _ _ _ _ Hdf) as (ths' & Hths & F2 & _).
  rewrite Ht in Hths. injection Hths as <-. clear Ht Hdf.
  induction F2 as [|t r ts rs Hr _ IH]; [reflexivity|].
  cbn [map]. rewrite IH.
  destruct (metrics_at_threshold_inv _ _ _ _ Hr) as (-> & _). reflexivity.
Qed.

(** A power of two is a float in every rounding. *)
Lemma rnd_pow2_nat (n : nat) : rnd (inject_Z (2 ^ Z.of_nat n)) == inject_Z (2 ^ Z.of_nat n).
Proof.
  induction n as [|n IH].
  - change (inject_Z (2 ^ Z.of_nat 0)) with 1. apply rnd_1.
  - assert (E : inject_Z (2 ^ Z.of_nat (S n)) == 2 * inject_Z (2 ^ Z.of_nat n)).
    { rewrite Nat2Z.inj_succ, Z.pow_succ_r by lia. rewrite inject_Z_mult. reflexivity. }
    rewrite E. rewrite (rnd_comp _ (2 * rnd (inject_Z (2 ^ Z.of_nat n))))
      by (rewrite IH; reflexivity).
    rewrite rnd_double, IH. reflexivity.
Qed.

Lemma Qceiling_bounds x (a b : Z) :
  inject_Z a <= x -> x <= inject_Z b -> (a <= Qceiling x <= b)%Z.
Proof.
  intros A B. split.
  - rewrite <- (Qceiling_Z a). apply Qceiling_resp_le, A.
  - rewrite <- (Qceiling_Z b). apply Qceiling_resp_le, B.
Qed.

(** A length that fits is returned as it is. *)
Lemma arange_safe_ceil_to_intp_fits value :
  (NPY_MIN_INTP <= Qceiling value < NPY_MAX_INTP_double)%Z ->
  arange_safe_ceil_to_intp value = Ok (Qceiling value).
Proof.
  intros [L U]. unfold arange_safe_ceil_to_intp.
  destruct (Z.leb_spec NPY_MIN_INTP (Qceiling value)) as [_|]; [|lia].
  destruct (Z.leb_spec (Qceiling value) NPY_MAX_INTP_double) as [_|]; [|lia].
  destruct (Z.eqb_spec (Qceiling value) NPY_MAX_INTP_double) as [|_]; [lia|].
  reflexivity.
Qed.

(** For a step from [2^-20] to 1 the length of the grid is between 0 and
    [2^20], and the grid is built. *)
Lemma thresholds_of_total step :
  pow2 (-20) <= step -> step <= 1 ->
  exists ths, thresholds_of rnd step = Ok ths.
Proof.
  intros L U.
  assert (P20 : pow2 (-20) == 1 # 1048576) by (vm_compute; reflexivity).
  assert (Ps : 0 < step) by (rewrite P20 in L; lra).
  unfold thresholds_of, arange.
  destruct (Qeq_bool step 0) eqn:Z; [apply Qeq_bool_iff in Z; lra|].
  assert (A : 0 <= fsub rnd 1 step <= 1) by (apply rnd_unit_interval; lra).
  assert (Q0 : 0 <= fsub rnd 1 step / step) by (apply Qle_shift_div_l; lra).
  assert (Q1 : fsub rnd 1 step / step <= inject_Z (2 ^ Z.of_nat 20)).
  { apply Qle_shift_div_r; [exact Ps|].
    change (inject_Z (2 ^ Z.of_nat 20)) with (1048576 # 1).
    rewrite P20 in L. nra. }
  assert (B : (0 <= Qceiling (fdiv rnd (fsub rnd 1 step) step) <= 2 ^ Z.of_nat 20)%Z).
  { apply Qceiling_bounds; unfold fdiv.
    - change (inject_Z 0) with 0. apply rnd_nonneg, Q0.
    - rewrite <- rnd_pow2_nat. apply rnd_mono, Q1. }
  rewrite arange_safe_ceil_to_intp_fits.
  - cbn [bind]. eexists. reflexivity.
  - change (2 ^ Z.of_nat 20)%Z with 1048576%Z in B.
    unfold NPY_MIN_INTP, NPY_MAX_INTP_double. lia.
Qed.

(** A row of the table is the evaluator's row at its own threshold. *)
Lemma sweep_row_spec y_true y_score t r :
  List.length y_true = List.length y_score ->
  metrics_at_threshold rnd y_true y_score t = Ok r ->
  Row.t r = t /\
  Row.tp r = tp_of y_score y_true t /\ Row.fn r = fn_of y_score y_true t /\
  Row.recall r =
    (if (positives y_true =? 0)%Z then 0
     else int_truediv rnd (tp_of y_score y_true t) (positives y_true)).
Proof.
  intros E H.
  destruct (metrics_at_threshold_counts y_true y_score t E) as (m & Hm & Htp & _ & _ & Hfn).
  rewrite H in Hm. injection Hm as <-.
  destruct (metrics_at_threshold_inv _ _ _ _ H) as (Ht & _ & _ & _ & _ & _ & Er & _).
  repeat (split; [assumption|]).
  rewrite Er, Htp, Hfn, (tp_fn_positives y_score y_true t E). reflexivity.
Qed.

Lemma tp_of_antitone y_score y_true t1 t2 :
  t1 <= t2 -> (tp_of y_score y_true t2 <= tp_of y_score y_true t1)%Z.
Proof.
  intros H. apply count_cases_le. intros s y F.
  apply andb_true_iff in F. destruct F as [F1 F2]. rewrite F2, andb_true_r.
  apply Qle_bool_iff. apply Qle_bool_iff in F1. lra.
Qed.

Lemma positives_nonneg y_true : (0 <= positives y_true)%Z.
Proof. unfold positives. lia. Qed.

(** The entries of [np.arange(step, 1.0, step)], for a float [step]. *)
Lemma arange_entries step grid :
  is_float rnd step -> arange rnd step 1 step = Ok grid ->
  exists n, Forall2 (fun (i : nat) x => x == rnd (step + rnd (inject_Z (Z.of_nat i) * step)))
              (seq 0 n) grid.
Proof.
  intros F. unfold arange. destruct (Qeq_bool step 0); [discriminate|].
  destruct (arange_safe_ceil_to_intp _) as [len|]; [|discriminate].
  cbn [bind]. intros E. injection E as <-.
  exists (Z.to_nat len).
  unfold is_float in F.
  assert (E2 : fadd rnd step step == 2 * step).
  { unfold fadd. setoid_replace (step + step) with (2 * rnd step) by (rewrite F; ring).
    rewrite rnd_double, F. reflexivity. }
  assert (Ed : fsub rnd (fadd rnd step step) step == step).
  { unfold fsub. rewrite E2. setoid_replace (2 * step - step) with step by ring. exact F. }
  generalize (Z.to_nat len) as n. generalize 0%nat as k.
  intros k n. revert k.
  induction n as [|n IH]; intros k; cbn [seq map]; constructor; [|apply IH].
  destruct k as [|[|k]].
  - change (inject_Z (Z.of_nat 0)) with 0.
    setoid_replace (0 * step) with 0 by ring. rewrite rnd_0.
    setoid_replace (step + 0) with step by ring. symmetry. exact F.
  - change (inject_Z (Z.of_nat 1)) with 1.
    setoid_replace (1 * step) with step by ring. rewrite F.
    rewrite E2. setoid_replace (step + step) with (2 * rnd step) by (rewrite F; ring).
    rewrite rnd_double, F. reflexivity.
  - unfold fadd at 1. unfold fmul. rewrite Ed. reflexivity.
Qed.

Lemma np_round_entry_mono decimals x y :
  x <= y ->
  let f := inject_Z (10 ^ Z.of_nat decimals) in
  fdiv rnd (np_rint (fmul rnd x f)) f <= fdiv rnd (np_rint (fmul rnd y f)) f.
Proof.
  intros H f.
  assert (Pf : 0 < f).
  { unfold f. change 0 with (inject_Z 0). rewrite <- Zlt_Qlt. apply Z.pow_pos_nonneg; lia. }
  unfold fdiv. apply rnd_mono. apply Qmult_le_compat_r.
  - unfold np_rint. rewrite <- Zle_Qle. apply round_even_mono.
    unfold fmul. apply rnd_mono. apply Qmult_le_compat_r; [exact H | lra].
  - apply Qlt_le_weak, Qinv_lt_0_compat, Pf.
Qed.

(** For a positive float [step] the thresholds come in ascending order. *)
Lemma thresholds_of_ascending step ths :
  0 < step -> is_float rnd step -> thresholds_of rnd step = Ok ths ->
  forall i j a b, (i <= j)%nat ->
    nth_error ths i = Some a -> nth_error ths j = Some b -> a <= b.
Proof.
  intros Hs F H i j a b Hij Ha Hb.
  destruct (thresholds_of_inv step ths H) as (grid & Hg & ->).
  destruct (arange_entries step grid F Hg) as (n & E).
  unfold np_round in Ha, Hb. rewrite nth_error_map in Ha, Hb.
  destruct (nth_error grid i) as [x|] eqn:Gi; [|discriminate].
  destruct (nth_error grid j) as [y|] eqn:Gj; [|discriminate].
  cbn [option_map] in Ha, Hb. injection Ha as <-. injection Hb as <-.
  apply (np_round_entry_mono 2 x y).
  destruct (Forall2_nth_r _ _ _ _ _ E Gi) as (ki & Ki & Ei).
  destruct (Forall2_nth_r _ _ _ _ _ E Gj) as (kj & Kj & Ej).
  assert (Li : (i < List.length (seq 0 n))%nat) by (apply nth_error_Some; congruence).
  assert (Lj : (j < List.length (seq 0 n))%nat) by (apply nth_error_Some; congruence).
  rewrite length_seq in Li, Lj.
  rewrite (nth_error_nth' _ 0%nat) in Ki by (rewrite length_seq; exact Li).
  rewrite (nth_error_nth' _ 0%nat) in Kj by (rewrite length_seq; exact Lj).
  rewrite seq_nth in Ki, Kj by assumption. injection Ki as <-. injection Kj as <-.
  rewrite Ei, Ej. apply rnd_mono.
  apply Qplus_le_r. apply rnd_mono. apply Qmult_le_compat_r; [|lra].
  rewrite <- Zle_Qle. lia.
Qed.

(** C7.  On labels and scores of equal length and a positive step, every
    table the sweep returns has the grid as its threshold column, [tp + fn]
    is the number of positive labels in every row, and of two rows the one
    with the larger threshold has the smaller (or equal) recall; for a float
    step the rows come in ascending threshold order, so recall is
    non-increasing down the table.  The sweep does return a table for every
    step from [2^-20] to 1 (numpy rejects a grid whose length does not fit
    its index type). *)
Theorem threshold_sweep_recall_antitone y_true y_score step :
  List.length y_true = List.length y_score ->
  0 < step ->
  (pow2 (-20) <= step -> step <= 1 ->
   exists df, threshold_sweep rnd y_true y_score step = Ok df) /\
  forall df, threshold_sweep rnd y_true y_score step = Ok df ->
    (exists ths, thresholds_of rnd step = Ok ths /\ map Row.t (rows df) = ths) /\
    (forall r, In r (rows df) -> (Row.tp r + Row.fn r = positives y_true)%Z) /\
    (forall r1 r2, In r1 (rows df) -> In r2 (rows df) ->
       Row.t r1 <= Row.t r2 -> Row.recall r2 <= Row.recall r1) /\
    (is_float rnd step ->
     forall i j r1 r2, (i <= j)%nat ->
       nth_error (rows df) i = Some r1 -> nth_error (rows df) j = Some r2 ->
       Row.t r1 <= Row.t r2 /\ Row.recall r2 <= Row.recall r1).
Proof.
  intros E Hs. split.
  { intros L U. destruct (thresholds_of_total step L U) as [ths T].
    exact (threshold_sweep_total y_true y_score step ths E T). }
  intros df Hdf.
  destruct (threshold_sweep_rows _ _ _ _ Hdf) as (ths & Hths & F2 & _).
  split.
  { exists ths. split; [exact Hths|].
    exact (threshold_sweep_thresholds _ _ _ _ _ Hdf Hths). }
  assert (Mono : forall r1 r2, In r1 (rows df) -> In r2 (rows df) ->
                   Row.t r1 <= Row.t r2 -> Row.recall r2 <= Row.recall r1).
  { intros r1 r2 I1 I2 Ht.
    destruct (Forall2_In_r _ _ _ _ F2 I1) as (t1 & _ & M1).
    destruct (Forall2_In_r _ _ _ _ F2 I2) as (t2 & _ & M2).
    destruct (sweep_row_spec _ _ _ _ E M1) as (T1 & _ & _ & R1).
    destruct (sweep_row_spec _ _ _ _ E M2) as (T2 & _ & _ & R2).
    rewrite R1, R2. destruct (Z.eqb_spec (positives y_true) 0) as [|NZ]; [lra|].
    apply int_truediv_mono.
    - apply tp_of_antitone. rewrite <- T1, <- T2. exact Ht.
    - pose proof (positives_nonneg y_true). lia. }
  split; [|split; [exact Mono|]].
  - intros r I. destruct (Forall2_In_r _ _ _ _ F2 I) as (t & _ & M).
    destruct (sweep_row_spec _ _ _ _ E M) as (_ & -> & -> & _).
    apply tp_fn_positives, E.
  - intros F i j r1 r2 Hij H1 H2.
    assert (Ht : Row.t r1 <= Row.t r2).
    { destruct (Forall2_nth_r _ _ _ _ _ F2 H1) as (t1 & N1 & M1).
      destruct (Forall2_nth_r _ _ _ _ _ F2 H2) as (t2 & N2 & M2).
      destruct (metrics_at_threshold_inv _ _ _ _ M1) as (-> & _).
      destruct (metrics_at_threshold_inv _ _ _ _ M2) as (-> & _).
      exact (thresholds_of_ascending step ths Hs F Hths i j t1 t2 Hij N1 N2). }
    split; [exact Ht|].
    apply Mono; [eapply nth_error_In; eassumption | eapply nth_error_In; eassumption | exact Ht].
Qed.

(** ** The band constructor *)

Lemma Qlt_bool_iff x y : Qlt_bool x y = true <-> x < y.
Proof.
  unfold Qlt_bool. rewrite negb_true_iff. split.
  - intros H. apply Qnot_le_lt. intros L. apply Qle_bool_iff in L. congruence.
  - intros H. destruct (Qle_bool y x) eqn:L; [|reflexivity].
    apply Qle_bool_iff in L. lra.
Qed.

Lemma py_max_spec a b : py_max a b == Qmax a b.
Proof.
  unfold py_max. destruct (Qlt_bool a b) eqn:L.
  - apply Qlt_bool_iff in L. symmetry. apply Q.max_r. lra.
  - assert (b <= a).
    { apply Qnot_lt_le. intros H. apply Qlt_bool_iff in H. congruence. }
    symmetry. apply Q.max_l. assumption.
Qed.

Lemma py_min_spec a b : py_min a b == Qmin a b.
Proof.
  unfold py_min. destruct (Qlt_bool b a) eqn:L.
  - apply Qlt_bool_iff in L. symmetry. apply Q.min_r. lra.
  - assert (a <= b).
    { apply Qnot_lt_le. intros H. apply Qlt_bool_iff in H. congruence. }
    symmetry. apply Q.min_l. assumption.
Qed.

(** C8, as the code has it.  For a float [t] in [0, 1] and [band >= 0] the
    band is [t1 = max(0, t (-) band)], [t2 = min(1, t (+) band)] with the
    rounded difference and sum, and [0 <= t1 <= t <= t2 <= 1]; a zero band
    gives [t1 = t2 = t].  (In binary64 so does a non-zero band that rounding
    absorbs; the converse holds in exact arithmetic.) *)
Theorem make_t1_t2_band t band :
  is_float rnd t -> 0 <= t <= 1 -> 0 <= band ->
  let (t1, t2) := make_t1_t2 rnd t band in
  t1 == Qmax 0 (fsub rnd t band) /\
  t2 == Qmin 1 (fadd rnd t band) /\
  0 <= t1 /\ t1 <= t /\ t <= t2 /\ t2 <= 1 /\
  (band == 0 -> t1 == t /\ t2 == t).
Proof.
  intros F [T0 T1] B. unfold make_t1_t2. unfold is_float in F.
  pose proof (py_max_spec 0 (fsub rnd t band)) as M1.
  pose proof (py_min_spec 1 (fadd rnd t band)) as M2.
  assert (S : fsub rnd t band <= t).
  { unfold fsub. rewrite <- F at 2. apply rnd_mono. lra. }
  assert (A : t <= fadd rnd t band).
  { unfold fadd. rewrite <- F at 1. apply rnd_mono. lra. }
  split; [exact M1|]. split; [exact M2|].
  rewrite M1, M2.
  split; [apply Q.le_max_l|].
  split; [apply Q.max_lub; assumption|].
  split; [apply Q.min_glb; assumption|].
  split; [apply Q.le_min_l|].
  intros Z.
  assert (S0 : fsub rnd t band == t)
    by (unfold fsub; rewrite Z; setoid_replace (t - 0) with t by ring; exact F).
  assert (A0 : fadd rnd t band == t)
    by (unfold fadd; rewrite Z; setoid_replace (t + 0) with t by ring; exact F).
  rewrite S0, A0. split; [apply Q.max_r | apply Q.min_r]; assumption.
Qed.


End Generic.

(** ** Runs of the evaluator and the sweep *)

Lemma metrics_at_threshold_partition_witness :
  exists m,
    metrics_at_threshold rnd64 scenario_labels scenario_scores (lit (6#10)) = Ok m /\
    (Row.tp m, Row.fp m, Row.tn m, Row.fn m) = (3, 0, 2, 0)%Z.
Proof.
  destruct (metrics_at_threshold_partition rnd64 scenario_labels scenario_scores (lit (6#10)))
    as (m & Hm & _ & Htp & Hfp & Htn & Hfn & _).
  - reflexivity.
  - unfold binary_labels. repeat (apply Forall_cons; [lia|]). apply Forall_nil.
  - exists m. split; [exact Hm|]. rewrite Htp, Hfp, Htn, Hfn. vm_compute. reflexivity.
Defined.


(** Three positive cases, one of them above the threshold 0.5. *)
Lemma metrics_at_threshold_ratios_witness :
  exists m,
    metrics_at_threshold rnd64 [1; 1; 1]%Z (map lit [9#10; 1#10; 1#10]) (lit (5#10)) = Ok m /\
    0 <= Row.f1 m <= 1 /\
    Row.fnr m == rnd64 (1 - inject_Z (Row.tp m) / inject_Z (Row.tp m + Row.fn m)).
Proof.
  destruct (metrics_at_threshold rnd64 [1; 1; 1]%Z (map lit [9#10; 1#10; 1#10]) (lit (5#10)))
    as [m|e] eqn:E; [|exfalso; revert E; by_compute].
  pose proof (metrics_at_threshold_ratios rnd64 _ _ _ m E)
    as (_ & _ & _ & _ & F1 & _ & _ & _ & _ & Pos).
  exists m. split; [reflexivity|]. split; [exact F1|].
  apply Pos. vm_compute in E. injection E as <-. reflexivity.
Defined.

(** C5 as stated fails in binary64: with one true positive and two false
    negatives recall is the float nearest 1/3 and fnr the float nearest 2/3,
    which is neither one minus that recall nor its rounding. *)
Lemma fnr_is_not_one_minus_recall :
  exists m,
    metrics_at_threshold rnd64 [1; 1; 1]%Z (map lit [9#10; 1#10; 1#10]) (lit (5#10)) = Ok m /\
    (Row.tp m, Row.fn m) = (1, 2)%Z /\
    Row.recall m = rnd64 (1 # 3) /\
    Row.fnr m = rnd64 (2 # 3) /\
    ~ Row.fnr m == 1 - Row.recall m /\
    ~ Row.fnr m == fsub rnd64 1 (Row.recall m).
Proof.
  eexists. split; [vm_compute; reflexivity|].
  cbn [Row.tp Row.fn Row.recall Row.fnr].
  repeat split; by_compute.
Qed.

(** The sweep of the scenario at step 0.1. *)
Lemma threshold_sweep_recall_antitone_witness :
  exists df,
    threshold_sweep rnd64 scenario_labels scenario_scores (lit (1#10)) = Ok df /\
    map Row.t (rows df) = map lit [1#10; 2#10; 3#10; 4#10; 5#10; 6#10; 7#10; 8#10; 9#10] /\
    forall r, In r (rows df) -> (Row.tp r + Row.fn r = 3)%Z.
Proof.
  destruct (threshold_sweep_recall_antitone rnd64 scenario_labels scenario_scores (lit (1#10)))
    as (T & P).
  - reflexivity.
  - by_compute.
  - destruct T as [df Hdf]; [by_compute | by_compute |].
    destruct (P df Hdf) as ((ths & Hths & Hcol) & Hpos & _).
    exists df. split; [exact Hdf|]. split; [|exact Hpos].
    rewrite Hcol. vm_compute in Hths. injection Hths as <-. reflexivity.
Defined.

Lemma make_t1_t2_band_witness :
  let (t1, t2) := make_t1_t2 rnd64 (lit (3#10)) (lit (5#100)) in
  t1 == Qmax 0 (fsub rnd64 (lit (3#10)) (lit (5#100))) /\
  t2 == Qmin 1 (fadd rnd64 (lit (3#10)) (lit (5#100))) /\
  0 <= t1 /\ t1 <= lit (3#10) /\ lit (3#10) <= t2 /\ t2 <= 1 /\
  (lit (5#100) == 0 -> t1 == lit (3#10) /\ t2 == lit (3#10)).
Proof.
  apply (make_t1_t2_band rnd64 (lit (3#10)) (lit (5#100))).
  - by_compute.
  - split; by_compute.
  - by_compute.
Defined.

(** In exact arithmetic the band degenerates only for a zero width. *)
Lemma make_t1_t2_exact_degenerate t band :
  0 <= t <= 1 -> 0 <= band ->
  fst (make_t1_t2 rnd_exact t band) == t -> snd (make_t1_t2 rnd_exact t band) == t ->
  band == 0.
Proof.
  intros [T0 T1] B. unfold make_t1_t2, fst, snd, fsub, fadd, rnd_exact.
  rewrite py_max_spec, py_min_spec. intros H1 H2.
  destruct (Qlt_le_dec 0 band) as [P|N]; [|lra]. exfalso.
  destruct (Qlt_le_dec 0 t) as [Pt|Nt].
  - revert H1. apply Q.max_case_strong; intros; lra.
  - revert H2. apply Q.min_case_strong; intros; lra.
Qed.

(** C8 as stated fails in binary64: a non-zero band width that rounding
    absorbs also gives [t1 = t2 = t]; here [t = 0.5] and [band = 1e-30]. *)
Lemma make_t1_t2_absorbed :
  is_float rnd64 (lit (5#10)) /\
  0 <= lit (5#10) <= 1 /\
  0 < lit (1 # 10 ^ 30) /\
  make_t1_t2 rnd64 (lit (5#10)) (lit (1 # 10 ^ 30)) = (lit (5#10), lit (5#10)).
Proof.
  split; [by_compute|]. split; [split; by_compute|]. split; [by_compute|].
  vm_compute. reflexivity.
Qed.

(** ** The selector *)

Section Sorting.

Variable le : Row.metrics -> Row.metrics -> bool.
Hypothesis le_total : forall a b, le a b = true \/ le b a = true.
Hypothesis le_trans : forall a b c, le a b = true -> le b c = true -> le a c = true.

Lemma insert_row_In x y l : In y (insert_row le x l) <-> y = x \/ In y l.
Proof.
  induction l as [|z l IH]; simpl.
  - intuition.
  - destruct (le x z); simpl; [intuition|]. rewrite IH. intuition.
Qed.

Lemma stable_sort_In y l : In y (stable_sort le l) <-> In y l.
Proof.
  induction l as [|x l IH]; simpl; [reflexivity|].
  rewrite insert_row_In, IH. intuition.
Qed.

Lemma stable_sort_nil l : stable_sort le l = [] -> l = [].
Proof.
  destruct l as [|x l]; [reflexivity|]. simpl. intros H.
  assert (I : In x (insert_row le x (stable_sort le l)))
    by (apply insert_row_In; left; reflexivity).
  rewrite H in I. contradiction.
Qed.

Lemma insert_row_head x l h tl :
  (forall h0 tl0, l = h0 :: tl0 -> forall y, In y l -> le h0 y = true) ->
  insert_row le x l = h :: tl ->
  forall y, y = x \/ In y l -> le h y = true.
Proof.
  intros Hmin E y Hy. destruct l as [|h0 l0]; simpl in E.
  - injection E as <- <-. destruct Hy as [->|[]]. destruct (le_total x x); assumption.
  - specialize (Hmin h0 l0 eq_refl).
    destruct (le x h0) eqn:L; injection E as <- <-.
    + destruct Hy as [->|I]; [destruct (le_total x x); assumption|].
      apply (le_trans _ h0); [exact L | apply Hmin, I].
    + destruct Hy as [->|I]; [|apply Hmin, I].
      destruct (le_total x h0) as [C|C]; [congruence | exact C].
Qed.

(** The first row of the sorted table is least. *)
Lemma stable_sort_head l h tl :
  stable_sort le l = h :: tl -> forall y, In y l -> le h y = true.
Proof.
  revert h tl. induction l as [|x l IH]; intros h tl E y I; [contradiction|].
  simpl in E. apply (insert_row_head x (stable_sort le l) h tl).
  - intros h0 tl0 S z Hz. apply (IH h0 tl0 S). apply stable_sort_In, Hz.
  - exact E.
  - destruct I as [<-|I]; [left; reflexivity | right; apply stable_sort_In, I].
Qed.

End Sorting.


Lemma fnr_t_le_spec a b :
  fnr_t_le a b = true <->
  Row.fnr a < Row.fnr b \/ (Row.fnr a == Row.fnr b /\ Row.t a <= Row.t b).
Proof.
  unfold fnr_t_le. cbn [lex_le].
  destruct (Qcompare_spec (Row.fnr a) (Row.fnr b)) as [E|L|G].
  - destruct (Qcompare_spec (Row.t a) (Row.t b)) as [E'|L'|G'].
    + split; [intros _; right; split; [exact E | rewrite E'; apply Qle_refl] | reflexivity].
    + split; [intros _; right; split; [exact E | apply Qlt_le_weak, L'] | reflexivity].
    + split; [discriminate|]. intros [L|[_ L]]; [rewrite E in L; lra | lra].
  - split; [intros _; left; exact L | reflexivity].
  - split; [discriminate|]. intros [L|[E _]]; lra.
Qed.

Lemma fnr_t_le_total a b : fnr_t_le a b = true \/ fnr_t_le b a = true.
Proof.
  rewrite !fnr_t_le_spec.
  destruct (Q_dec (Row.fnr a) (Row.fnr b)) as [[L|G]|E];
    [left; left; exact L | right; left; exact G|].
  destruct (Qlt_le_dec (Row.t b) (Row.t a)) as [L|G].
  - right. right. split; [symmetry; exact E | apply Qlt_le_weak, L].
  - left. right. split; assumption.
Qed.

Lemma fnr_t_le_trans a b c :
  fnr_t_le a b = true -> fnr_t_le b c = true -> fnr_t_le a c = true.
Proof.
  rewrite !fnr_t_le_spec. intros [L1|[E1 T1]] [L2|[E2 T2]].
  - left. lra.
  - left. lra.
  - left. lra.
  - right. split; lra.
Qed.

Lemma existsb_eqb_In c l : In c l -> existsb (String.eqb c) l = true.
Proof.
  intros I. apply existsb_exists. exists c. split; [exact I | apply String.eqb_refl].
Qed.

Lemma getitem_precision df : sweep_table df -> getitem df "precision" = Ok Row.precision.
Proof.
  intros S. unfold getitem. rewrite existsb_eqb_In by (apply S; simpl; tauto). reflexivity.
Qed.

Lemma sort_values_fnr_t df :
  sweep_table df ->
  sort_values ["fnr"; "t"]%string df =
  Ok {| columns := columns df; rows := stable_sort fnr_t_le (rows df) |}.
Proof.
  intros S. unfold sort_values. cbn [mapM]. unfold getitem.
  rewrite !existsb_eqb_In by (apply S; simpl; tauto). reflexivity.
Qed.

Lemma sweep_table_filter f df : sweep_table df -> sweep_table (filter_rows f df).
Proof. intros S c I. apply S, I. Qed.

Lemma empty_filter_rows f df :
  sweep_table df ->
  empty (filter_rows f df) = match filter f (rows df) with [] => true | _ :: _ => false end.
Proof.
  intros S. unfold empty. cbn [filter_rows rows columns].
  destruct (filter f (rows df)); [reflexivity|].
  destruct (columns df) as [|c cs] eqn:Cs; [|reflexivity].
  exfalso. specialize (S "t"%string). rewrite Cs in S. apply S. simpl. tauto.
Qed.

(** The selector, in one step: sort the candidates, take the first. *)
Lemma pick_threshold_candidates df precision_floor :
  sweep_table df ->
  pick_threshold df precision_floor =
  match stable_sort fnr_t_le (candidates df precision_floor) with
  | [] => Raise out_of_bounds
  | best :: _ => Ok (Row.t best)
  end.
Proof.
  intros S. unfold pick_threshold, candidates.
  destruct precision_floor as [floor|].
  - rewrite (getitem_precision df S). cbn [bind].
    rewrite (empty_filter_rows _ df S).
    destruct (filter _ (rows df)) as [|r rs] eqn:F; cbn [bind].
    + rewrite (sort_values_fnr_t df S). cbn [bind]. unfold iloc. cbn [rows].
      destruct (stable_sort fnr_t_le (rows df)); reflexivity.
    + rewrite (sort_values_fnr_t _ (sweep_table_filter _ df S)).
      cbn [bind]. unfold iloc. cbn [rows filter_rows]. rewrite F.
      destruct (stable_sort fnr_t_le (r :: rs)); reflexivity.
  - cbn [bind]. rewrite (sort_values_fnr_t df S). cbn [bind]. unfold iloc. cbn [rows].
    destruct (stable_sort fnr_t_le (rows df)); reflexivity.
Qed.

Lemma candidates_incl df precision_floor r :
  In r (candidates df precision_floor) -> In r (rows df).
Proof.
  unfold candidates. destruct precision_floor as [floor|]; [|tauto].
  destruct (filter _ (rows df)) as [|x l] eqn:F; [tauto|].
  rewrite <- F. intros I. apply filter_In in I. tauto.
Qed.

Lemma candidates_nonempty df precision_floor :
  rows df <> [] -> candidates df precision_floor <> [].
Proof.
  unfold candidates. destruct precision_floor as [floor|]; [|tauto].
  destruct (filter _ (rows df)); [tauto | discriminate].
Qed.

(** The selector returns the threshold of a candidate that is least in the
    order (fnr, t). *)
Lemma pick_threshold_least df precision_floor :
  sweep_table df -> rows df <> [] ->
  exists best,
    In best (candidates df precision_floor) /\
    pick_threshold df precision_floor = Ok (Row.t best) /\
    forall r, In r (candidates df precision_floor) -> fnr_t_le best r = true.
Proof.
  intros S NE. rewrite (pick_threshold_candidates df precision_floor S).
  destruct (stable_sort fnr_t_le (candidates df precision_floor)) as [|best tl] eqn:E.
  - apply stable_sort_nil in E. exfalso. exact (candidates_nonempty df precision_floor NE E).
  - exists best. split; [|split; [reflexivity|]].
    + apply (stable_sort_In fnr_t_le). rewrite E. left. reflexivity.
    + apply (stable_sort_head fnr_t_le fnr_t_le_total fnr_t_le_trans _ _ _ E).
Qed.

Lemma pd_DataFrame_sweep_table rs : rs <> [] -> sweep_table (pd_DataFrame rs).
Proof.
  intros NE c I. destruct rs as [|r rs]; [congruence|].
  cbn [pd_DataFrame columns]. simpl in I. unfold metric_columns. simpl.
  intuition.
Qed.

(** The selected row: least fnr among the candidates, and least threshold
    among the candidates with that fnr. *)
Lemma pick_threshold_best df precision_floor :
  sweep_table df -> rows df <> [] ->
  exists best,
    In best (candidates df precision_floor) /\
    pick_threshold df precision_floor = Ok (Row.t best) /\
    (forall r, In r (candidates df precision_floor) -> Row.fnr best <= Row.fnr r) /\
    (forall r, In r (candidates df precision_floor) ->
       Row.fnr r == Row.fnr best -> Row.t best <= Row.t r).
Proof.
  intros S NE.
  destruct (pick_threshold_least df precision_floor S NE) as (best & I & E & L).
  exists best. split; [exact I|]. split; [exact E|]. split.
  - intros r Hr. specialize (L r Hr). apply fnr_t_le_spec in L.
    destruct L as [L|[L _]]; lra.
  - intros r Hr Er. specialize (L r Hr). apply fnr_t_le_spec in L.
    destruct L as [L|[_ L]]; lra.
Qed.

(** C2.  On a non-empty sweep table the selector returns the threshold of a
    candidate row with the least fnr, and among the candidates with that fnr
    the least threshold; so when the least fnr is shared by rows at
    thresholds [a <= b] (0.3 and 0.6, say) it returns [a]; and the result is
    a function of the table and the floor. *)
Theorem pick_threshold_tie_break df precision_floor :
  sweep_table df -> rows df <> [] ->
  exists best,
    In best (candidates df precision_floor) /\
    pick_threshold df precision_floor = Ok (Row.t best) /\
    (forall r, In r (candidates df precision_floor) -> Row.fnr best <= Row.fnr r) /\
    (forall r, In r (candidates df precision_floor) ->
       Row.fnr r == Row.fnr best -> Row.t best <= Row.t r) /\
    (forall r1 r2 a b,
       In r1 (candidates df precision_floor) -> In r2 (candidates df precision_floor) ->
       Row.t r1 == a -> Row.t r2 == b -> a <= b ->
       Row.fnr r1 == Row.fnr r2 ->
       (forall r, In r (candidates df precision_floor) -> Row.fnr r1 <= Row.fnr r) ->
       (forall r, In r (candidates df precision_floor) -> Row.fnr r == Row.fnr r1 ->
          Row.t r == a \/ Row.t r == b) ->
       Row.t best == a) /\
    (forall t1 t2, pick_threshold df precision_floor = Ok t1 ->
       pick_threshold df precision_floor = Ok t2 -> t1 = t2).
Proof.
  intros S NE.
  destruct (pick_threshold_best df precision_floor S NE) as (best & I & E & L1 & L2).
  exists best. split; [exact I|]. split; [exact E|].
  split; [exact L1|]. split; [exact L2|]. split.
  - intros r1 r2 a b I1 I2 Ta Tb Hab E12 Min Only.
    assert (Eb : Row.fnr best == Row.fnr r1).
    { apply Qle_antisym; [apply L1, I1 | apply Min, I]. }
    pose proof (L2 r1 I1 ltac:(symmetry; exact Eb)) as T1.
    destruct (Only best I Eb) as [A|B]; [exact A|]. lra.
  - intros t1 t2 E1 E2. congruence.
Qed.

Lemma pick_threshold_tie_break_witness :
  exists best,
    pick_threshold tie_sweep None = Ok (Row.t best) /\ Row.t best == lit (3#10).
Proof.
  destruct (pick_threshold_tie_break tie_sweep None) as (best & _ & E & _ & _ & Tie & _).
  - apply pd_DataFrame_sweep_table. discriminate.
  - discriminate.
  - exists best. split; [exact E|].
    apply (Tie (synthetic_row (lit (3#10)) (lit (5#10)) (lit (1#10)))
               (synthetic_row (lit (6#10)) (lit (6#10)) (lit (1#10)))
               (lit (3#10)) (lit (6#10))).
    + right. left. reflexivity.
    + left. reflexivity.
    + reflexivity.
    + reflexivity.
    + by_compute.
    + reflexivity.
    + intros r [<-|[<-|[<-|[]]]]; by_compute.
    + intros r [<-|[<-|[<-|[]]]] H;
        [right; reflexivity | left; reflexivity | exfalso; revert H; by_compute].
Defined.

Lemma relaxed_true_iff df floor :
  relaxed df (Some floor) = true <-> forall r, In r (rows df) -> Row.precision r < floor.
Proof.
  unfold relaxed. rewrite negb_true_iff. split.
  - intros H r I. apply Qnot_le_lt. intros L.
    assert (X : existsb (fun r => Qle_bool floor (Row.precision r)) (rows df) = true).
    { apply existsb_exists. exists r. split; [exact I | apply Qle_bool_iff, L]. }
    congruence.
  - intros H. destruct (existsb _ (rows df)) eqn:X; [|reflexivity].
    apply existsb_exists in X. destruct X as (r & I & L). apply Qle_bool_iff in L.
    specialize (H r I). lra.
Qed.

Lemma candidates_relaxed df floor :
  relaxed df (Some floor) = true -> candidates df (Some floor) = rows df.
Proof.
  intros H. unfold candidates.
  destruct (filter _ (rows df)) as [|r rs] eqn:F; [reflexivity|].
  assert (I : In r (filter (fun r => Qle_bool floor (Row.precision r)) (rows df)))
    by (rewrite F; left; reflexivity).
  apply filter_In in I. destruct I as [I L]. apply Qle_bool_iff in L.
  rewrite relaxed_true_iff in H. specialize (H r I). lra.
Qed.

(** C1, as the code has it.  When no row of a non-empty sweep table meets
    the precision floor, the selector returns what it returns without a
    floor: the threshold of a row with the least fnr of the whole table (the
    least such threshold).  The result is the bare threshold: it is the same
    value the unconstrained call returns and carries no mark of the
    relaxation. *)
Theorem pick_threshold_fallback df floor :
  sweep_table df -> rows df <> [] ->
  (forall r, In r (rows df) -> Row.precision r < floor) ->
  relaxed df (Some floor) = true /\
  pick_threshold df (Some floor) = pick_threshold df None /\
  exists best,
    In best (rows df) /\
    pick_threshold df (Some floor) = Ok (Row.t best) /\
    (forall r, In r (rows df) -> Row.fnr best <= Row.fnr r) /\
    (forall r, In r (rows df) -> Row.fnr r == Row.fnr best -> Row.t best <= Row.t r).
Proof.
  intros S NE H. apply relaxed_true_iff in H.
  pose proof (candidates_relaxed df floor H) as C.
  split; [exact H|]. split.
  - rewrite !pick_threshold_candidates by exact S. rewrite C. reflexivity.
  - destruct (pick_threshold_best df (Some floor) S NE) as (best & I & E & L1 & L2).
    rewrite C in *. exists best. repeat split; assumption.
Qed.

Lemma pick_threshold_fallback_witness :
  relaxed floor_sweep (Some (lit (95#100))) = true /\
  pick_threshold floor_sweep (Some (lit (95#100))) = pick_threshold floor_sweep None /\
  exists best,
    In best (rows floor_sweep) /\
    pick_threshold floor_sweep (Some (lit (95#100))) = Ok (Row.t best) /\
    (forall r, In r (rows floor_sweep) -> Row.fnr best <= Row.fnr r) /\
    (forall r, In r (rows floor_sweep) -> Row.fnr r == Row.fnr best -> Row.t best <= Row.t r).
Proof.
  apply (pick_threshold_fallback floor_sweep (lit (95#100))).
  - apply pd_DataFrame_sweep_table. discriminate.
  - discriminate.
  - intros r [<-|[<-|[]]]; by_compute.
Defined.

(** C1 as stated fails: no reading of the selector's output tells whether
    the constraint was relaxed.  On [floor_sweep] the floor 0.95 is relaxed
    and the floor 0.30 is met, and the two calls return the same value. *)
Lemma pick_threshold_no_relaxation_flag :
  ~ exists flag : result Q -> bool,
      forall df floor, sweep_table df -> rows df <> [] ->
        flag (pick_threshold df (Some floor)) = relaxed df (Some floor).
Proof.
  intros [flag H].
  assert (S : sweep_table floor_sweep) by (apply pd_DataFrame_sweep_table; discriminate).
  assert (NE : rows floor_sweep <> []) by discriminate.
  pose proof (H floor_sweep (lit (95#100)) S NE) as H1.
  pose proof (H floor_sweep (lit (30#100)) S NE) as H2.
  assert (E : pick_threshold floor_sweep (Some (lit (95#100)))
              = pick_threshold floor_sweep (Some (lit (30#100)))) by (vm_compute; reflexivity).
  rewrite E in H1. rewrite H1 in H2. revert H2. by_compute.
Qed.

Lemma getitem_missing df c :
  existsb (String.eqb c) (columns df) = false -> getitem df c = Raise (KeyError c).
Proof. intros H. unfold getitem. rewrite H. reflexivity. Qed.

Lemma getitem_present df c f :
  existsb (String.eqb c) (columns df) = true -> assoc c column_values = Some f ->
  getitem df c = Ok f.
Proof. intros H A. unfold getitem. rewrite H, A. reflexivity. Qed.

Lemma sweep_table_existsb df c :
  sweep_table df -> In c ["precision"; "fnr"; "t"]%string ->
  existsb (String.eqb c) (columns df) = true.
Proof. intros S I. apply existsb_eqb_In, S, I. Qed.

(** Sorting a table without rows and taking its first row. *)
Lemma first_of_empty df :
  rows df = [] ->
  exists e,
    (sorted <- sort_values ["fnr"; "t"]%string df ;;
     best <- iloc sorted 0 ;; Ok (Row.t best)) = Raise e /\
    (exn_name e = "IndexError" \/ exn_name e = "KeyError")%string /\
    (sweep_table df -> e = out_of_bounds) /\
    (columns df = [] -> e = KeyError "fnr").
Proof.
  intros E. unfold sort_values. cbn [mapM].
  destruct (existsb (String.eqb "fnr") (columns df)) eqn:F.
  - rewrite (getitem_present df "fnr" Row.fnr F eq_refl). cbn [bind].
    destruct (existsb (String.eqb "t") (columns df)) eqn:T.
    + rewrite (getitem_present df "t" Row.t T eq_refl). cbn [bind].
      unfold iloc. cbn [rows]. rewrite E. cbn [stable_sort fold_right nth_error bind].
      exists out_of_bounds. split; [reflexivity|]. split; [left; reflexivity|].
      split; [reflexivity|]. intros C. rewrite C in F. discriminate.
    + rewrite (getitem_missing df "t" T). cbn [bind].
      eexists. split; [reflexivity|]. split; [right; reflexivity|]. split.
      * intros S. rewrite (sweep_table_existsb df "t" S) in T by (simpl; tauto). discriminate.
      * intros C. rewrite C in F. discriminate.
  - rewrite (getitem_missing df "fnr" F). cbn [bind].
    eexists. split; [reflexivity|]. split; [right; reflexivity|]. split.
    + intros S. rewrite (sweep_table_existsb df "fnr" S) in F by (simpl; tauto). discriminate.
    + reflexivity.
Qed.

(** C9, as the code has it.  On a table without rows the selector raises
    and returns nothing: [IndexError] from [iloc[0]] when the table has its
    columns, [KeyError] for the first column it reads when the table has no
    column (the frame [pd.DataFrame([])] of an empty sweep). *)
Theorem pick_threshold_empty df precision_floor :
  rows df = [] ->
  exists e,
    pick_threshold df precision_floor = Raise e /\
    (exn_name e = "IndexError" \/ exn_name e = "KeyError")%string /\
    (sweep_table df -> e = out_of_bounds) /\
    (columns df = [] ->
     e = KeyError (match precision_floor with Some _ => "precision" | None => "fnr" end)).
Proof.
  intros E. destruct (first_of_empty df E) as (e & He & Hn & Hs & Hc).
  unfold pick_threshold. destruct precision_floor as [floor|].
  - destruct (existsb (String.eqb "precision") (columns df)) eqn:P.
    + rewrite (getitem_present df "precision" Row.precision P eq_refl). cbn [bind].
      assert (Em : empty (filter_rows (fun r => Qle_bool floor (Row.precision r)) df) = true)
        by (unfold empty; cbn [filter_rows rows]; rewrite E; reflexivity).
      rewrite Em. cbn [bind]. exists e. split; [exact He|]. split; [exact Hn|].
      split; [exact Hs|]. intros C. rewrite C in P. discriminate.
    + rewrite (getitem_missing df "precision" P). cbn [bind].
      eexists. split; [reflexivity|]. split; [right; reflexivity|]. split.
      * intros S. rewrite (sweep_table_existsb df "precision" S) in P by (simpl; tauto).
        discriminate.
      * reflexivity.
  - cbn [bind]. exists e. repeat split; assumption.
Qed.

Lemma pick_threshold_empty_witness :
  exists e,
    pick_threshold (pd_DataFrame []) (Some (lit (30#100))) = Raise e /\
    e = KeyError "precision".
Proof.
  destruct (pick_threshold_empty (pd_DataFrame []) (Some (lit (30#100))))
    as (e & E & _ & _ & K).
  - reflexivity.
  - exists e. split; [exact E | apply K; reflexivity].
Defined.

(** C9 as stated fails: on an empty table that has its columns the selector
    raises pandas' [IndexError] for [iloc[0]], not an [InvalidInput] naming
    the precondition. *)
Lemma pick_threshold_empty_not_InvalidInput :
  exists e,
    pick_threshold (mkDataFrame metric_columns []) (Some (lit (30#100))) = Raise e /\
    e = IndexError "single positional indexer is out-of-bounds" /\
    exn_name e <> "InvalidInput"%string.
Proof.
  eexists. split; [reflexivity|]. split; [reflexivity | discriminate].
Qed.

(** C10.  On a non-empty sweep table the selector returns a value of the
    table's own threshold column, for every floor and for no floor, met or
    relaxed; when the table is the sweep of a dataset that value is one of
    the thresholds the sweep evaluated. *)
Theorem pick_threshold_in_table df precision_floor :
  sweep_table df -> rows df <> [] ->
  exists t,
    pick_threshold df precision_floor = Ok t /\
    In t (map Row.t (rows df)) /\
    (forall rnd y_true y_score step,
       threshold_sweep rnd y_true y_score step = Ok df ->
       exists thresholds, thresholds_of rnd step = Ok thresholds /\ In t thresholds).
Proof.
  intros S NE.
  destruct (pick_threshold_least df precision_floor S NE) as (best & I & E & _).
  apply candidates_incl in I.
  exists (Row.t best). split; [exact E|]. split; [apply in_map, I|].
  intros rnd y_true y_score step H.
  destruct (threshold_sweep_rows rnd _ _ _ _ H) as (ths & Hths & F2 & _).
  exists ths. split; [exact Hths|].
  destruct (Forall2_In_r _ _ _ _ F2 I) as (t & It & M).
  destruct (metrics_at_threshold_inv rnd _ _ _ _ M) as (-> & _). exact It.
Qed.

Lemma pick_threshold_in_table_witness :
  exists t,
    pick_threshold floor_sweep (Some (lit (95#100))) = Ok t /\
    In t (map Row.t (rows floor_sweep)).
Proof.
  destruct (pick_threshold_in_table floor_sweep (Some (lit (95#100))))
    as (t & E & I & _).
  - apply pd_DataFrame_sweep_table. discriminate.
  - discriminate.
  - exists t. split; assumption.
Defined.

(** ** The router *)

Lemma nth_error_combine {A B : Type} (l : list A) (l' : list B) i x y :
  nth_error l i = Some x -> nth_error l' i = Some y ->
  nth_error (combine l l') i = Some (x, y).
Proof.
  revert l' i. induction l as [|a l IH]; intros [|b l'] [|i] Hx Hy; simpl in *;
    try discriminate.
  - congruence.
  - apply IH; assumption.
Qed.

Lemma setitem_mask_nth {A : Type} (route : list (option A)) mask v i r b :
  nth_error route i = Some r -> nth_error mask i = Some b ->
  nth_error (setitem_mask route mask v) i = Some (if b then Some v else r).
Proof.
  intros Hr Hb. unfold setitem_mask.
  rewrite nth_error_map, (nth_error_combine _ _ _ _ _ Hr Hb). reflexivity.
Qed.

Lemma mask_and_nth a b i x y :
  nth_error a i = Some x -> nth_error b i = Some y ->
  nth_error (mask_and a b) i = Some (x && y).
Proof.
  intros Hx Hy. unfold mask_and.
  rewrite nth_error_map, (nth_error_combine _ _ _ _ _ Hx Hy). reflexivity.
Qed.

Lemma route_with_t1_t2_nth y_score t1 t2 i s :
  nth_error y_score i = Some s ->
  nth_error (route_with_t1_t2 y_score t1 t2) i = Some (route_entry s t1 t2).
Proof.
  intros H. unfold route_with_t1_t2, route_entry.
  assert (Li : (i < List.length y_score)%nat) by (apply nth_error_Some; congruence).
  assert (Hge : forall t, nth_error (np_ge y_score t) i = Some (Qle_bool t s))
    by (intros t; unfold np_ge; rewrite nth_error_map, H; reflexivity).
  assert (Hlt : forall t, nth_error (np_lt y_score t) i = Some (Qlt_bool s t))
    by (intros t; unfold np_lt; rewrite nth_error_map, H; reflexivity).
  apply setitem_mask_nth; [|apply Hge].
  apply setitem_mask_nth; [|apply mask_and_nth; [apply Hge | apply Hlt]].
  apply setitem_mask_nth; [|apply Hlt].
  apply nth_error_repeat, Li.
Qed.

Lemma route_with_t1_t2_length y_score t1 t2 :
  List.length (route_with_t1_t2 y_score t1 t2) = List.length y_score.
Proof.
  unfold route_with_t1_t2, setitem_mask, mask_and, np_ge, np_lt.
  repeat (rewrite ?length_map, ?length_combine, ?repeat_length, ?Nat.min_id).
  reflexivity.
Qed.

(** C4, as the code has it.  For [t1 <= t2] every score gets exactly one of
    the three routes: low_risk iff [score < t1], review iff
    [t1 <= score < t2], high_risk iff [score >= t2].  A score equal to [t2]
    is high_risk; a score equal to [t1] is review when [t1 < t2] (when
    [t1 = t2] the review zone is empty and that score is high_risk). *)
Theorem route_with_t1_t2_partition y_score t1 t2 i s :
  t1 <= t2 ->
  nth_error y_score i = Some s ->
  exists r,
    nth_error (route_with_t1_t2 y_score t1 t2) i = Some (Some r) /\
    (r = low_risk \/ r = review \/ r = high_risk) /\
    (r = low_risk <-> s < t1) /\
    (r = review <-> t1 <= s /\ s < t2) /\
    (r = high_risk <-> t2 <= s) /\
    (s == t2 -> r = high_risk) /\
    (s == t1 -> t1 < t2 -> r = review) /\
    (s == t1 -> t1 == t2 -> r = high_risk).
Proof.
  intros H12 Hs. rewrite (route_with_t1_t2_nth _ t1 t2 _ _ Hs). unfold route_entry.
  assert (D1 : low_risk <> review) by discriminate.
  assert (D2 : low_risk <> high_risk) by discriminate.
  assert (D3 : review <> high_risk) by discriminate.
  destruct (Qle_bool t2 s) eqn:B2.
  - apply Qle_bool_iff in B2. exists high_risk. split; [reflexivity|].
    repeat split; intros; solve [tauto | congruence | lra | exfalso; lra].
  - assert (L2 : s < t2).
    { apply Qnot_le_lt. intros L. apply Qle_bool_iff in L. congruence. }
    assert (B2' : Qlt_bool s t2 = true) by (apply Qlt_bool_iff, L2).
    rewrite B2', andb_true_r.
    destruct (Qle_bool t1 s) eqn:B1.
    + apply Qle_bool_iff in B1. exists review. split; [reflexivity|].
      repeat split; intros; solve [tauto | congruence | lra | exfalso; lra].
    + assert (L1 : s < t1).
      { apply Qnot_le_lt. intros L. apply Qle_bool_iff in L. congruence. }
      assert (B1' : Qlt_bool s t1 = true) by (apply Qlt_bool_iff, L1).
      rewrite B1'. exists low_risk. split; [reflexivity|].
      repeat split; intros; solve [tauto | congruence | lra | exfalso; lra].
Qed.

Lemma route_with_t1_t2_partition_witness :
  exists r,
    nth_error (route_with_t1_t2 (map lit [2#10; 45#100; 9#10]) (lit (45#100)) (lit (55#100))) 1
      = Some (Some r) /\ r = review.
Proof.
  destruct (route_with_t1_t2_partition (map lit [2#10; 45#100; 9#10])
              (lit (45#100)) (lit (55#100)) 1 (lit (45#100)))
    as (r & E & _ & _ & _ & _ & _ & Rv & _).
  - by_compute.
  - reflexivity.
  - exists r. split; [exact E|]. apply Rv; by_compute.
Defined.

(** C4 as stated fails at a degenerate band: with [t1 = t2 = 0.5] the score
    0.5 equals [t1] and is routed to high_risk, not to review. *)
Lemma route_at_t1_not_review :
  (lit (5#10) <= lit (5#10)) /\
  route_with_t1_t2 [lit (5#10)] (lit (5#10)) (lit (5#10)) = [Some high_risk] /\
  high_risk <> review.
Proof. split; [by_compute|]. split; [reflexivity | discriminate]. Qed.

(** ** The threshold grid *)

Lemma increasing_b_Sorted l : increasing_b l = true -> StronglySorted Qlt l.
Proof.
  intros H. apply Sorted_StronglySorted; [intros x y z; apply Qlt_trans|].
  induction l as [|x l IH]; [constructor|].
  destruct l as [|y l]; [repeat constructor|].
  cbn [increasing_b] in H. apply andb_true_iff in H. destruct H as [Hxy H].
  constructor; [apply IH, H|]. constructor. apply Qlt_bool_iff, Hxy.
Qed.

Lemma grid_check_all :
  forallb grid_check (map Z.of_nat (seq 1 99)) = true.
Proof. vm_compute. reflexivity. Qed.

(** C3, as the code has it.  The grid is
    [np.round(np.arange(step, 1.0, step), 2)]: its points are rounded to two
    decimals whatever the step.  For a step of a whole number of hundredths,
    0.01 to 0.99 (the default 0.05 among them), the grid is step, 2 step,
    ... below 1.0 as two-decimal floats; it excludes 0.0 and 1.0 and is
    strictly increasing. *)
Theorem thresholds_of_hundredths (k : Z) :
  (1 <= k <= 99)%Z ->
  exists grid,
    thresholds_of rnd64 (lit (k # 100)) = Ok grid /\
    grid = hundredths_grid k /\
    Forall (fun x => 0 < x /\ x < 1) grid /\
    StronglySorted Qlt grid.
Proof.
  intros Hk.
  assert (I : In k (map Z.of_nat (seq 1 99))).
  { apply in_map_iff. exists (Z.to_nat k). split; [lia | apply in_seq; lia]. }
  pose proof grid_check_all as A. rewrite forallb_forall in A. specialize (A k I).
  unfold grid_check in A.
  destruct (thresholds_of rnd64 (lit (k # 100))) as [grid|]; [|discriminate].
  exists grid. split; [reflexivity|].
  apply andb_true_iff in A. destruct A as [A Inc].
  apply andb_true_iff in A. destruct A as [Eq Bd].
  destruct (list_eq_dec Q_eq_dec grid (hundredths_grid k)) as [E|]; [|discriminate].
  split; [exact E|]. split; [|apply increasing_b_Sorted, Inc].
  apply Forall_forall. intros x Hx. rewrite forallb_forall in Bd.
  specialize (Bd x Hx). apply andb_true_iff in Bd.
  rewrite !Qlt_bool_iff in Bd. exact Bd.
Qed.

Lemma thresholds_of_hundredths_witness :
  exists grid,
    thresholds_of rnd64 (lit (5 # 100)) = Ok grid /\
    grid = map lit [5#100; 10#100; 15#100; 20#100; 25#100; 30#100; 35#100; 40#100;
                    45#100; 50#100; 55#100; 60#100; 65#100; 70#100; 75#100; 80#100;
                    85#100; 90#100; 95#100].
Proof.
  destruct (thresholds_of_hundredths 5) as (grid & E & G & _).
  - lia.
  - exists grid. split; [exact E | exact G].
Defined.

(** C3 as stated fails for a finer step: with [step = 0.004] the first grid
    point is rounded to 0.0, the second and third coincide at 0.01, and the
    last is rounded to 1.0. *)
Lemma thresholds_of_fine_step :
  0 < lit (4 # 1000) /\
  exists grid,
    thresholds_of rnd64 (lit (4 # 1000)) = Ok grid /\
    nth_error grid 0 = Some 0 /\
    nth_error grid 1 = Some (lit (1 # 100)) /\
    nth_error grid 2 = Some (lit (1 # 100)) /\
    nth_error grid 248 = Some 1.
Proof.
  split; [by_compute|].
  destruct (thresholds_of rnd64 (lit (4 # 1000))) as [grid|] eqn:E;
    [|exfalso; revert E; by_compute].
  exists grid. split; [reflexivity|].
  assert (G : Ok grid = thresholds_of rnd64 (lit (4 # 1000))) by (symmetry; exact E).
  clear E. vm_compute in G. injection G as ->. repeat split.
Qed.

(** * Part IV: further properties of the engine *)

(** ** The router on any pair of thresholds *)

Lemma route_entry_cases s t1 t2 :
  (t2 <= s /\ route_entry s t1 t2 = Some high_risk) \/
  (s < t2 /\ t1 <= s /\ route_entry s t1 t2 = Some review) \/
  (s < t2 /\ s < t1 /\ route_entry s t1 t2 = Some low_risk).
Proof.
  unfold route_entry.
  destruct (Qle_bool t2 s) eqn:B2.
  - left. split; [apply Qle_bool_iff, B2 | reflexivity].
  - right.
    assert (L2 : s < t2).
    { apply Qnot_le_lt. intros L. apply Qle_bool_iff in L. congruence. }
    assert (B2' : Qlt_bool s t2 = true) by (apply Qlt_bool_iff, L2).
    rewrite B2', andb_true_r.
    destruct (Qle_bool t1 s) eqn:B1.
    + left. split; [exact L2|]. split; [apply Qle_bool_iff, B1 | reflexivity].
    + right. split; [exact L2|].
      assert (L1 : s < t1).
      { apply Qnot_le_lt. intros L. apply Qle_bool_iff in L. congruence. }
      split; [exact L1|].
      assert (B1' : Qlt_bool s t1 = true) by (apply Qlt_bool_iff, L1).
      rewrite B1'. reflexivity.
Qed.

(** X1.  Whatever the order of [t1] and [t2], the route array has one entry
    per score and every entry is one of the three routes: high_risk exactly
    when [score >= t2], review exactly when [t1 <= score < t2], low_risk
    exactly when the score is below both thresholds.  With an inverted band
    ([t2 < t1]) no score is routed to review. *)
Theorem route_with_t1_t2_any_band y_score t1 t2 i s :
  nth_error y_score i = Some s ->
  List.length (route_with_t1_t2 y_score t1 t2) = List.length y_score /\
  exists r,
    nth_error (route_with_t1_t2 y_score t1 t2) i = Some (Some r) /\
    (r = low_risk \/ r = review \/ r = high_risk) /\
    (r = high_risk <-> t2 <= s) /\
    (r = review <-> t1 <= s /\ s < t2) /\
    (r = low_risk <-> s < t1 /\ s < t2) /\
    (t2 < t1 -> r <> review).
Proof.
  intros Hs. split; [apply route_with_t1_t2_length|].
  rewrite (route_with_t1_t2_nth _ t1 t2 _ _ Hs).
  assert (D1 : low_risk <> review) by discriminate.
  assert (D2 : low_risk <> high_risk) by discriminate.
  assert (D3 : review <> high_risk) by discriminate.
  destruct (route_entry_cases s t1 t2) as [[H2 ->]|[(H2 & H1 & ->)|(H2 & H1 & ->)]];
    eexists; (split; [reflexivity|]);
    repeat split; intros; solve [tauto | congruence | lra | exfalso; lra].
Qed.

Lemma route_with_t1_t2_any_band_witness :
  exists r,
    nth_error (route_with_t1_t2 (map lit [2#10; 5#10; 9#10]) (lit (6#10)) (lit (4#10))) 1
      = Some (Some r) /\ r = high_risk.
Proof.
  destruct (route_with_t1_t2_any_band (map lit [2#10; 5#10; 9#10])
              (lit (6#10)) (lit (4#10)) 1 (lit (5#10)) eq_refl)
    as (_ & r & E & _ & Hh & _).
  exists r. split; [exact E|]. apply Hh. by_compute.
Defined.

(** X2.  Routing is monotone in the score: of two scores of one batch the
    larger never gets the less severe route, whatever the thresholds. *)
Theorem route_with_t1_t2_monotone y_score t1 t2 i j s s' r r' :
  nth_error y_score i = Some s ->
  nth_error y_score j = Some s' ->
  nth_error (route_with_t1_t2 y_score t1 t2) i = Some (Some r) ->
  nth_error (route_with_t1_t2 y_score t1 t2) j = Some (Some r') ->
  s <= s' ->
  (risk_rank r <= risk_rank r')%nat.
Proof.
  intros Hs Hs' Hr Hr' L.
  rewrite (route_with_t1_t2_nth _ t1 t2 _ _ Hs) in Hr.
  rewrite (route_with_t1_t2_nth _ t1 t2 _ _ Hs') in Hr'.
  injection Hr as Hr. injection Hr' as Hr'.
  destruct (route_entry_cases s t1 t2) as [[H2 E]|[(H2 & H1 & E)|(H2 & H1 & E)]];
  destruct (route_entry_cases s' t1 t2) as [[H2' E']|[(H2' & H1' & E')|(H2' & H1' & E')]];
    rewrite E in Hr; rewrite E' in Hr'; injection Hr as <-; injection Hr' as <-;
    try (cbn; lia); exfalso; lra.
Qed.

Lemma route_with_t1_t2_monotone_witness :
  (risk_rank review <= risk_rank high_risk)%nat.
Proof.
  apply (route_with_t1_t2_monotone (map lit [5#10; 9#10]) (lit (4#10)) (lit (6#10))
           0 1 (lit (5#10)) (lit (9#10)) review high_risk);
    try reflexivity.
  by_compute.
Defined.


(** ** The decision packet builder *)

Lemma nth_error_combine_inv {A B : Type} (l : list A) (l' : list B) i x y :
  nth_error (combine l l') i = Some (x, y) ->
  nth_error l i = Some x /\ nth_error l' i = Some y.
Proof.
  revert l' i. induction l as [|a l IH]; intros [|b l'] [|i] H; simpl in *;
    try discriminate.
  - injection H as -> ->. split; reflexivity.
  - apply IH, H.
Qed.

Lemma action_of_entry_route s t1 t2 :
  let a := action_of_entry (route_entry s t1 t2) in
  (a = "intervene_or_block"%string <-> t2 <= s) /\
  (a = "manual_review"%string <-> t1 <= s /\ s < t2) /\
  (a = "auto_approve"%string <-> s < t1 /\ s < t2).
Proof.
  destruct (route_entry_cases s t1 t2) as [[H2 E]|[(H2 & H1 & E)|(H2 & H1 & E)]];
    rewrite E; cbn; repeat split; intros;
    solve [reflexivity | discriminate | assumption | lra | exfalso; lra].
Qed.

(** What a successful call returns: the identifier column exists, the
    lengths agree, and row [i] is assembled from entry [i] of each array. *)
Lemma build_decision_packet_inv df_cases y_score t1 t2 model_name threshold_version packets :
  build_decision_packet df_cases y_score t1 t2 model_name threshold_version = Ok packets ->
  In ID_COL (case_columns df_cases) /\
  List.length (case_ids df_cases) = List.length y_score /\
  List.length packets = List.length y_score /\
  forall i p, nth_error packets i = Some p ->
    exists id s,
      nth_error (case_ids df_cases) i = Some id /\
      nth_error y_score i = Some s /\
      p = {| Packet.Customer_ID := id; Packet.score := s;
             Packet.t1 := t1; Packet.t2 := t2;
             Packet.route := route_entry s t1 t2;
             Packet.action := action_of_entry (route_entry s t1 t2);
             Packet.model_name := model_name;
             Packet.threshold_version := threshold_version |}.
Proof.
  unfold build_decision_packet, getitem_ids.
  destruct (existsb (String.eqb ID_COL) (case_columns df_cases)) eqn:C; [|discriminate].
  cbn [bind]. unfold pd_DataFrame_packet.
  destruct (Nat.eqb_spec (List.length y_score) (List.length (case_ids df_cases))) as [E|];
    [|discriminate].
  rewrite length_map, route_with_t1_t2_length, (proj2 (Nat.eqb_eq _ _) E). cbn [andb].
  intros H. injection H as <-.
  split.
  { apply existsb_exists in C. destruct C as (c & I & Ec).
    apply String.eqb_eq in Ec. subst c. exact I. }
  split; [symmetry; exact E|]. split.
  { rewrite length_map, !length_combine, length_map, route_with_t1_t2_length. lia. }
  intros i p Hp. rewrite nth_error_map in Hp.
  destruct (nth_error (combine _ _) i) as [[id [s [r a]]]|] eqn:N; [|discriminate].
  cbn in Hp. injection Hp as <-.
  apply nth_error_combine_inv in N. destruct N as [Nid N].
  apply nth_error_combine_inv in N. destruct N as [Ns N].
  apply nth_error_combine_inv in N. destruct N as [Nr Na].
  rewrite (route_with_t1_t2_nth _ t1 t2 _ _ Ns) in Nr. injection Nr as <-.
  rewrite nth_error_map, (route_with_t1_t2_nth _ t1 t2 _ _ Ns) in Na.
  cbn in Na. injection Na as <-.
  exists id, s. repeat split; assumption.
Qed.

Lemma build_decision_packet_Ok df_cases y_score t1 t2 model_name threshold_version :
  In ID_COL (case_columns df_cases) ->
  List.length (case_ids df_cases) = List.length y_score ->
  exists packets,
    build_decision_packet df_cases y_score t1 t2 model_name threshold_version = Ok packets.
Proof.
  intros C E. unfold build_decision_packet, getitem_ids.
  rewrite (existsb_eqb_In _ _ C). cbn [bind]. unfold pd_DataFrame_packet.
  rewrite length_map, route_with_t1_t2_length, E, Nat.eqb_refl. cbn [andb].
  eexists. reflexivity.
Qed.

(** X3.  When the frame of cases has the identifier column and as many
    identifiers as there are scores, the builder returns one packet per
    case, in the order of the input: packet [i] carries identifier [i] and
    score [i], and every packet carries the same [t1], [t2], model name and
    threshold version.  No case is dropped or duplicated. *)
Theorem build_decision_packet_rows df_cases y_score t1 t2 model_name threshold_version :
  In ID_COL (case_columns df_cases) ->
  List.length (case_ids df_cases) = List.length y_score ->
  exists packets,
    build_decision_packet df_cases y_score t1 t2 model_name threshold_version = Ok packets /\
    List.length packets = List.length y_score /\
    map Packet.Customer_ID packets = case_ids df_cases /\
    map Packet.score packets = y_score /\
    forall p, In p packets ->
      Packet.t1 p = t1 /\ Packet.t2 p = t2 /\
      Packet.model_name p = model_name /\
      Packet.threshold_version p = threshold_version.
Proof.
  intros C E.
  destruct (build_decision_packet_Ok df_cases y_score t1 t2 model_name threshold_version C E)
    as [packets H].
  destruct (build_decision_packet_inv _ _ _ _ _ _ _ H) as (_ & _ & L & N).
  exists packets. split; [exact H|]. split; [exact L|].
  assert (Col : forall (A : Type) (f : Packet.row -> A) (l : list A),
            List.length l = List.length packets ->
            (forall i p x, nth_error packets i = Some p -> nth_error l i = Some x -> f p = x) ->
            map f packets = l).
  { intros A f l Hl Hn. apply nth_error_ext. intros i. rewrite nth_error_map.
    destruct (nth_error packets i) as [p|] eqn:P.
    - destruct (nth_error l i) as [x|] eqn:X.
      + cbn. f_equal. apply (Hn i p x P X).
      + apply nth_error_None in X. assert (i < List.length packets)%nat
          by (apply nth_error_Some; congruence). lia.
    - cbn. symmetry. apply nth_error_None. apply nth_error_None in P. lia. }
  split; [|split].
  - apply Col; [lia|]. intros i p x P X.
    destruct (N i p P) as (id & s & Nid & _ & ->). cbn. congruence.
  - apply Col; [lia|]. intros i p x P X.
    destruct (N i p P) as (id & s & _ & Ns & ->). cbn. congruence.
  - intros p I. apply In_nth_error in I. destruct I as [i P].
    destruct (N i p P) as (id & s & _ & _ & ->). cbn. repeat split.
Qed.

Lemma build_decision_packet_rows_witness :
  exists packets,
    build_decision_packet (mkCaseFrame [ID_COL; "Age"%string] ["A1"; "A2"; "A3"]%string)
      (map lit [2#10; 5#10; 9#10]) (lit (45#100)) (lit (55#100))
      "logreg" "logreg_v1_t0.5" = Ok packets /\
    List.length packets = 3%nat /\
    map Packet.Customer_ID packets = ["A1"; "A2"; "A3"]%string.
Proof.
  destruct (build_decision_packet_rows
              (mkCaseFrame [ID_COL; "Age"%string] ["A1"; "A2"; "A3"]%string)
              (map lit [2#10; 5#10; 9#10]) (lit (45#100)) (lit (55#100))
              "logreg" "logreg_v1_t0.5")
    as (packets & H & L & Ids & _).
  - left. reflexivity.
  - reflexivity.
  - exists packets. split; [exact H|]. split; [exact L | exact Ids].
Defined.

(** X4.  In every packet the built route is the router's route of the
    packet's own score and the action is that route's action: the case is
    blocked exactly when [score >= t2], reviewed by hand exactly when
    [t1 <= score < t2] and auto-approved exactly when the score is below
    both thresholds. *)
Theorem build_decision_packet_actions df_cases y_score t1 t2 model_name threshold_version
  packets p :
  build_decision_packet df_cases y_score t1 t2 model_name threshold_version = Ok packets ->
  In p packets ->
  Packet.route p = route_entry (Packet.score p) t1 t2 /\
  Packet.action p = action_of_entry (Packet.route p) /\
  (Packet.action p = "intervene_or_block"%string <-> t2 <= Packet.score p) /\
  (Packet.action p = "manual_review"%string <-> t1 <= Packet.score p /\ Packet.score p < t2) /\
  (Packet.action p = "auto_approve"%string <-> Packet.score p < t1 /\ Packet.score p < t2).
Proof.
  intros H I.
  destruct (build_decision_packet_inv _ _ _ _ _ _ _ H) as (_ & _ & _ & N).
  apply In_nth_error in I. destruct I as [i P].
  destruct (N i p P) as (id & s & _ & _ & ->). cbn [Packet.route Packet.action Packet.score].
  split; [reflexivity|]. split; [reflexivity|].
  exact (action_of_entry_route s t1 t2).
Qed.

Lemma build_decision_packet_actions_witness :
  exists packets p,
    build_decision_packet (mkCaseFrame [ID_COL] ["A1"; "A2"; "A3"]%string)
      (map lit [2#10; 5#10; 9#10]) (lit (45#100)) (lit (55#100))
      "tree" "tree_v1" = Ok packets /\
    nth_error packets 2 = Some p /\
    Packet.action p = "intervene_or_block"%string.
Proof.
  destruct (build_decision_packet (mkCaseFrame [ID_COL] ["A1"; "A2"; "A3"]%string)
              (map lit [2#10; 5#10; 9#10]) (lit (45#100)) (lit (55#100)) "tree" "tree_v1")
    as [packets|] eqn:H; [|exfalso; revert H; by_compute].
  destruct (nth_error packets 2) as [p|] eqn:P;
    [|exfalso; revert P; vm_compute in H; injection H as <-; discriminate].
  destruct (build_decision_packet_actions _ _ _ _ _ _ packets p H (nth_error_In _ _ P))
    as (_ & _ & Hb & _).
  exists packets, p. split; [reflexivity|]. split; [exact P|].
  apply Hb. vm_compute in H. injection H as <-. injection P as <-. by_compute.
Defined.

(** X5.  The builder returns packets exactly when the frame has the
    identifier column and the identifiers are as many as the scores.
    Otherwise it raises and returns no packet: [KeyError] naming the column
    when it is missing, else pandas' [ValueError] for arrays of different
    lengths. *)
Theorem build_decision_packet_errors df_cases y_score t1 t2 model_name threshold_version :
  match build_decision_packet df_cases y_score t1 t2 model_name threshold_version with
  | Ok packets =>
      In ID_COL (case_columns df_cases) /\
      List.length (case_ids df_cases) = List.length y_score
  | Raise e =>
      (~ In ID_COL (case_columns df_cases) /\ e = KeyError "Customer_ID") \/
      (In ID_COL (case_columns df_cases) /\
       List.length (case_ids df_cases) <> List.length y_score /\
       e = ValueError "All arrays must be of the same length")
  end.
Proof.
  destruct (build_decision_packet _ _ _ _ _ _) as [packets|e] eqn:H.
  - destruct (build_decision_packet_inv _ _ _ _ _ _ _ H) as (C & E & _). split; assumption.
  - revert H. unfold build_decision_packet, getitem_ids.
    destruct (existsb (String.eqb ID_COL) (case_columns df_cases)) eqn:C.
    + cbn [bind]. unfold pd_DataFrame_packet.
      destruct (Nat.eqb_spec (List.length y_score) (List.length (case_ids df_cases))) as [E|NE].
      * rewrite length_map, route_with_t1_t2_length, (proj2 (Nat.eqb_eq _ _) E). discriminate.
      * cbn [andb]. intros H. injection H as <-. right.
        split; [|split; [congruence | reflexivity]].
        apply existsb_exists in C. destruct C as (c & I & Ec).
        apply String.eqb_eq in Ec. subst c. exact I.
    + cbn [bind]. intros H. injection H as <-. left. split; [|reflexivity].
      intros I. rewrite (existsb_eqb_In _ _ I) in C. discriminate.
Qed.

(** ** The evaluator on inputs of different lengths *)

Lemma np_and_mismatch (a b : list bool) :
  List.length a <> List.length b -> List.length a <> 1%nat -> List.length b <> 1%nat ->
  np_and a b = Raise (broadcast_error (List.length a) (List.length b)).
Proof.
  intros N Na Nb. unfold np_and.
  destruct (Nat.eqb_spec (List.length a) (List.length b)) as [E|_]; [contradiction|].
  destruct a as [|x [|x' a]], b as [|y [|y' b]];
    solve [reflexivity | exfalso; cbn [List.length] in *; lia].
Qed.

Lemma np_and_broadcast_r (a : list bool) (c : bool) :
  np_and a [c] = Ok (map (fun x => x && c) a).
Proof.
  unfold np_and. destruct a as [|x [|x' a]]; reflexivity.
Qed.

Lemma np_and_broadcast_l (c : bool) (b : list bool) :
  np_and [c] b = Ok (map (fun y => c && y) b).
Proof.
  unfold np_and. destruct b as [|y [|y' b]]; reflexivity.
Qed.

Lemma combine_repeat_r {A B : Type} (a : list A) (c : B) :
  combine a (repeat c (List.length a)) = map (fun x => (x, c)) a.
Proof. induction a as [|x a IH]; cbn; [reflexivity | rewrite IH; reflexivity]. Qed.

Lemma combine_repeat_l {A B : Type} (c : A) (b : list B) :
  combine (repeat c (List.length b)) b = map (fun y => (c, y)) b.
Proof. induction b as [|y b IH]; cbn; [reflexivity | rewrite IH; reflexivity]. Qed.

Lemma map_repeat_const {A B : Type} (f : A -> B) (c : A) n :
  map f (repeat c n) = repeat (f c) n.
Proof. induction n as [|n IH]; cbn; [reflexivity | rewrite IH; reflexivity]. Qed.

Lemma count_pairs_single_label y_pred y p l :
  count_pairs y_pred [y] p l = count_pairs y_pred (repeat y (List.length y_pred)) p l.
Proof.
  unfold count_pairs. unfold np_eq at 2 4. cbn [map].
  rewrite np_and_broadcast_r, map_repeat_const.
  rewrite np_and_same_length by (rewrite repeat_length; unfold np_eq; apply length_map).
  replace (List.length y_pred) with (List.length (np_eq y_pred p))
    by (unfold np_eq; apply length_map).
  rewrite combine_repeat_r, map_map. reflexivity.
Qed.

Lemma count_pairs_single_pred x y_true p l :
  count_pairs [x] y_true p l = count_pairs (repeat x (List.length y_true)) y_true p l.
Proof.
  unfold count_pairs. unfold np_eq at 1 3. cbn [map].
  rewrite np_and_broadcast_l, map_repeat_const.
  rewrite np_and_same_length by (rewrite repeat_length; unfold np_eq; symmetry; apply length_map).
  replace (List.length y_true) with (List.length (np_eq y_true l))
    by (unfold np_eq; apply length_map).
  rewrite combine_repeat_l, map_map. reflexivity.
Qed.

(** X6.  Labels and scores of different lengths, neither of length one, are
    rejected whatever the threshold and the rounding: the evaluator raises
    numpy's broadcast [ValueError], whose message names the shape of the
    predictions (one per score) and then the shape of the labels, and
    returns no row. *)
Theorem metrics_at_threshold_length_mismatch rnd y_true y_score t :
  List.length y_true <> List.length y_score ->
  List.length y_true <> 1%nat -> List.length y_score <> 1%nat ->
  metrics_at_threshold rnd y_true y_score t
  = Raise (broadcast_error (List.length y_score) (List.length y_true)) /\
  exn_name (broadcast_error (List.length y_score) (List.length y_true))
  = "ValueError"%string.
Proof.
  intros N N1 N2. split; [|reflexivity].
  unfold metrics_at_threshold, count_pairs.
  rewrite np_and_mismatch;
    unfold np_eq; rewrite ?length_map, ?y_pred_of_length; [reflexivity| | |]; congruence.
Qed.

Lemma metrics_at_threshold_length_mismatch_witness :
  metrics_at_threshold rnd64 [1; 0; 1]%Z [lit (9#10); lit (2#10)] (lit (5#10))
  = Raise (ValueError
             "operands could not be broadcast together with shapes (2,) (3,) ").
Proof.
  destruct (metrics_at_threshold_length_mismatch rnd64 [1; 0; 1]%Z [lit (9#10); lit (2#10)]
              (lit (5#10))) as [H _].
  - cbn. lia.
  - cbn. lia.
  - cbn. lia.
  - exact H.
Defined.

(** X7.  A length mismatch is not always rejected: a single label is
    broadcast against all the scores, and a single score against all the
    labels, without an error; the row is the one of the dataset in which
    the single entry is repeated. *)
Theorem metrics_at_threshold_broadcast rnd (y : Z) (s : Q) y_true y_score t :
  metrics_at_threshold rnd [y] y_score t
  = metrics_at_threshold rnd (repeat y (List.length y_score)) y_score t /\
  metrics_at_threshold rnd y_true [s] t
  = metrics_at_threshold rnd y_true (repeat s (List.length y_true)) t.
Proof.
  split.
  - unfold metrics_at_threshold. rewrite !count_pairs_single_label, y_pred_of_length.
    reflexivity.
  - unfold metrics_at_threshold.
    assert (E : y_pred_of (repeat s (List.length y_true)) t
                = repeat (if Qle_bool t s then 1%Z else 0%Z) (List.length y_true)).
    { unfold y_pred_of, astype_int, np_ge. rewrite !map_repeat_const. reflexivity. }
    rewrite E. unfold y_pred_of, astype_int, np_ge. cbn [map].
    rewrite !count_pairs_single_pred. reflexivity.
Qed.

(** ** The evaluator at extreme thresholds and along the threshold *)

Lemma count_cases_ext_scores f g y_score y_true :
  (forall s y, In s y_score -> f s y = g s y) ->
  count_cases f y_score y_true = count_cases g y_score y_true.
Proof.
  intros H. unfold count_cases. f_equal. f_equal.
  apply filter_ext_in. intros [s y] I. apply H. simpl.
  eapply in_combine_l. exact I.
Qed.

Lemma count_cases_none y_score y_true : count_cases (fun _ _ => false) y_score y_true = 0%Z.
Proof.
  unfold count_cases. induction (combine y_score y_true) as [|c l IH]; [reflexivity|].
  exact IH.
Qed.

Lemma count_cases_negatives y_score y_true :
  List.length y_true = List.length y_score ->
  count_cases (fun _ y => (y =? 0)%Z) y_score y_true = negatives y_true.
Proof.
  intros E. unfold count_cases, negatives. apply f_equal. revert y_true E.
  induction y_score as [|s y_score IH]; intros [|y y_true] E; try discriminate; [reflexivity|].
  simpl in *. injection E as E. specialize (IH _ E).
  destruct (y =? 0)%Z; simpl; rewrite IH; reflexivity.
Qed.

Lemma fp_tn_negatives y_score y_true t :
  List.length y_true = List.length y_score ->
  (fp_of y_score y_true t + tn_of y_score y_true t = negatives y_true)%Z.
Proof.
  intros E. rewrite <- (count_cases_negatives y_score y_true E).
  apply count_cases_split; intros s y; destruct (Qle_bool t s), (y =? 0)%Z; reflexivity.
Qed.

Lemma fp_of_antitone y_score y_true t1 t2 :
  t1 <= t2 -> (fp_of y_score y_true t2 <= fp_of y_score y_true t1)%Z.
Proof.
  intros H. apply count_cases_le. intros s y F.
  apply andb_true_iff in F. destruct F as [F1 F2]. rewrite F2, andb_true_r.
  apply Qle_bool_iff. apply Qle_bool_iff in F1. lra.
Qed.

Lemma Qle_bool_false t s : s < t -> Qle_bool t s = false.
Proof.
  intros L. destruct (Qle_bool t s) eqn:B; [|reflexivity].
  apply Qle_bool_iff in B. lra.
Qed.

Lemma inject_Z_pos_nz (n : Z) : (0 < n)%Z -> ~ inject_Z n == 0.
Proof.
  intros P E. assert (E' : inject_Z n == inject_Z 0) by exact E.
  rewrite inject_Z_injective in E'. lia.
Qed.

Section Evaluator.

Variable rnd : Q -> Q.
Context {RND : Rounding rnd}.

Lemma int_truediv_zero b : int_truediv rnd 0 b == 0.
Proof.
  unfold int_truediv. rewrite (rnd_comp rnd _ 0); [apply rnd_0|].
  change (inject_Z 0) with 0. unfold Qdiv. ring.
Qed.

Lemma int_truediv_self b : (0 < b)%Z -> int_truediv rnd b b == 1.
Proof.
  intros P. unfold int_truediv. rewrite (rnd_comp rnd _ 1); [apply rnd_1|].
  field. apply inject_Z_pos_nz, P.
Qed.

Lemma rnd_2 : rnd 2 == 2.
Proof.
  rewrite (rnd_comp rnd 2 (2 * rnd 1)) by (rewrite rnd_1; reflexivity).
  rewrite rnd_double, rnd_1. reflexivity.
Qed.

(** The row of a dataset of equal lengths, with its counts and ratios read
    off the dataset. *)
Lemma metrics_at_threshold_row y_true y_score t :
  List.length y_true = List.length y_score ->
  exists m, metrics_at_threshold rnd y_true y_score t = Ok m /\
    Row.tp m = tp_of y_score y_true t /\ Row.fp m = fp_of y_score y_true t /\
    Row.tn m = tn_of y_score y_true t /\ Row.fn m = fn_of y_score y_true t /\
    (Row.tp m + Row.fn m = positives y_true)%Z /\
    (Row.fp m + Row.tn m = negatives y_true)%Z /\
    (0 <= Row.tp m)%Z /\ (0 <= Row.fp m)%Z /\ (0 <= Row.tn m)%Z /\ (0 <= Row.fn m)%Z /\
    ratios_ok rnd m.
Proof.
  intros E.
  destruct (metrics_at_threshold_counts rnd y_true y_score t E)
    as (m & Hm & Htp & Hfp & Htn & Hfn).
  destruct (metrics_at_threshold_inv rnd _ _ _ _ Hm) as (_ & P1 & P2 & P3 & P4 & R).
  exists m. repeat (split; [assumption|]).
  split; [rewrite Htp, Hfn; apply tp_fn_positives, E|].
  split; [rewrite Hfp, Htn; apply fp_tn_negatives, E|].
  repeat (split; [assumption|]). exact R.
Qed.

(** X8.  A threshold at or below every score flags every case: nothing is
    missed ([fn = 0], [fnr] is 0) and nothing is cleared ([tn = 0]); every
    positive label is a true positive and every negative label a false
    positive, so recall is 1 when there is a positive and [fpr] is 1 when
    there is a negative. *)
Theorem metrics_at_threshold_flag_all y_true y_score t :
  List.length y_true = List.length y_score ->
  Forall (fun s => t <= s) y_score ->
  exists m,
    metrics_at_threshold rnd y_true y_score t = Ok m /\
    Row.fn m = 0%Z /\ Row.tn m = 0%Z /\
    Row.tp m = positives y_true /\ Row.fp m = negatives y_true /\
    Row.fnr m == 0 /\
    ((0 < positives y_true)%Z -> Row.recall m == 1) /\
    ((0 < negatives y_true)%Z -> Row.fpr m == 1).
Proof.
  intros E A. rewrite Forall_forall in A.
  destruct (metrics_at_threshold_row y_true y_score t E)
    as (m & Hm & Htp & Hfp & Htn & Hfn & Hp & Hn & _ & _ & _ & _ & R).
  destruct R as (_ & Er & En & Ef & _).
  assert (Zfn : Row.fn m = 0%Z).
  { rewrite Hfn. unfold fn_of.
    rewrite (count_cases_ext_scores _ (fun _ _ => false)); [apply count_cases_none|].
    intros s y I. rewrite (proj2 (Qle_bool_iff t s) (A s I)). reflexivity. }
  assert (Ztn : Row.tn m = 0%Z).
  { rewrite Htn. unfold tn_of.
    rewrite (count_cases_ext_scores _ (fun _ _ => false)); [apply count_cases_none|].
    intros s y I. rewrite (proj2 (Qle_bool_iff t s) (A s I)). reflexivity. }
  exists m. split; [exact Hm|]. split; [exact Zfn|]. split; [exact Ztn|].
  split; [lia|]. split; [lia|]. split; [|split].
  - rewrite En. destruct (Row.tp m + Row.fn m =? 0)%Z; [reflexivity|].
    rewrite Zfn. apply int_truediv_zero.
  - intros P. rewrite Er. rewrite Zfn, Z.add_0_r in *.
    destruct (Z.eqb_spec (Row.tp m) 0) as [Z|_]; [lia|]. apply int_truediv_self. lia.
  - intros P. rewrite Ef. rewrite Ztn, Z.add_0_r in *.
    destruct (Z.eqb_spec (Row.fp m) 0) as [Z|_]; [lia|]. apply int_truediv_self. lia.
Qed.

(** X9.  A threshold above every score flags no case: [tp = fp = 0],
    every positive label is missed and every negative label cleared;
    precision, recall, f1 and [fpr] are 0 (no division by zero occurs), and
    [fnr] is 1 when there is a positive. *)
Theorem metrics_at_threshold_flag_none y_true y_score t :
  List.length y_true = List.length y_score ->
  Forall (fun s => s < t) y_score ->
  exists m,
    metrics_at_threshold rnd y_true y_score t = Ok m /\
    Row.tp m = 0%Z /\ Row.fp m = 0%Z /\
    Row.fn m = positives y_true /\ Row.tn m = negatives y_true /\
    Row.precision m = 0 /\ Row.recall m == 0 /\ Row.f1 m = 0 /\ Row.fpr m == 0 /\
    ((0 < positives y_true)%Z -> Row.fnr m == 1).
Proof.
  intros E A. rewrite Forall_forall in A.
  destruct (metrics_at_threshold_row y_true y_score t E)
    as (m & Hm & Htp & Hfp & Htn & Hfn & Hp & Hn & _ & _ & _ & _ & R).
  destruct R as (Ep & Er & En & Ef & E1).
  assert (Ztp : Row.tp m = 0%Z).
  { rewrite Htp. unfold tp_of.
    rewrite (count_cases_ext_scores _ (fun _ _ => false)); [apply count_cases_none|].
    intros s y I. rewrite (Qle_bool_false t s (A s I)). reflexivity. }
  assert (Zfp : Row.fp m = 0%Z).
  { rewrite Hfp. unfold fp_of.
    rewrite (count_cases_ext_scores _ (fun _ _ => false)); [apply count_cases_none|].
    intros s y I. rewrite (Qle_bool_false t s (A s I)). reflexivity. }
  assert (P0 : Row.precision m = 0) by (rewrite Ep, Ztp, Zfp; reflexivity).
  assert (R0 : Row.recall m == 0).
  { rewrite Er. destruct (Row.tp m + Row.fn m =? 0)%Z; [reflexivity|].
    rewrite Ztp. apply int_truediv_zero. }
  exists m. split; [exact Hm|]. split; [exact Ztp|]. split; [exact Zfp|].
  split; [lia|]. split; [lia|]. split; [exact P0|]. split; [exact R0|].
  split; [|split].
  - rewrite E1.
    assert (S0 : fadd rnd (Row.precision m) (Row.recall m) == 0).
    { unfold fadd. rewrite (rnd_comp rnd _ 0); [apply rnd_0|]. rewrite P0, R0. reflexivity. }
    apply Qeq_bool_iff in S0. rewrite S0. reflexivity.
  - rewrite Ef. destruct (Row.fp m + Row.tn m =? 0)%Z; [reflexivity|].
    rewrite Zfp. apply int_truediv_zero.
  - intros P. rewrite En. rewrite Ztp, Z.add_0_l in *.
    destruct (Z.eqb_spec (Row.fn m) 0) as [Z|_]; [lia|]. apply int_truediv_self. lia.
Qed.

(** X10.  A row without an error ([fp = fn = 0]) and with a true positive
    has precision, recall and f1 equal to 1 and [fnr] equal to 0, in every
    rounding: the floating-point f1 of a perfect separation is exactly 1. *)
Theorem metrics_at_threshold_perfect y_true y_score t m :
  metrics_at_threshold rnd y_true y_score t = Ok m ->
  Row.fp m = 0%Z -> Row.fn m = 0%Z -> (0 < Row.tp m)%Z ->
  Row.precision m == 1 /\ Row.recall m == 1 /\ Row.fnr m == 0 /\ Row.fpr m == 0 /\
  Row.f1 m == 1.
Proof.
  intros Hm Zfp Zfn P.
  destruct (metrics_at_threshold_inv rnd _ _ _ _ Hm) as (_ & _ & _ & _ & _ & R).
  destruct R as (Ep & Er & En & Ef & E1).
  rewrite Zfp, Zfn, ?Z.add_0_r, ?Z.add_0_l in *.
  destruct (Z.eqb_spec (Row.tp m) 0) as [Z|_]; [lia|].
  assert (P1 : Row.precision m == 1) by (rewrite Ep; apply int_truediv_self, P).
  assert (R1 : Row.recall m == 1) by (rewrite Er; apply int_truediv_self, P).
  split; [exact P1|]. split; [exact R1|].
  split; [rewrite En; apply int_truediv_zero|].
  split; [rewrite Ef; destruct (Row.tn m =? 0)%Z; [reflexivity | apply int_truediv_zero]|].
  assert (S2 : fadd rnd (Row.precision m) (Row.recall m) == 2).
  { unfold fadd. rewrite (rnd_comp rnd _ 2); [apply rnd_2|]. rewrite P1, R1. reflexivity. }
  assert (M2 : fmul rnd (fmul rnd 2 (Row.precision m)) (Row.recall m) == 2).
  { unfold fmul. rewrite (rnd_comp rnd _ 2); [apply rnd_2|].
    rewrite R1, (rnd_comp rnd _ 2); [rewrite rnd_2; reflexivity|].
    rewrite P1. reflexivity. }
  rewrite E1. destruct (Qeq_bool _ 0) eqn:Q.
  - apply Qeq_bool_iff in Q. rewrite S2 in Q. discriminate.
  - unfold fdiv. rewrite (rnd_comp rnd _ 1); [apply rnd_1|]. rewrite M2, S2. reflexivity.
Qed.

(** X11.  On one dataset, raising the threshold never flags more cases:
    [tp] and [fp] do not grow, [fn] and [tn] do not shrink, and so [fnr]
    does not decrease while [fpr] and recall do not increase; [tp + fn] and
    [fp + tn] stay the numbers of positive and of negative labels. *)
Theorem metrics_at_threshold_monotone y_true y_score t t' :
  List.length y_true = List.length y_score ->
  t <= t' ->
  exists m m',
    metrics_at_threshold rnd y_true y_score t = Ok m /\
    metrics_at_threshold rnd y_true y_score t' = Ok m' /\
    (Row.tp m' <= Row.tp m)%Z /\ (Row.fp m' <= Row.fp m)%Z /\
    (Row.fn m <= Row.fn m')%Z /\ (Row.tn m <= Row.tn m')%Z /\
    (Row.tp m + Row.fn m = positives y_true)%Z /\
    (Row.tp m' + Row.fn m' = positives y_true)%Z /\
    (Row.fp m + Row.tn m = negatives y_true)%Z /\
    (Row.fp m' + Row.tn m' = negatives y_true)%Z /\
    Row.fnr m <= Row.fnr m' /\ Row.fpr m' <= Row.fpr m /\ Row.recall m' <= Row.recall m.
Proof.
  intros E L.
  destruct (metrics_at_threshold_row y_true y_score t E)
    as (m & Hm & Htp & Hfp & Htn & Hfn & Hp & Hn & _ & _ & _ & _ & R).
  destruct (metrics_at_threshold_row y_true y_score t' E)
    as (m' & Hm' & Htp' & Hfp' & Htn' & Hfn' & Hp' & Hn' & _ & _ & _ & _ & R').
  destruct R as (_ & Er & En & Ef & _). destruct R' as (_ & Er' & En' & Ef' & _).
  pose proof (tp_of_antitone y_score y_true t t' L) as Atp.
  pose proof (fp_of_antitone y_score y_true t t' L) as Afp.
  rewrite <- Htp, <- Htp' in Atp. rewrite <- Hfp, <- Hfp' in Afp.
  pose proof (positives_nonneg y_true) as Pp.
  assert (Pn : (0 <= negatives y_true)%Z) by (unfold negatives; lia).
  exists m, m'. split; [exact Hm|]. split; [exact Hm'|].
  split; [exact Atp|]. split; [exact Afp|]. split; [lia|]. split; [lia|].
  repeat (split; [assumption|]).
  rewrite Er, Er', En, En', Ef, Ef', Hp, Hp', Hn, Hn'.
  split; [|split].
  - destruct (Z.eqb_spec (positives y_true) 0); [lra|]. apply int_truediv_mono; [exact RND|lia|lia].
  - destruct (Z.eqb_spec (negatives y_true) 0); [lra|]. apply int_truediv_mono; [exact RND|lia|lia].
  - destruct (Z.eqb_spec (positives y_true) 0); [lra|]. apply int_truediv_mono; [exact RND|lia|lia].
Qed.

End Evaluator.

Lemma metrics_at_threshold_flag_all_witness :
  exists m,
    metrics_at_threshold rnd64 scenario_labels scenario_scores (lit (1#10)) = Ok m /\
    Row.fn m = 0%Z /\ Row.tn m = 0%Z /\ Row.recall m == 1 /\ Row.fpr m == 1.
Proof.
  destruct (metrics_at_threshold_flag_all rnd64 scenario_labels scenario_scores (lit (1#10)))
    as (m & Hm & Zfn & Ztn & _ & _ & _ & Hr & Hf).
  - reflexivity.
  - repeat (apply Forall_cons; [by_compute|]). apply Forall_nil.
  - exists m. split; [exact Hm|]. split; [exact Zfn|]. split; [exact Ztn|].
    split; [apply Hr | apply Hf]; reflexivity.
Defined.

Lemma metrics_at_threshold_flag_none_witness :
  exists m,
    metrics_at_threshold rnd64 scenario_labels scenario_scores (lit (95#100)) = Ok m /\
    Row.tp m = 0%Z /\ Row.fp m = 0%Z /\ Row.f1 m = 0 /\ Row.fnr m == 1.
Proof.
  destruct (metrics_at_threshold_flag_none rnd64 scenario_labels scenario_scores (lit (95#100)))
    as (m & Hm & Ztp & Zfp & _ & _ & _ & _ & F1 & _ & Hn).
  - reflexivity.
  - repeat (apply Forall_cons; [by_compute|]). apply Forall_nil.
  - exists m. split; [exact Hm|]. split; [exact Ztp|]. split; [exact Zfp|].
    split; [exact F1 | apply Hn; reflexivity].
Defined.

Lemma metrics_at_threshold_perfect_witness :
  exists m,
    metrics_at_threshold rnd64 scenario_labels scenario_scores (lit (5#10)) = Ok m /\
    Row.precision m == 1 /\ Row.recall m == 1 /\ Row.f1 m == 1.
Proof.
  destruct (metrics_at_threshold rnd64 scenario_labels scenario_scores (lit (5#10)))
    as [m|] eqn:Hm; [|exfalso; revert Hm; by_compute].
  destruct (metrics_at_threshold_perfect rnd64 _ _ _ m Hm) as (P1 & R1 & _ & _ & F1).
  - vm_compute in Hm. injection Hm as <-. reflexivity.
  - vm_compute in Hm. injection Hm as <-. reflexivity.
  - vm_compute in Hm. injection Hm as <-. reflexivity.
  - exists m. split; [reflexivity|]. split; [exact P1|]. split; [exact R1 | exact F1].
Defined.

Lemma metrics_at_threshold_monotone_witness :
  exists m m',
    metrics_at_threshold rnd64 scenario_labels scenario_scores (lit (5#10)) = Ok m /\
    metrics_at_threshold rnd64 scenario_labels scenario_scores (lit (7#10)) = Ok m' /\
    Row.fnr m <= Row.fnr m' /\ Row.fpr m' <= Row.fpr m.
Proof.
  destruct (metrics_at_threshold_monotone rnd64 scenario_labels scenario_scores
              (lit (5#10)) (lit (7#10)))
    as (m & m' & Hm & Hm' & _ & _ & _ & _ & _ & _ & _ & _ & Hn & Hf & _).
  - reflexivity.
  - by_compute.
  - exists m, m'. split; [exact Hm|]. split; [exact Hm'|]. split; [exact Hn | exact Hf].
Defined.

(** ** The miss rate against one minus the recall *)

Lemma round_even_error y : Qabs (inject_Z (round_even y) - y) <= 1 # 2.
Proof.
  pose proof (Qfloor_bounds y) as [B1 B2].
  apply Qabs_Qle_condition.
  destruct (round_even_cases y) as [[H ->]|[[H ->]|[H E]]].
  - split; lra.
  - rewrite inject_Z_plus. change (inject_Z 1) with 1. split; lra.
  - rewrite E. destruct (Z.even (Qfloor y)).
    + split; lra.
    + rewrite inject_Z_plus. change (inject_Z 1) with 1. split; lra.
Qed.

(** The error of a rounding is at most half a unit in the last place. *)
Lemma rnd64_error x : ~ x == 0 -> Qabs (rnd64 x - x) <= (1 # 2) * pow2 (fexp x).
Proof.
  intros NZ. rewrite (rnd64_nz x NZ).
  pose proof (pow2_pos (fexp x)) as P.
  set (p := pow2 (fexp x)) in *.
  setoid_replace (inject_Z (round_even (x / p)) * p - x)
    with ((inject_Z (round_even (x / p)) - x / p) * p) by (field; lra).
  rewrite Qabs_Qmult, (Qabs_pos p) by lra.
  apply Qmult_le_compat_r; [apply round_even_error | lra].
Qed.

Lemma fexp_below_one x : 0 < x -> x < 1 -> (fexp x <= -53)%Z.
Proof.
  intros P L. assert (NZ : ~ x == 0) by lra.
  pose proof (fexp_ge_emin x) as G.
  destruct (Z.eq_dec (fexp x) emin) as [E|N]; [rewrite E; unfold emin; lia|].
  assert (S : (emin < fexp x)%Z) by lia.
  pose proof (fexp_lower x NZ S) as Lo. rewrite (Qabs_pos x) in Lo by lra.
  assert (Lt : pow2 (fexp x + 52) < pow2 0).
  { change (pow2 0) with 1. lra. }
  apply pow2_lt_inv in Lt. lia.
Qed.

Lemma rnd64_unit_error x : 0 <= x <= 1 -> Qabs (rnd64 x - x) <= pow2 (-54).
Proof.
  intros [H0 H1].
  pose proof (pow2_pos (-54)) as P54.
  destruct (Qeq_dec x 0) as [Z|NZ].
  { rewrite (rnd64_zero x Z), Z. change (Qabs (0 - 0)) with 0. lra. }
  destruct (Qeq_dec x 1) as [O|NO].
  { rewrite O. rewrite (@rnd_1 rnd64 rnd64_Rounding). change (Qabs (1 - 1)) with 0. lra. }
  assert (L : (fexp x <= -53)%Z) by (apply fexp_below_one; lra).
  eapply Qle_trans; [apply rnd64_error, NZ|].
  pose proof (pow2_le _ _ L) as Le.
  setoid_replace (pow2 (-54)) with ((1 # 2) * pow2 (-53)) by by_compute.
  lra.
Qed.

(** X12.  In exact arithmetic the source's comment holds: with at least
    one positive label, [fnr] is [1 - recall]. *)
Theorem fnr_complements_recall_exact y_true y_score t m :
  metrics_at_threshold rnd_exact y_true y_score t = Ok m ->
  (0 < Row.tp m + Row.fn m)%Z ->
  Row.fnr m == 1 - Row.recall m.
Proof.
  intros Hm P.
  destruct (metrics_at_threshold_inv rnd_exact _ _ _ _ Hm) as (_ & _ & _ & _ & _ & R).
  destruct R as (_ & Er & En & _).
  destruct (Z.eqb_spec (Row.tp m + Row.fn m) 0) as [Z|_]; [lia|].
  rewrite Er, En. unfold int_truediv, rnd_exact.
  rewrite inject_Z_plus. field. rewrite <- inject_Z_plus.
  apply inject_Z_pos_nz, P.
Qed.

Lemma fnr_complements_recall_exact_witness :
  exists m,
    metrics_at_threshold rnd_exact [1; 1; 1; 0]%Z (map lit [9#10; 2#10; 3#10; 1#10])
      (lit (5#10)) = Ok m /\
    Row.fnr m == 1 - Row.recall m.
Proof.
  destruct (metrics_at_threshold rnd_exact [1; 1; 1; 0]%Z (map lit [9#10; 2#10; 3#10; 1#10])
              (lit (5#10))) as [m|] eqn:Hm; [|exfalso; revert Hm; by_compute].
  exists m. split; [reflexivity|].
  apply (fnr_complements_recall_exact _ _ _ m Hm).
  vm_compute in Hm. injection Hm as <-. reflexivity.
Defined.

(** X13.  In binary64 the two are separately rounded quotients: with at
    least one positive label [fnr] differs from [1 - recall] by at most
    [2^-53], whatever the dataset and the threshold. *)
Theorem fnr_complements_recall_binary64 y_true y_score t m :
  metrics_at_threshold rnd64 y_true y_score t = Ok m ->
  (0 < Row.tp m + Row.fn m)%Z ->
  Qabs (Row.fnr m - (1 - Row.recall m)) <= pow2 (-53).
Proof.
  intros Hm P.
  destruct (metrics_at_threshold_inv rnd64 _ _ _ _ Hm) as (_ & Ptp & _ & _ & Pfn & R).
  destruct R as (_ & Er & En & _).
  destruct (Z.eqb_spec (Row.tp m + Row.fn m) 0) as [Z|_]; [lia|].
  rewrite Er, En. unfold int_truediv.
  set (n := (Row.tp m + Row.fn m)%Z) in *.
  set (a := inject_Z (Row.tp m) / inject_Z n).
  set (b := inject_Z (Row.fn m) / inject_Z n).
  assert (S : a + b == 1).
  { unfold a, b, n. rewrite inject_Z_plus. field. rewrite <- inject_Z_plus.
    apply inject_Z_pos_nz, P. }
  assert (Ba : 0 <= a <= 1) by (apply ratio_unit_interval; unfold n; lia).
  assert (Bb : 0 <= b <= 1) by (apply ratio_unit_interval; unfold n; lia).
  pose proof (rnd64_unit_error a Ba) as Ea.
  pose proof (rnd64_unit_error b Bb) as Eb.
  setoid_replace (rnd64 b - (1 - rnd64 a)) with ((rnd64 b - b) + (rnd64 a - a))
    by (rewrite <- S; ring).
  eapply Qle_trans; [apply Qabs_triangle|].
  setoid_replace (pow2 (-53)) with (pow2 (-54) + pow2 (-54)) by by_compute.
  lra.
Qed.

Lemma fnr_complements_recall_binary64_witness :
  exists m,
    metrics_at_threshold rnd64 [1; 1; 1; 0]%Z (map lit [9#10; 2#10; 3#10; 1#10])
      (lit (5#10)) = Ok m /\
    ~ Row.fnr m == 1 - Row.recall m /\
    Qabs (Row.fnr m - (1 - Row.recall m)) <= pow2 (-53).
Proof.
  destruct (metrics_at_threshold rnd64 [1; 1; 1; 0]%Z (map lit [9#10; 2#10; 3#10; 1#10])
              (lit (5#10))) as [m|] eqn:Hm; [|exfalso; revert Hm; by_compute].
  exists m. split; [reflexivity|]. split.
  - vm_compute in Hm. injection Hm as <-. by_compute.
  - apply (fnr_complements_recall_binary64 _ _ _ m Hm).
    vm_compute in Hm. injection Hm as <-. reflexivity.
Defined.

(** ** The selector: row order and the price of the floor *)

Lemma filter_none_iff {A : Type} (f : A -> bool) l :
  filter f l = [] <-> forall x, In x l -> f x = false.
Proof.
  induction l as [|a l IH]; cbn.
  - split; [intros _ x [] | reflexivity].
  - destruct (f a) eqn:F.
    + split; [discriminate|]. intros H. specialize (H a (or_introl eq_refl)). congruence.
    + rewrite IH. split.
      * intros H x [<-|I]; [exact F | apply H, I].
      * intros H x I. apply H. right. exact I.
Qed.

(** The candidates of a floor: the rows that meet it, or every row when
    none does. *)
Lemma candidates_In df floor r :
  In r (candidates df (Some floor)) <->
  In r (rows df) /\
  (floor <= Row.precision r \/
   forall r', In r' (rows df) -> Qle_bool floor (Row.precision r') = false).
Proof.
  unfold candidates.
  destruct (filter _ (rows df)) as [|x l] eqn:F.
  - pose proof (proj1 (filter_none_iff _ _) F) as N. split.
    + intros I. split; [exact I | right; exact N].
    + tauto.
  - rewrite <- F, filter_In, Qle_bool_iff. split.
    + intros [I P]. split; [exact I | left; exact P].
    + intros [I [P|N]]; [split; assumption|].
      exfalso. assert (Ix : In x (filter (fun r => Qle_bool floor (Row.precision r)) (rows df)))
        by (rewrite F; left; reflexivity).
      apply filter_In in Ix. destruct Ix as [Ix Px]. rewrite (N x Ix) in Px. discriminate.
Qed.

Lemma candidates_same_rows df df' precision_floor :
  (forall r, In r (rows df) <-> In r (rows df')) ->
  forall r, In r (candidates df precision_floor) <-> In r (candidates df' precision_floor).
Proof.
  intros S r. destruct precision_floor as [floor|]; [|apply S].
  rewrite !candidates_In, (S r). split; intros [I [P|N]]; split; try assumption;
    try (left; exact P); right; intros r' I'; apply N, S, I'.
Qed.

(** X14.  The selected threshold does not depend on the order of the rows,
    nor on repeated rows: two non-empty sweep tables with the same rows give
    equal thresholds, for every floor and for no floor. *)
Theorem pick_threshold_row_order df df' precision_floor :
  sweep_table df -> sweep_table df' -> rows df <> [] ->
  (forall r, In r (rows df) <-> In r (rows df')) ->
  exists t t',
    pick_threshold df precision_floor = Ok t /\
    pick_threshold df' precision_floor = Ok t' /\
    t == t'.
Proof.
  intros S S' NE Same.
  assert (NE' : rows df' <> []).
  { destruct (rows df) as [|r l] eqn:R; [congruence|].
    intros E. assert (I : In r (rows df')) by (apply Same; left; reflexivity).
    rewrite E in I. exact I. }
  destruct (pick_threshold_best df precision_floor S NE) as (b & Ib & Eb & Lb & Tb).
  destruct (pick_threshold_best df' precision_floor S' NE') as (b' & Ib' & Eb' & Lb' & Tb').
  pose proof (candidates_same_rows df df' precision_floor Same) as C.
  exists (Row.t b), (Row.t b'). split; [exact Eb|]. split; [exact Eb'|].
  assert (F : Row.fnr b == Row.fnr b').
  { apply Qle_antisym; [apply Lb, C, Ib' | apply Lb', C, Ib]. }
  apply Qle_antisym.
  - apply Tb; [apply C, Ib' | symmetry; exact F].
  - apply Tb'; [apply C, Ib | exact F].
Qed.

Lemma pick_threshold_row_order_witness :
  exists t t',
    pick_threshold tie_sweep (Some (lit (30#100))) = Ok t /\
    pick_threshold (mkDataFrame (columns tie_sweep) (rev (rows tie_sweep)))
      (Some (lit (30#100))) = Ok t' /\
    t == t'.
Proof.
  apply pick_threshold_row_order.
  - intros c I. cbn in *. intuition.
  - intros c I. cbn in *. intuition.
  - discriminate.
  - intros r. cbn [rows]. apply in_rev.
Defined.

(** X15.  The floor has a price, and only a floor that some row meets is
    enforced.  When a row meets the floor [f2] and [f1 <= f2], the rows
    selected under [f1] and under [f2] meet their floors, and the miss rate
    achieved without a floor is at most the one under [f1], which is at most
    the one under [f2]. *)
Theorem pick_threshold_floor_price df f1 f2 :
  sweep_table df ->
  f1 <= f2 ->
  (exists r, In r (rows df) /\ f2 <= Row.precision r) ->
  exists b0 b1 b2,
    In b0 (rows df) /\ In b1 (rows df) /\ In b2 (rows df) /\
    pick_threshold df None = Ok (Row.t b0) /\
    pick_threshold df (Some f1) = Ok (Row.t b1) /\
    pick_threshold df (Some f2) = Ok (Row.t b2) /\
    f1 <= Row.precision b1 /\ f2 <= Row.precision b2 /\
    Row.fnr b0 <= Row.fnr b1 /\ Row.fnr b1 <= Row.fnr b2.
Proof.
  intros S L (r & Ir & Pr).
  assert (NE : rows df <> []) by (intros E; rewrite E in Ir; exact Ir).
  destruct (pick_threshold_best df None S NE) as (b0 & I0 & E0 & L0 & _).
  destruct (pick_threshold_best df (Some f1) S NE) as (b1 & I1 & E1 & L1 & _).
  destruct (pick_threshold_best df (Some f2) S NE) as (b2 & I2 & E2 & L2 & _).
  assert (Met : forall f b, f <= f2 -> In b (candidates df (Some f)) ->
                  In b (rows df) /\ f <= Row.precision b).
  { intros f b Lf I. apply candidates_In in I. destruct I as [I [P|N]]; [tauto|].
    exfalso. specialize (N r Ir).
    assert (T : Qle_bool f (Row.precision r) = true) by (apply Qle_bool_iff; lra).
    congruence. }
  destruct (Met f1 b1 L I1) as [R1 P1].
  destruct (Met f2 b2 (Qle_refl f2) I2) as [R2 P2].
  exists b0, b1, b2. cbn [candidates] in I0, L0.
  repeat (split; [assumption|]). split.
  - apply L0, R1.
  - apply L1, candidates_In. split; [exact R2 | left; lra].
Qed.

Lemma pick_threshold_floor_price_witness :
  exists b0 b1 b2,
    pick_threshold floor_sweep None = Ok (Row.t b0) /\
    pick_threshold floor_sweep (Some (lit (10#100))) = Ok (Row.t b1) /\
    pick_threshold floor_sweep (Some (lit (30#100))) = Ok (Row.t b2) /\
    Row.fnr b0 <= Row.fnr b1 /\ Row.fnr b1 <= Row.fnr b2.
Proof.
  destruct (pick_threshold_floor_price floor_sweep (lit (10#100)) (lit (30#100)))
    as (b0 & b1 & b2 & _ & _ & _ & E0 & E1 & E2 & _ & _ & L0 & L1).
  - intros c I. cbn in *. intuition.
  - by_compute.
  - eexists. split; [right; left; reflexivity | by_compute].
  - exists b0, b1, b2. repeat (split; [assumption|]). exact L1.
Defined.

(** ** The sweep on any step *)

Lemma pick_threshold_no_columns precision_floor :
  pick_threshold (pd_DataFrame []) precision_floor
  = Raise (KeyError (match precision_floor with
                     | Some _ => "precision" | None => "fnr" end)).
Proof. destruct precision_floor; reflexivity. Qed.

(** A length that does not pass the check is rejected. *)
Lemma arange_safe_ceil_to_intp_overflow value :
  (Qceiling value < NPY_MIN_INTP \/ NPY_MAX_INTP_double < Qceiling value)%Z ->
  arange_safe_ceil_to_intp value = Raise size_error.
Proof.
  intros H. unfold arange_safe_ceil_to_intp.
  destruct (Z.leb_spec NPY_MIN_INTP (Qceiling value)) as [L|]; [|reflexivity].
  destruct (Z.leb_spec (Qceiling value) NPY_MAX_INTP_double) as [U|]; [|reflexivity].
  exfalso. lia.
Qed.

Lemma rnd64_pow2 e : (emin <= e)%Z -> rnd64 (pow2 e) == pow2 e.
Proof.
  intros H. pose proof (rnd64_fix 1 e) as F.
  setoid_replace (inject_Z 1 * pow2 e) with (pow2 e) in F
    by (change (inject_Z 1) with 1; ring).
  apply F; [cbn; lia | exact H].
Qed.

(** Rounding a number from 1 on at most doubles it. *)
Lemma rnd64_le_double x : 1 <= x -> rnd64 x <= 2 * x.
Proof.
  intros H. assert (P : 0 < x) by lra.
  destruct (Qlog2_spec x P) as [Lo Hi].
  assert (L0 : (0 <= Qlog2 x)%Z).
  { change 0%Z with (Qlog2 1). apply Qlog2_le; [reflexivity | exact H]. }
  eapply Qle_trans; [apply rnd64_mono, Qlt_le_weak, Hi|].
  rewrite rnd64_pow2 by (unfold emin; lia).
  rewrite pow2_succ. lra.
Qed.

(** The float length [(1.0 - step) / step] of the grid of a step from 1 on,
    or of a negative step down from [-2^-20]. *)
Lemma arange_length_degenerate step :
  1 <= step \/ step <= - pow2 (-20) ->
  inject_Z (- 2 ^ 22) <= fdiv rnd64 (fsub rnd64 1 step) step <= 0.
Proof.
  intros H.
  assert (P20 : pow2 (-20) == 1 # 1048576) by (vm_compute; reflexivity).
  assert (R1 : rnd64 1 == 1) by apply (@rnd_1 rnd64 rnd64_Rounding).
  assert (R0 : rnd64 0 == 0) by apply (@rnd_0 rnd64 rnd64_Rounding).
  assert (Q : inject_Z (- 2 ^ 22) <= fsub rnd64 1 step / step <= 0).
  { change (inject_Z (- 2 ^ 22)) with (-4194304 # 1). unfold fsub.
    destruct H as [H|H].
    - assert (A0 : rnd64 (1 - step) <= 0) by (rewrite <- R0; apply rnd64_mono; lra).
      assert (A1 : - (2 * step) <= rnd64 (1 - step)).
      { setoid_replace (1 - step) with (- (step - 1)) by ring. rewrite rnd64_opp.
        assert (rnd64 (step - 1) <= 2 * step); [|lra].
        destruct (Qlt_le_dec (step - 1) 1) as [S|S].
        - assert (rnd64 (step - 1) <= 1) by (rewrite <- R1; apply rnd64_mono; lra). lra.
        - pose proof (rnd64_le_double (step - 1) S). lra. }
      split.
      + apply Qle_shift_div_l; lra.
      + apply Qle_shift_div_r; lra.
    - rewrite P20 in H.
      assert (A0 : 1 <= rnd64 (1 - step)) by (rewrite <- R1; apply rnd64_mono; lra).
      pose proof (rnd64_le_double (1 - step)) as A1.
      assert (A2 : rnd64 (1 - step) <= 2 * (1 - step)) by (apply A1; lra).
      setoid_replace (rnd64 (1 - step) / step) with (- (rnd64 (1 - step) / (- step)))
        by (field; lra).
      assert (B0 : 0 <= rnd64 (1 - step) / - step) by (apply Qle_shift_div_l; lra).
      assert (B1 : rnd64 (1 - step) / - step <= 4194304 # 1)
        by (apply Qle_shift_div_r; lra).
      lra. }
  destruct Q as [Q1 Q0]. unfold fdiv. split.
  - rewrite <- (rnd64_Z (- 2 ^ 22)) by (cbn; lia). apply rnd64_mono, Q1.
  - rewrite <- R0. apply rnd64_mono, Q0.
Qed.

Lemma arange_degenerate step :
  1 <= step \/ step <= - pow2 (-20) -> arange rnd64 step 1 step = Ok [].
Proof.
  intros H. pose proof (arange_length_degenerate step H) as [L U].
  assert (P20 : pow2 (-20) == 1 # 1048576) by (vm_compute; reflexivity).
  unfold arange.
  destruct (Qeq_bool step 0) eqn:Z; [apply Qeq_bool_iff in Z; rewrite P20 in H; lra|].
  pose proof (Qceiling_bounds _ _ 0 L U) as B.
  rewrite arange_safe_ceil_to_intp_fits
    by (change (- 2 ^ 22)%Z with (-4194304)%Z in B;
        unfold NPY_MIN_INTP, NPY_MAX_INTP_double; lia).
  cbn [bind]. replace (Z.to_nat _) with 0%nat by lia. reflexivity.
Qed.

(** X16.  In binary64 a step of 1.0 or more, or a negative step down from
    [-2^-20], is not rejected: the grid is empty, the sweep returns the frame
    without rows and columns whatever the labels and scores (their lengths
    are never compared), and the selector then fails on the first column it
    reads, with [KeyError]. *)
Theorem threshold_sweep_degenerate_step y_true y_score step precision_floor :
  1 <= step \/ step <= - pow2 (-20) ->
  thresholds_of rnd64 step = Ok [] /\
  threshold_sweep rnd64 y_true y_score step = Ok (pd_DataFrame []) /\
  (df <- threshold_sweep rnd64 y_true y_score step ;; pick_threshold df precision_floor)
  = Raise (KeyError (match precision_floor with
                     | Some _ => "precision" | None => "fnr" end)).
Proof.
  intros H.
  assert (T : thresholds_of rnd64 step = Ok []).
  { unfold thresholds_of. rewrite (arange_degenerate step H). reflexivity. }
  assert (S : threshold_sweep rnd64 y_true y_score step = Ok (pd_DataFrame [])).
  { unfold threshold_sweep. rewrite T. reflexivity. }
  split; [exact T|]. split; [exact S|].
  rewrite S. cbn [bind]. apply pick_threshold_no_columns.
Qed.

Lemma threshold_sweep_degenerate_step_witness :
  threshold_sweep rnd64 [1; 0; 1]%Z [lit (9#10); lit (2#10)] (- lit (1#10))
  = Ok (pd_DataFrame []) /\
  (df <- threshold_sweep rnd64 [1; 0; 1]%Z [lit (9#10); lit (2#10)] (- lit (1#10)) ;;
   pick_threshold df (Some (lit (30#100))))
  = Raise (KeyError "precision").
Proof.
  destruct (threshold_sweep_degenerate_step [1; 0; 1]%Z [lit (9#10); lit (2#10)]
              (- lit (1#10)) (Some (lit (30#100)))) as (_ & S & P).
  - right. by_compute.
  - split; [exact S | exact P].
Defined.

(** The float length of the grid of a step within [2^-65] of zero. *)
Lemma arange_length_too_fine step :
  ~ step == 0 -> Qabs step <= pow2 (-65) ->
  let value := fdiv rnd64 (fsub rnd64 1 step) step in
  value <= inject_Z (- 2 ^ 65) \/ inject_Z (2 ^ 64) <= value.
Proof.
  intros NZ A. cbv zeta.
  assert (P65 : pow2 (-65) == 1 # 36893488147419103232) by (vm_compute; reflexivity).
  assert (R1 : rnd64 1 == 1) by apply (@rnd_1 rnd64 rnd64_Rounding).
  assert (Rh : rnd64 (1 # 2) == 1 # 2) by (vm_compute; reflexivity).
  rewrite P65 in A. apply Qabs_Qle_condition in A. destruct A as [A1 A2].
  unfold fdiv, fsub.
  destruct (Qlt_le_dec step 0) as [N|P].
  - left.
    assert (B : 1 <= rnd64 (1 - step)) by (rewrite <- R1; apply rnd64_mono; lra).
    assert (Q : rnd64 (1 - step) / step <= inject_Z (- 2 ^ 65)).
    { change (inject_Z (- 2 ^ 65)) with (-36893488147419103232 # 1).
      setoid_replace (rnd64 (1 - step) / step) with (- (rnd64 (1 - step) / (- step)))
        by (field; lra).
      assert (36893488147419103232 # 1 <= rnd64 (1 - step) / - step); [|lra].
      apply Qle_shift_div_l; lra. }
    rewrite <- (rnd64_fix (-1) 65) by (cbn; unfold emin; lia).
    apply rnd64_mono. eapply Qle_trans; [exact Q|].
    vm_compute. discriminate.
  - right. assert (Ps : 0 < step) by (apply Qle_lt_or_eq in P; destruct P as [P|P];
      [exact P | exfalso; apply NZ; symmetry; exact P]).
    assert (B : 1 # 2 <= rnd64 (1 - step)) by (rewrite <- Rh; apply rnd64_mono; lra).
    assert (Q : inject_Z (2 ^ 64) <= rnd64 (1 - step) / step).
    { change (inject_Z (2 ^ 64)) with (18446744073709551616 # 1).
      apply Qle_shift_div_l; lra. }
    rewrite <- (rnd64_fix 1 64) by (cbn; unfold emin; lia).
    apply rnd64_mono. eapply Qle_trans; [|exact Q].
    vm_compute. discriminate.
Qed.

(** X21.  In binary64 a non-zero step within [2^-65] of zero is rejected
    before the data is looked at: the float length of the grid does not
    pass numpy's size check, and the sweep raises the [ValueError] of
    [np.arange], whatever the labels and scores. *)
Theorem threshold_sweep_step_too_fine y_true y_score step :
  ~ step == 0 -> Qabs step <= pow2 (-65) ->
  thresholds_of rnd64 step = Raise size_error /\
  threshold_sweep rnd64 y_true y_score step = Raise size_error /\
  size_error = ValueError "Maximum allowed size exceeded".
Proof.
  intros NZ A.
  assert (T : thresholds_of rnd64 step = Raise size_error).
  { unfold thresholds_of, arange.
    destruct (Qeq_bool step 0) eqn:Z; [apply Qeq_bool_iff in Z; contradiction|].
    rewrite arange_safe_ceil_to_intp_overflow; [reflexivity|].
    destruct (arange_length_too_fine step NZ A) as [L|U].
    - left. pose proof (Qceiling_resp_le _ _ L) as C. rewrite Qceiling_Z in C.
      change (- 2 ^ 65)%Z with (-36893488147419103232)%Z in C.
      unfold NPY_MIN_INTP. lia.
    - right. pose proof (Qceiling_resp_le _ _ U) as C. rewrite Qceiling_Z in C.
      change (2 ^ 64)%Z with 18446744073709551616%Z in C.
      unfold NPY_MAX_INTP_double. lia. }
  split; [exact T|]. split; [|reflexivity].
  unfold threshold_sweep. rewrite T. reflexivity.
Qed.

Lemma threshold_sweep_step_too_fine_witness :
  threshold_sweep rnd64 scenario_labels scenario_scores (lit (1 # 10 ^ 20))
  = Raise (ValueError "Maximum allowed size exceeded").
Proof.
  destruct (threshold_sweep_step_too_fine scenario_labels scenario_scores (lit (1 # 10 ^ 20)))
    as (_ & S & _).
  - by_compute.
  - by_compute.
  - exact S.
Defined.

Section Sweep.

Variable rnd : Q -> Q.
Context {RND : Rounding rnd}.

(** X17.  For every positive float step, every grid the sweep builds
    consists of non-negative two-decimal floats, [n / 100] rounded for an
    integer [n >= 0], in non-decreasing order, and the sweep of a dataset of
    equal lengths then returns a table with one row per threshold, in that
    order.  The grid is built for every step from [2^-20] to 1. *)
Theorem thresholds_of_two_decimals y_true y_score step :
  0 < step -> is_float rnd step ->
  List.length y_true = List.length y_score ->
  (pow2 (-20) <= step -> step <= 1 -> exists ths, thresholds_of rnd step = Ok ths) /\
  forall ths, thresholds_of rnd step = Ok ths ->
    (forall a, In a ths ->
       0 <= a /\ exists n : Z, (0 <= n)%Z /\ a = rnd (inject_Z n / inject_Z 100)) /\
    (forall i j a b, (i <= j)%nat ->
       nth_error ths i = Some a -> nth_error ths j = Some b -> a <= b) /\
    exists df,
      threshold_sweep rnd y_true y_score step = Ok df /\
      map Row.t (rows df) = ths.
Proof.
  intros P F E. split; [apply (thresholds_of_total rnd)|].
  intros ths Ht.
  destruct (thresholds_of_inv rnd step ths Ht) as (grid & Hg & Eg).
  split; [|split].
  - intros a I. rewrite Eg in I. unfold np_round in I.
    apply in_map_iff in I. destruct I as (x & <- & Ix).
    destruct (arange_entries rnd step grid F Hg) as (n & A).
    destruct (Forall2_In_r _ _ _ _ A Ix) as (k & _ & Ek).
    assert (X0 : 0 <= x).
    { rewrite Ek. apply (rnd_nonneg rnd).
      assert (0 <= rnd (inject_Z (Z.of_nat k) * step)).
      { apply (rnd_nonneg rnd). apply Qmult_le_0_compat; [|lra].
        change 0 with (inject_Z 0). rewrite <- Zle_Qle. lia. }
      lra. }
    assert (N0 : (0 <= round_even (fmul rnd x (inject_Z (10 ^ Z.of_nat 2))))%Z).
    { apply round_even_ge. unfold fmul. change (inject_Z 0) with 0.
      apply (rnd_nonneg rnd). apply Qmult_le_0_compat; [exact X0|]. by_compute. }
    split.
    + unfold fdiv, np_rint. apply (rnd_nonneg rnd).
      apply Qle_shift_div_l; [reflexivity|].
      setoid_replace (0 * inject_Z (10 ^ Z.of_nat 2)) with (inject_Z 0) by by_compute.
      rewrite <- Zle_Qle. exact N0.
    + eexists. split; [exact N0 | reflexivity].
  - apply (thresholds_of_ascending rnd step _ P F Ht).
  - destruct (threshold_sweep_total rnd y_true y_score step ths E Ht) as [df Hdf].
    exists df. split; [exact Hdf|].
    exact (threshold_sweep_thresholds rnd _ _ _ _ _ Hdf Ht).
Qed.

End Sweep.

Lemma thresholds_of_two_decimals_witness :
  exists ths df,
    thresholds_of rnd64 (lit (4#1000)) = Ok ths /\
    (forall a, In a ths -> 0 <= a) /\
    threshold_sweep rnd64 scenario_labels scenario_scores (lit (4#1000)) = Ok df /\
    map Row.t (rows df) = ths.
Proof.
  destruct (thresholds_of_two_decimals rnd64 scenario_labels scenario_scores (lit (4#1000)))
    as (T & P).
  - by_compute.
  - by_compute.
  - reflexivity.
  - destruct T as [ths Ht]; [by_compute | by_compute |].
    destruct (P ths Ht) as (A & _ & df & Hdf & M).
    exists ths, df. split; [exact Ht|]. split; [|split; [exact Hdf | exact M]].
    intros a I. apply (A a I).
Defined.

(** ** The operating point of the runner *)

Lemma default_grid : thresholds_of rnd64 (lit (5 # 100)) = Ok (hundredths_grid 5).
Proof. vm_compute. reflexivity. Qed.

Lemma default_grid_bands :
  forallb (proper_band rnd64 (lit (5 # 100))) (hundredths_grid 5) = true.
Proof. vm_compute. reflexivity. Qed.

(** X18.  On every test set of equal lengths the runner's steps from the
    sweep to the chosen row succeed in binary64: the operating point [t] is
    one of the 19 thresholds 0.05, ..., 0.95, the band around it is proper
    and inside the unit interval, [0 <= t1 < t < t2 <= 1], and the chosen
    row is the row of the sweep at [t]. *)
Theorem main_operating_point_band y_test y_score :
  List.length y_test = List.length y_score ->
  exists t t1 t2 chosen df,
    main_operating_point rnd64 y_test y_score = Ok (t, t1, t2, chosen) /\
    In t (hundredths_grid 5) /\
    0 <= t1 /\ t1 < t /\ t < t2 /\ t2 <= 1 /\
    threshold_sweep rnd64 y_test y_score (lit (5 # 100)) = Ok df /\
    In chosen (rows df) /\ Row.t chosen = t.
Proof.
  intros E.
  destruct (threshold_sweep_total rnd64 y_test y_score (lit (5#100)) _ E default_grid)
    as [df Hdf].
  destruct (threshold_sweep_rows rnd64 _ _ _ _ Hdf) as (ths & Hths & F2 & Hc).
  rewrite default_grid in Hths. injection Hths as <-.
  assert (NE : rows df <> []).
  { intros Z. rewrite Z in F2. inversion F2. }
  assert (S : sweep_table df).
  { destruct df as [cs rs]. cbn [rows columns] in *.
    destruct rs as [|r rs]; [congruence|]. subst cs.
    apply (pd_DataFrame_sweep_table (r :: rs)). discriminate. }
  destruct (pick_threshold_least df (Some (lit (30#100))) S NE) as (best & Ib & Eb & _).
  apply candidates_incl in Ib.
  destruct (Forall2_In_r _ _ _ _ F2 Ib) as (t & It & Ht).
  destruct (metrics_at_threshold_inv rnd64 _ _ _ _ Ht) as (Et & _).
  pose proof default_grid_bands as B. rewrite forallb_forall in B.
  specialize (B t It). unfold proper_band in B.
  destruct (make_t1_t2 rnd64 t (lit (5#100))) as [t1 t2] eqn:M.
  apply andb_true_iff in B. destruct B as [B B4].
  apply andb_true_iff in B. destruct B as [B B3].
  apply andb_true_iff in B. destruct B as [B1 B2].
  exists t, t1, t2, best, df.
  split.
  { unfold main_operating_point. rewrite Hdf. cbn [bind]. rewrite Eb, Et. cbn [bind].
    rewrite M, Ht. reflexivity. }
  split; [exact It|].
  split; [apply Qle_bool_iff, B1|]. split; [apply Qlt_bool_iff, B2|].
  split; [apply Qlt_bool_iff, B3|]. split; [apply Qle_bool_iff, B4|].
  split; [exact Hdf|]. split; [exact Ib | exact Et].
Qed.

Lemma main_operating_point_band_witness :
  exists t t1 t2 chosen,
    main_operating_point rnd64 scenario_labels scenario_scores = Ok (t, t1, t2, chosen) /\
    0 <= t1 /\ t1 < t /\ t < t2 /\ t2 <= 1.
Proof.
  destruct (main_operating_point_band scenario_labels scenario_scores)
    as (t & t1 & t2 & chosen & df & H & _ & B1 & B2 & B3 & B4 & _).
  - reflexivity.
  - exists t, t1, t2, chosen. repeat (split; [assumption|]). exact B4.
Defined.

(** ** The band on any input, and the band under the router *)

Lemma py_max_le_compat a b b' : b <= b' -> py_max a b <= py_max a b'.
Proof.
  intros H. rewrite !py_max_spec. apply Q.max_le_compat_l, H.
Qed.

Lemma py_min_le_compat a b b' : b <= b' -> py_min a b <= py_min a b'.
Proof.
  intros H. rewrite !py_min_spec. apply Q.min_le_compat_l, H.
Qed.

Section Band.

Variable rnd : Q -> Q.
Context {RND : Rounding rnd}.

(** X19.  Whatever the threshold and the band width (out of range or
    negative included), [t1] is at least 0 and [t2] at most 1; a wider band
    lowers [t1] and raises [t2] (or leaves them), and a larger threshold
    moves neither of them down. *)
Theorem make_t1_t2_clamped_monotone t t' band band' :
  t <= t' -> band <= band' ->
  0 <= fst (make_t1_t2 rnd t band) /\
  snd (make_t1_t2 rnd t band) <= 1 /\
  fst (make_t1_t2 rnd t band') <= fst (make_t1_t2 rnd t band) /\
  snd (make_t1_t2 rnd t band) <= snd (make_t1_t2 rnd t band') /\
  fst (make_t1_t2 rnd t band) <= fst (make_t1_t2 rnd t' band) /\
  snd (make_t1_t2 rnd t band) <= snd (make_t1_t2 rnd t' band).
Proof.
  intros Lt Lb. unfold make_t1_t2. cbn [fst snd].
  split; [rewrite py_max_spec; apply Q.le_max_l|].
  split; [rewrite py_min_spec; apply Q.le_min_l|].
  split; [apply py_max_le_compat; unfold fsub; apply rnd_mono; lra|].
  split; [apply py_min_le_compat; unfold fadd; apply rnd_mono; lra|].
  split; [apply py_max_le_compat; unfold fsub; apply rnd_mono; lra|].
  apply py_min_le_compat; unfold fadd; apply rnd_mono; lra.
Qed.

(** The band lies around the threshold. *)
Lemma make_t1_t2_around t band :
  is_float rnd t -> 0 <= t <= 1 -> 0 <= band ->
  fst (make_t1_t2 rnd t band) <= t /\ t <= snd (make_t1_t2 rnd t band).
Proof.
  intros F [T0 T1] B. unfold make_t1_t2, is_float in *. cbn [fst snd].
  rewrite py_max_spec, py_min_spec. split.
  - apply Q.max_lub; [exact T0|]. unfold fsub. rewrite <- F at 2. apply rnd_mono. lra.
  - apply Q.min_glb; [exact T1|]. unfold fadd. rewrite <- F at 1. apply rnd_mono. lra.
Qed.

(** X20.  The band only softens the single-threshold decision.  With the
    band of a float threshold [t] in [0, 1] and a width [band >= 0], a case
    the evaluator predicts positive at [t] ([score >= t]) is never
    auto-approved and a case it predicts negative ([score < t]) is never
    blocked: each is decided as the single threshold would or sent to
    manual review. *)
Theorem route_softens_threshold y_score t band i s :
  is_float rnd t -> 0 <= t <= 1 -> 0 <= band ->
  nth_error y_score i = Some s ->
  exists r,
    nth_error (route_with_t1_t2 y_score (fst (make_t1_t2 rnd t band))
                 (snd (make_t1_t2 rnd t band))) i = Some (Some r) /\
    (nth_error (y_pred_of y_score t) i = Some 1%Z ->
       r <> low_risk /\ action_from_route r <> "auto_approve"%string) /\
    (nth_error (y_pred_of y_score t) i = Some 0%Z ->
       r <> high_risk /\ action_from_route r <> "intervene_or_block"%string).
Proof.
  intros F T B Hs.
  destruct (make_t1_t2_around t band F T B) as [L1 L2].
  set (t1 := fst (make_t1_t2 rnd t band)) in *.
  set (t2 := snd (make_t1_t2 rnd t band)) in *.
  rewrite (route_with_t1_t2_nth _ t1 t2 _ _ Hs), (y_pred_of_nth _ t _ _ Hs).
  destruct (route_entry_cases s t1 t2) as [[H2 E]|[(H2 & H1 & E)|(H2 & H1 & E)]];
    rewrite E; eexists; (split; [reflexivity|]);
    destruct (Qle_bool t s) eqn:Q;
    try (apply Qle_bool_iff in Q);
    try (assert (s < t) by (apply Qnot_le_lt; intros Q'; apply Qle_bool_iff in Q'; congruence));
    split; intros P; try discriminate P; try (exfalso; lra);
    split; discriminate.
Qed.

End Band.

Lemma make_t1_t2_clamped_monotone_witness :
  0 <= fst (make_t1_t2 rnd64 (lit (3#10)) (lit (5#100))) /\
  snd (make_t1_t2 rnd64 (lit (3#10)) (lit (5#100))) <= 1 /\
  fst (make_t1_t2 rnd64 (lit (3#10)) (lit (10#100)))
    <= fst (make_t1_t2 rnd64 (lit (3#10)) (lit (5#100))).
Proof.
  destruct (make_t1_t2_clamped_monotone rnd64 (lit (3#10)) (lit (4#10))
              (lit (5#100)) (lit (10#100))) as (A & B & C & _).
  - by_compute.
  - by_compute.
  - split; [exact A|]. split; [exact B | exact C].
Defined.

Lemma route_softens_threshold_witness :
  exists r,
    nth_error (route_with_t1_t2 scenario_scores
                 (fst (make_t1_t2 rnd64 (lit (5#10)) (lit (15#100))))
                 (snd (make_t1_t2 rnd64 (lit (5#10)) (lit (15#100))))) 2 = Some (Some r) /\
    r <> low_risk /\ action_from_route r <> "auto_approve"%string.
Proof.
  destruct (route_softens_threshold rnd64 scenario_scores (lit (5#10)) (lit (15#100))
              2%nat (lit (6#10))) as (r & Hr & P & _).
  - by_compute.
  - split; by_compute.
  - by_compute.
  - reflexivity.
  - exists r. split; [exact Hr|]. apply P. vm_compute. reflexivity.
Defined.
